(** * VantraOrbit: the animated core of [src/js/solar-system.js]

    A shallow embedding of the [SolarSystem] class: the body registry
    ([this.planets]), the texture-load callbacks that register bodies, the
    Saturn ring assembly, the UI handlers and the per-frame [animate]
    callback, followed by the properties of the orbit kinematics, the
    scheduler, the camera follow and the registry.

    Numbers.  JavaScript numbers are modelled as real numbers ([R]) and
    [Math.cos], [Math.sin], [Math.PI] as [cos], [sin], [PI]: rounding,
    infinities and the sign of zero are outside the model (the size of the
    rounding in the scenario of C1 is measured once, on binary64 floats, by
    [phase_step64]).  A store into a [Float32Array] keeps a binary32 number
    and is modelled as such ([fround]).  The one place
    where the source computes with [undefined] (the pulse of a glow sheet,
    whose [userData] has no [index]) is modelled with [option R], [None]
    standing for [NaN].

    Objects.  A JavaScript object reachable from several places (a planet
    mesh is held by [this.planets], by the scene and possibly by
    [this.followTarget]) is stored once, in [planets]; the other holders
    keep its index.  Bodies are only ever appended to [this.planets], so an
    index names the same object for the rest of the run. *)

From Stdlib Require Import PrimFloat.
From Stdlib Require Import Reals List String ZArith Bool Arith Lia Lra.
From Stdlib Require Import Permutation.
Import ListNotations.

Local Open Scope string_scope.
Local Open Scope list_scope.
Local Open Scope R_scope.

(** ** three.js vectors *)

Module Vector3.

Record t : Type := mk { x : R; y : R; z : R }.

Definition zero : t := mk 0 0 0.

Definition add (a v : t) : t := mk (x a + x v) (y a + y v) (z a + z v).

Definition multiplyScalar (a : t) (s : R) : t :=
  mk (x a * s) (y a * s) (z a * s).

(** [a.lerp(v, alpha)]: each coordinate does [this.c += (v.c - this.c) * alpha]. *)
Definition lerp (a v : t) (alpha : R) : t :=
  mk (x a + (x v - x a) * alpha)
     (y a + (y v - y a) * alpha)
     (z a + (z v - z a) * alpha).

Definition distanceTo (a v : t) : R :=
  sqrt ((x a - x v) * (x a - x v)
        + (y a - y v) * (y a - y v)
        + (z a - z v) * (z a - z v)).

End Vector3.

(** ** three.js orbit controls

    [this.controls.update()] with no pointer gesture in progress (no
    rotation, pan or wheel zoom pending) and the camera's [up] along [y]:
    the offset of the camera from the target is read as a radius, a polar
    angle [phi] from the [y] axis and an azimuth [theta]
    ([Spherical.setFromVector3]), [phi] is kept between [EPS] and
    [PI - EPS] ([makeSafe]), the radius between [minDistance] and
    [maxDistance], and the camera is put back at the target plus the
    offset with these values ([setFromSpherical]).  The angles are
    written by their cosines and sines: [cos phi = y / radius], and
    [sin theta = x / h], [cos theta = z / h] with [h] the length of the
    horizontal part; [theta] and [phi] are 0 where
    [Math.atan2(0, 0)] and a radius of 0 make them so. *)

Module OrbitControls.

(** [this.controls.minDistance = 10], [this.controls.maxDistance = 2000] *)
Definition minDistance : R := 10.

Definition maxDistance : R := 2000.

(** The [EPS] of [Spherical.makeSafe]. *)
Definition EPS : R := 0.000001.

(** The cosine of the polar angle once [makeSafe] has clamped it. *)
Definition safe (cos_phi : R) : R :=
  if Rlt_dec (cos EPS) cos_phi then cos EPS
  else if Rlt_dec cos_phi (- cos EPS) then - cos EPS
  else cos_phi.

Definition update (target position : Vector3.t) : Vector3.t :=
  let x := Vector3.x position - Vector3.x target in
  let y := Vector3.y position - Vector3.y target in
  let z := Vector3.z position - Vector3.z target in
  let radius := sqrt (x * x + y * y + z * z) in
  let h := sqrt (x * x + z * z) in
  let sin_theta := if Req_dec_T h 0 then 0 else x / h in
  let cos_theta := if Req_dec_T h 0 then 1 else z / h in
  let cos_phi := safe (if Req_dec_T radius 0 then 1 else y / radius) in
  let sin_phi := sqrt (1 - cos_phi * cos_phi) in
  let radius' := Rmax minDistance (Rmin maxDistance radius) in
  Vector3.mk (Vector3.x target + radius' * sin_phi * sin_theta)
             (Vector3.y target + radius' * cos_phi)
             (Vector3.z target + radius' * sin_phi * cos_theta).

(** Where [update] has nothing to correct: the camera is between
    [minDistance] and [maxDistance] from the target and its polar angle
    between [EPS] and [PI - EPS]. *)
Definition undisturbed (target position : Vector3.t) : Prop :=
  let y := Vector3.y position - Vector3.y target in
  let radius := Vector3.distanceTo position target in
  minDistance <= radius <= maxDistance
  /\ - cos EPS * radius <= y <= cos EPS * radius.

End OrbitControls.

(** ** Bodies *)

(** The [data] record that [loadAllPlanets] passes as [planetData] and that
    [loadPlanet] spreads into [userData]. *)
Record PlanetFacts : Type := mkFacts {
  realDistance : string;
  period : string;
  diameter : string;
  type : string
}.

Record UserData : Type := mkUserData {
  name : string;
  distance : R;
  orbitSpeed : R;
  rotationSpeed : R;
  angle : R;
  size : option R;
  parentPlanet : option string;
  facts : option PlanetFacts
}.

(** [new THREE.MeshStandardMaterial({ map: texture })] or [({ color: c })]. *)
Inductive Material : Type :=
| TextureMap (path : string)
| FlatColor (hex : Z).

(** A body: a [THREE.Mesh] with the fields the program reads or writes.
    [radius] is the radius of its sphere geometry. *)
Record Mesh : Type := mkMesh {
  position : Vector3.t;
  rotation_y : R;
  scale : R;
  radius : R;
  material : Material;
  userData : UserData
}.

Definition set_angle (a : R) (d : UserData) : UserData :=
  mkUserData (name d) (distance d) (orbitSpeed d) (rotationSpeed d) a
             (size d) (parentPlanet d) (facts d).

Definition set_userData (d : UserData) (p : Mesh) : Mesh :=
  mkMesh (position p) (rotation_y p) (scale p) (radius p) (material p) d.

Definition set_position (v : Vector3.t) (p : Mesh) : Mesh :=
  mkMesh v (rotation_y p) (scale p) (radius p) (material p) (userData p).

Definition set_rotation_y (r : R) (p : Mesh) : Mesh :=
  mkMesh (position p) r (scale p) (radius p) (material p) (userData p).

Definition set_scale (k : R) (p : Mesh) : Mesh :=
  mkMesh (position p) (rotation_y p) k (radius p) (material p) (userData p).

(** ** Saturn's ring assembly *)

Record Segment : Type := mkSegment {
  inner : R;
  outer : R;
  speed : R;
  opacity : R;
  height : R;
  color : Z
}.

Inductive ObjectType : Type := MeshType | PointsType.

Record RingUserData : Type := mkRingUserData {
  ring_rotationSpeed : option R;
  index : option nat;
  segment : option Segment;
  isGlow : bool;
  isParticleSystem : bool
}.

(** One entry of [this.saturnRings].  [material_opacity] is [None] once it
    has become [NaN]; [geometry_position] and [geometry_velocity] are the
    flat [x,y,z,x,y,z,...] attribute arrays of a particle system. *)
Record RingObject : Type := mkRing {
  object_type : ObjectType;
  ring_rotation_y : R;
  ring_rotation_z : R;
  material_opacity : option R;
  ring_userData : RingUserData;
  geometry_position : list R;
  geometry_velocity : list R
}.

Definition ringSegments : list Segment :=
  [ mkSegment 12 16 0.008 0.9 0.2 0xdddddd;
    mkSegment 16 20 0.006 1.0 0.3 0xffffff;
    mkSegment 20 25 0.004 0.95 0.5 0xf5f5f5;
    mkSegment 26 30 0.003 0.8 0.4 0xeeeeee;
    mkSegment 32 34 0.002 0.6 0.15 0xcccccc ].

(** [create3DRingSegment]: the ring mesh pushed for a segment. *)
Definition create3DRingSegment (seg : Segment) (i : nat) : RingObject :=
  mkRing MeshType 0 0 (Some (opacity seg))
         (mkRingUserData (Some (speed seg)) (Some i) (Some seg) false false)
         [] [].

(** [addRingSubsurfaceEffect]: the glow sheet pushed right after it. *)
Definition addRingSubsurfaceEffect (seg : Segment) : RingObject :=
  mkRing MeshType 0 0 (Some 0.15)
         (mkRingUserData (Some (speed seg * 0.7)) None None true false)
         [] [].

(** [createEnhancedRingGaps]: two dark bands, [(opacity)] per band. *)
Definition gapSegments : list R := [0.1; 0.05].

Definition createEnhancedRingGaps : list RingObject :=
  map (fun gap_opacity =>
         mkRing MeshType 0 0 (Some gap_opacity)
                (mkRingUserData (Some 0.0035) None None false false) [] [])
      gapSegments.

(** What a store into a [Float32Array] keeps of a number: the nearest
    binary32 number, ties going to the even significand ([Math.fround]).
    [round_half_even r] is the integer nearest to [r]; a binary32 number
    is a multiple of [2 ^ (e - 23)], with [2 ^ e] the power of two at or
    below its magnitude and [e] no less than -126.  Magnitudes beyond the
    binary32 range, which a store turns into an infinity, are not
    modelled. *)
Definition round_half_even (r : R) : Z :=
  let f := Int_part r in
  let d := r - IZR f in
  if Rlt_dec d (1 / 2) then f
  else if Rlt_dec (1 / 2) d then (f + 1)%Z
  else if Z.even f then f else (f + 1)%Z.

Definition fround (x : R) : R :=
  if Req_dec_T x 0 then 0
  else
    let e := Z.max (Int_part (ln (Rabs x) / ln 2)) (-126) in
    let ulp := powerRZ 2 (e - 23) in
    IZR (round_half_even (x / ulp)) * ulp.

(** [createEnhancedRingParticles]: the [speed] of each of the four systems.
    The particle coordinates and velocities are computed from
    [Math.random]; the numbers computed are an input of the model
    ([swarm k] for system [k], for two arrays of [3 * count] numbers), and
    the [Float32Array]s keep them as binary32 numbers. *)
Definition particleSystems : list R := [0.006; 0.004; 0.003; 0.002].

Fixpoint createEnhancedRingParticles_from (k : nat) (speeds : list R)
         (swarm : nat -> list R * list R) : list RingObject :=
  match speeds with
  | [] => []
  | s :: rest =>
      mkRing PointsType 0 0 (Some 0.8)
             (mkRingUserData (Some s) None None false true)
             (map fround (fst (swarm k))) (map fround (snd (swarm k)))
      :: createEnhancedRingParticles_from (S k) rest swarm
  end.

Definition createEnhancedRingParticles (swarm : nat -> list R * list R)
  : list RingObject :=
  createEnhancedRingParticles_from 0 particleSystems swarm.

(** [createRingLightingEffects]: the rim light keeps the default, empty
    [userData]. *)
Definition createRingLightingEffects : RingObject :=
  mkRing MeshType 0 0 (Some 0.03)
         (mkRingUserData None None None false false) [] [].

Fixpoint ringSegments_forEach (i : nat) (segs : list Segment) : list RingObject :=
  match segs with
  | [] => []
  | seg :: rest =>
      create3DRingSegment seg i :: addRingSubsurfaceEffect seg
      :: ringSegments_forEach (S i) rest
  end.

(** [createSaturnRings]: the value of [this.saturnRings] when it returns. *)
Definition createSaturnRings (swarm : nat -> list R * list R) : list RingObject :=
  ringSegments_forEach 0 ringSegments
  ++ createEnhancedRingGaps
  ++ createEnhancedRingParticles swarm
  ++ [createRingLightingEffects].

(** ** The application state *)

Record OrbitPath : Type := mkOrbitPath {
  path_distance : R;
  visible : bool
}.

(** One layer of [this.sunGlowEffects]. *)
Record Glow : Type := mkGlow {
  glow_opacity : option R;
  glow_rotation_x : R;
  glow_rotation_y : R
}.

(** Children of [this.scene].  Bodies and orbit paths are held by index. *)
Inductive SceneNode : Type :=
| LightNode (label : string)
| StarSphereNode
| ProceduralStarsNode
| SunNode
| SunGlowNode (layer : nat)
| BodyNode (i : nat)
| OrbitPathNode (i : nat).

(** A texture request handed to [THREE.TextureLoader.load] whose callback
    has not run yet, with what the callback closes over. *)
Inductive Pending : Type :=
| Stars8KLoad
| Stars2KLoad
| SunLoad
| PlanetLoad (lp_name : string) (lp_size lp_distance : R) (lp_texturePath : string)
             (lp_orbitSpeed lp_rotationSpeed : R) (lp_planetData : PlanetFacts)
             (lp_geometryRadius : R)
| MoonLoad.

Definition texturePath (p : Pending) : string :=
  match p with
  | Stars8KLoad => "textures/stars_milky_way_8k.jpg"
  | Stars2KLoad => "textures/stars_milky_way.jpg"
  | SunLoad => "textures/sun.jpg"
  | PlanetLoad _ _ _ path _ _ _ _ => path
  | MoonLoad => "textures/moon.jpg"
  end.

(** What the program does to the host: [requestAnimationFrame],
    [this.controls.update()], [this.renderer.render(...)]. *)
Inductive Effect : Type :=
| RequestAnimationFrame
| ControlsUpdate
| Render.

Record SolarSystem : Type := mkSolarSystem {
  planets : list Mesh;
  orbitPaths : list OrbitPath;
  animationSpeed : R;
  planetScale : R;
  showOrbits : bool;
  followTarget : option nat;
  isPaused : bool;
  saturnRings : option (list RingObject);
  sun : option R;
  sunGlowEffects : option (list Glow);
  starSphere : option R;
  camera_position : Vector3.t;
  controls_target : Vector3.t;
  scene : list SceneNode;
  followPlanet_options : list string;
  loading : list Pending;
  effects : list Effect
}.

Definition set_planets (v : list Mesh) (s : SolarSystem) : SolarSystem :=
  mkSolarSystem v (orbitPaths s) (animationSpeed s) (planetScale s) (showOrbits s)
    (followTarget s) (isPaused s) (saturnRings s) (sun s) (sunGlowEffects s)
    (starSphere s) (camera_position s) (controls_target s) (scene s)
    (followPlanet_options s) (loading s) (effects s).

Definition set_orbitPaths (v : list OrbitPath) (s : SolarSystem) : SolarSystem :=
  mkSolarSystem (planets s) v (animationSpeed s) (planetScale s) (showOrbits s)
    (followTarget s) (isPaused s) (saturnRings s) (sun s) (sunGlowEffects s)
    (starSphere s) (camera_position s) (controls_target s) (scene s)
    (followPlanet_options s) (loading s) (effects s).

Definition set_animationSpeed (v : R) (s : SolarSystem) : SolarSystem :=
  mkSolarSystem (planets s) (orbitPaths s) v (planetScale s) (showOrbits s)
    (followTarget s) (isPaused s) (saturnRings s) (sun s) (sunGlowEffects s)
    (starSphere s) (camera_position s) (controls_target s) (scene s)
    (followPlanet_options s) (loading s) (effects s).

Definition set_planetScale (v : R) (s : SolarSystem) : SolarSystem :=
  mkSolarSystem (planets s) (orbitPaths s) (animationSpeed s) v (showOrbits s)
    (followTarget s) (isPaused s) (saturnRings s) (sun s) (sunGlowEffects s)
    (starSphere s) (camera_position s) (controls_target s) (scene s)
    (followPlanet_options s) (loading s) (effects s).

Definition set_showOrbits (v : bool) (s : SolarSystem) : SolarSystem :=
  mkSolarSystem (planets s) (orbitPaths s) (animationSpeed s) (planetScale s) v
    (followTarget s) (isPaused s) (saturnRings s) (sun s) (sunGlowEffects s)
    (starSphere s) (camera_position s) (controls_target s) (scene s)
    (followPlanet_options s) (loading s) (effects s).

Definition set_followTarget (v : option nat) (s : SolarSystem) : SolarSystem :=
  mkSolarSystem (planets s) (orbitPaths s) (animationSpeed s) (planetScale s)
    (showOrbits s) v (isPaused s) (saturnRings s) (sun s) (sunGlowEffects s)
    (starSphere s) (camera_position s) (controls_target s) (scene s)
    (followPlanet_options s) (loading s) (effects s).

Definition set_isPaused (v : bool) (s : SolarSystem) : SolarSystem :=
  mkSolarSystem (planets s) (orbitPaths s) (animationSpeed s) (planetScale s)
    (showOrbits s) (followTarget s) v (saturnRings s) (sun s) (sunGlowEffects s)
    (starSphere s) (camera_position s) (controls_target s) (scene s)
    (followPlanet_options s) (loading s) (effects s).

Definition set_saturnRings (v : option (list RingObject)) (s : SolarSystem)
  : SolarSystem :=
  mkSolarSystem (planets s) (orbitPaths s) (animationSpeed s) (planetScale s)
    (showOrbits s) (followTarget s) (isPaused s) v (sun s) (sunGlowEffects s)
    (starSphere s) (camera_position s) (controls_target s) (scene s)
    (followPlanet_options s) (loading s) (effects s).

Definition set_sun (v : option R) (glows : option (list Glow)) (s : SolarSystem)
  : SolarSystem :=
  mkSolarSystem (planets s) (orbitPaths s) (animationSpeed s) (planetScale s)
    (showOrbits s) (followTarget s) (isPaused s) (saturnRings s) v glows
    (starSphere s) (camera_position s) (controls_target s) (scene s)
    (followPlanet_options s) (loading s) (effects s).

Definition set_starSphere (v : option R) (s : SolarSystem) : SolarSystem :=
  mkSolarSystem (planets s) (orbitPaths s) (animationSpeed s) (planetScale s)
    (showOrbits s) (followTarget s) (isPaused s) (saturnRings s) (sun s)
    (sunGlowEffects s) v (camera_position s) (controls_target s) (scene s)
    (followPlanet_options s) (loading s) (effects s).

Definition set_camera (pos target : Vector3.t) (s : SolarSystem) : SolarSystem :=
  mkSolarSystem (planets s) (orbitPaths s) (animationSpeed s) (planetScale s)
    (showOrbits s) (followTarget s) (isPaused s) (saturnRings s) (sun s)
    (sunGlowEffects s) (starSphere s) pos target (scene s)
    (followPlanet_options s) (loading s) (effects s).

Definition set_scene (v : list SceneNode) (s : SolarSystem) : SolarSystem :=
  mkSolarSystem (planets s) (orbitPaths s) (animationSpeed s) (planetScale s)
    (showOrbits s) (followTarget s) (isPaused s) (saturnRings s) (sun s)
    (sunGlowEffects s) (starSphere s) (camera_position s) (controls_target s) v
    (followPlanet_options s) (loading s) (effects s).

Definition set_followPlanet_options (v : list string) (s : SolarSystem)
  : SolarSystem :=
  mkSolarSystem (planets s) (orbitPaths s) (animationSpeed s) (planetScale s)
    (showOrbits s) (followTarget s) (isPaused s) (saturnRings s) (sun s)
    (sunGlowEffects s) (starSphere s) (camera_position s) (controls_target s)
    (scene s) v (loading s) (effects s).

Definition set_loading (v : list Pending) (s : SolarSystem) : SolarSystem :=
  mkSolarSystem (planets s) (orbitPaths s) (animationSpeed s) (planetScale s)
    (showOrbits s) (followTarget s) (isPaused s) (saturnRings s) (sun s)
    (sunGlowEffects s) (starSphere s) (camera_position s) (controls_target s)
    (scene s) (followPlanet_options s) v (effects s).

Definition perform (e : Effect) (s : SolarSystem) : SolarSystem :=
  mkSolarSystem (planets s) (orbitPaths s) (animationSpeed s) (planetScale s)
    (showOrbits s) (followTarget s) (isPaused s) (saturnRings s) (sun s)
    (sunGlowEffects s) (starSphere s) (camera_position s) (controls_target s)
    (scene s) (followPlanet_options s) (loading s) (effects s ++ [e]).

(** ** Registering bodies: the texture callbacks *)

(** [Math.random] and the other draws made while a callback runs are inputs
    of the model. *)
Record Chance : Type := mkChance {
  random : R;
  swarm : nat -> list R * list R
}.

Definition fallbackColors : list (string * Z) :=
  [ ("Mercury", 0x8C7853%Z); ("Venus", 0xFFC649%Z); ("Earth", 0x6B93D6%Z);
    ("Mars", 0xCD5C5C%Z); ("Jupiter", 0xF4A460%Z); ("Saturn", 0xFAD5A5%Z);
    ("Uranus", 0x4FD0E7%Z); ("Neptune", 0x4169E1%Z) ].

Fixpoint lookup {A : Type} (key : string) (table : list (string * A)) : option A :=
  match table with
  | [] => None
  | (k, v) :: rest => if String.eqb k key then Some v else lookup key rest
  end.

(** The property names that [fallbackColors], an object literal, inherits
    from [Object.prototype]. *)
Definition inheritedKeys : list string :=
  [ "constructor"; "hasOwnProperty"; "isPrototypeOf"; "propertyIsEnumerable";
    "toLocaleString"; "toString"; "valueOf"; "__proto__";
    "__defineGetter__"; "__defineSetter__"; "__lookupGetter__";
    "__lookupSetter__" ].

(** The colour of [new THREE.MeshStandardMaterial({ color:
    fallbackColors[name] || 0x888888 })].  For an inherited name the lookup
    gives a function or an object, which is truthy and which [THREE.Color]
    does not take, so the material keeps its default white. *)
Definition fallbackColor (n : string) : Z :=
  match lookup n fallbackColors with
  | Some c => if Z.eqb c 0 then 0x888888%Z else c
  | None => if existsb (String.eqb n) inheritedKeys then 0xffffff%Z
            else 0x888888%Z
  end.

(** [createOrbitPath(distance)] *)
Definition createOrbitPath (d : R) (s : SolarSystem) : SolarSystem :=
  let i := List.length (orbitPaths s) in
  set_orbitPaths (orbitPaths s ++ [mkOrbitPath d true])
    (set_scene (scene s ++ [OrbitPathNode i]) s).

(** The mesh that a [loadPlanet] callback builds: at [(distance, 0, 0)],
    unrotated, unscaled, with a random starting angle. *)
Definition planetMesh (mat : Material)
           (n : string) (sz d : R) (os rs : R) (planetData : PlanetFacts)
           (geometryRadius : R) (c : Chance) : Mesh :=
  mkMesh (Vector3.mk d 0 0) 0 1 geometryRadius mat
         (mkUserData n d os rs (random c * PI * 2) (Some sz) None
                     (Some planetData)).

(** The body of both callbacks that [loadPlanet] hands to [loader.load];
    they differ in the material only.  [loadPlanet_onLoad] is the success
    callback, [loadPlanet_onError] the failure callback. *)
Definition loadPlanet_register (mat : Material)
           (n : string) (sz d : R) (os rs : R) (planetData : PlanetFacts)
           (geometryRadius : R) (c : Chance) (s : SolarSystem) : SolarSystem :=
  let planet := planetMesh mat n sz d os rs planetData geometryRadius c in
  let i := List.length (planets s) in
  let s := set_scene (scene s ++ [BodyNode i]) s in
  let s := set_planets (planets s ++ [planet]) s in
  let s := if String.eqb n "Saturn"
           then set_saturnRings (Some (createSaturnRings (swarm c))) s
           else s in
  let s := if showOrbits s then createOrbitPath d s else s in
  set_followPlanet_options (followPlanet_options s ++ [n]) s.

Definition loadPlanet_onLoad (n : string) (sz d : R) (path : string) (os rs : R)
           (planetData : PlanetFacts) (geometryRadius : R)
  : Chance -> SolarSystem -> SolarSystem :=
  loadPlanet_register (TextureMap path) n sz d os rs planetData geometryRadius.

Definition loadPlanet_onError (n : string) (sz d : R) (path : string) (os rs : R)
           (planetData : PlanetFacts) (geometryRadius : R)
  : Chance -> SolarSystem -> SolarSystem :=
  loadPlanet_register (FlatColor (fallbackColor n)) n sz d os rs planetData
                      geometryRadius.

(** [loadPlanet(name, size, distance, texturePath, orbitSpeed, rotationSpeed,
    planetData)] itself: it builds the geometry with the current
    [planetScale] and leaves the request with the loader. *)
Definition loadPlanet (n : string) (sz d : R) (path : string) (os rs : R)
           (planetData : PlanetFacts) (s : SolarSystem) : SolarSystem :=
  set_loading
    (loading s ++ [PlanetLoad n sz d path os rs planetData (sz * planetScale s)]) s.

(** The mesh that the success callback of [createMoon] builds. *)
Definition moonMesh (currentScale : R) : Mesh :=
  mkMesh Vector3.zero 0 1 (0.27 * currentScale) (TextureMap "textures/moon.jpg")
         (mkUserData "Moon" 8 0.036 0.0036 0 None (Some "Earth") None).

(** The success callback of [createMoon]. *)
Definition createMoon_onLoad (s : SolarSystem) : SolarSystem :=
  let moon := moonMesh (planetScale s) in
  let i := List.length (planets s) in
  let s := set_scene (scene s ++ [BodyNode i]) s in
  let s := set_planets (planets s ++ [moon]) s in
  set_followPlanet_options (followPlanet_options s ++ ["Moon"]) s.

(** The failure callback of [createMoon]: [console.warn] and nothing else. *)
Definition createMoon_onError (s : SolarSystem) : SolarSystem := s.

Definition createMoon (s : SolarSystem) : SolarSystem :=
  set_loading (loading s ++ [MoonLoad]) s.

(** [createSunGlowEffects] and the two callbacks of [createSun], which end
    in the same state as far as this model goes. *)
Definition createSunGlowEffects : list Glow :=
  [ mkGlow (Some 0.4) 0 0; mkGlow (Some 0.25) 0 0;
    mkGlow (Some 0.15) 0 0; mkGlow (Some 0.05) 0 0 ].

Definition createSun_callback (s : SolarSystem) : SolarSystem :=
  set_sun (Some 0) (Some createSunGlowEffects)
    (set_scene (scene s ++ [SunNode; SunGlowNode 0; SunGlowNode 1;
                            SunGlowNode 2; SunGlowNode 3]) s).

Definition createStarSphere (s : SolarSystem) : SolarSystem :=
  set_starSphere (Some 0) (set_scene (scene s ++ [StarSphereNode]) s).

Definition createProceduralStars (s : SolarSystem) : SolarSystem :=
  set_scene (scene s ++ [ProceduralStarsNode]) s.

(** [planetData] of [loadAllPlanets]. *)
Record PlanetConfig : Type := mkConfig {
  cfg_name : string;
  cfg_size : R;
  cfg_distance : R;
  cfg_texturePath : string;
  cfg_orbitSpeed : R;
  cfg_rotationSpeed : R;
  cfg_data : PlanetFacts
}.

Definition planetData : list PlanetConfig :=
  [ mkConfig "Mercury" 0.38 40 "textures/mercury.jpg" 0.024 0.004
      (mkFacts "57.9 million km" "88 Earth days" "4,879 km" "Terrestrial");
    mkConfig "Venus" 0.95 70 "textures/venus.jpg" 0.015 (-0.002)
      (mkFacts "108.2 million km" "225 Earth days" "12,104 km" "Terrestrial");
    mkConfig "Earth" 1.0 100 "textures/earth.jpg" 0.01 0.01
      (mkFacts "149.6 million km" "365.25 days" "12,756 km" "Terrestrial");
    mkConfig "Mars" 0.53 150 "textures/mars.jpg" 0.008 0.009
      (mkFacts "227.9 million km" "687 Earth days" "6,792 km" "Terrestrial");
    mkConfig "Jupiter" 11.2 250 "textures/jupiter.jpg" 0.002 0.04
      (mkFacts "778.5 million km" "11.86 Earth years" "142,984 km" "Gas Giant");
    mkConfig "Saturn" 9.5 350 "textures/saturn.jpg" 0.0009 0.038
      (mkFacts "1.43 billion km" "29.46 Earth years" "120,536 km" "Gas Giant");
    mkConfig "Uranus" 4.0 450 "textures/uranus.jpg" 0.0004 0.03
      (mkFacts "2.87 billion km" "84 Earth years" "51,118 km" "Ice Giant");
    mkConfig "Neptune" 3.9 550 "textures/neptune.jpg" 0.0001 0.032
      (mkFacts "4.5 billion km" "165 Earth years" "49,528 km" "Ice Giant") ].

(** [loadAllPlanets], up to its [await]: one [loadPlanet] call per entry. *)
Definition loadAllPlanets (s : SolarSystem) : SolarSystem :=
  fold_left
    (fun s p => loadPlanet (cfg_name p) (cfg_size p) (cfg_distance p)
                           (cfg_texturePath p) (cfg_orbitSpeed p)
                           (cfg_rotationSpeed p) (cfg_data p) s)
    planetData s.

(** ** The per-frame callback *)

(** [array[i] = v] for an index inside the array. *)
Fixpoint store {A : Type} (i : nat) (v : A) (l : list A) : list A :=
  match l, i with
  | [], _ => []
  | _ :: rest, O => v :: rest
  | h :: rest, S j => h :: store j v rest
  end.

(** [this.planets.find(p => p.userData.name === n)] *)
Definition find_planet (n : string) (ps : list Mesh) : option Mesh :=
  find (fun p => String.eqb (name (userData p)) n) ps.

Definition parent_is (n : string) (d : UserData) : bool :=
  match parentPlanet d with
  | Some p => String.eqb p n
  | None => false
  end.

(** The orbit branch of the loop body: the moon around Earth, every other
    body but one named Moon around the origin.  [ps] is the array as it is
    when the body is visited. *)
Definition orbit (ps : list Mesh) (animSpeed : R) (planet : Mesh) : Mesh :=
  let data := userData planet in
  if parent_is "Earth" data then
    match find_planet "Earth" ps with
    | Some earth =>
        let a := angle data + orbitSpeed data * animSpeed in
        set_position
          (Vector3.mk (Vector3.x (position earth) + cos a * distance data)
                      (Vector3.y (position earth))
                      (Vector3.z (position earth) + sin a * distance data))
          (set_userData (set_angle a data) planet)
    | None => planet
    end
  else if negb (String.eqb (name data) "Moon") then
    let a := angle data + orbitSpeed data * animSpeed in
    set_position
      (Vector3.mk (cos a * distance data)
                  (Vector3.y (position planet))
                  (sin a * distance data))
      (set_userData (set_angle a data) planet)
  else planet.

(** [planet.rotation.y += data.rotationSpeed * this.animationSpeed] *)
Definition spin (animSpeed : R) (planet : Mesh) : Mesh :=
  set_rotation_y (rotation_y planet + rotationSpeed (userData planet) * animSpeed)
                 planet.

(** The particle loop: [positions[i]] and [positions[i + 2]] advance,
    [i] stepping by 3; both arrays are [Float32Array]s, so each sum is
    stored as a binary32 number. *)
Fixpoint advanceParticles (animSpeed : R) (positions velocities : list R) : list R :=
  match positions, velocities with
  | px :: py :: pz :: ps, vx :: _ :: vz :: vs =>
      fround (px + vx * animSpeed * 0.1) :: py
      :: fround (pz + vz * animSpeed * 0.1)
      :: advanceParticles animSpeed ps vs
  | _, _ => positions
  end.

(** A number used as a condition: [undefined] and [0] are falsy. *)
Definition truthy (v : option R) : option R :=
  match v with
  | Some r => if Req_dec_T r 0 then None else Some r
  | None => None
  end.

(** [Math.sin(t + ring.userData.index) * k + b]; [NaN] without an index. *)
Definition pulse (t : R) (i : option nat) (k b : R) : option R :=
  match i with
  | Some n => Some (sin (t + INR n) * k + b)
  | None => None
  end.

Definition times (a b : option R) : option R :=
  match a, b with
  | Some u, Some v => Some (u * v)
  | _, _ => None
  end.

(** The body of [this.saturnRings.forEach]. *)
Definition ring_step (now animSpeed : R) (ring : RingObject) : RingObject :=
  let ud := ring_userData ring in
  match truthy (ring_rotationSpeed ud) with
  | None => ring
  | Some rs =>
      match object_type ring with
      | PointsType =>
          mkRing PointsType (ring_rotation_y ring + rs * animSpeed)
                 (ring_rotation_z ring) (material_opacity ring) ud
                 (if isParticleSystem ud
                  then advanceParticles animSpeed (geometry_position ring)
                                        (geometry_velocity ring)
                  else geometry_position ring)
                 (geometry_velocity ring)
      | MeshType =>
          if isGlow ud then
            mkRing MeshType (ring_rotation_y ring)
                   (ring_rotation_z ring + rs * animSpeed)
                   (times (material_opacity ring)
                          (pulse (now * 0.001) (index ud) 0.05 0.95))
                   ud (geometry_position ring) (geometry_velocity ring)
          else
            mkRing MeshType (ring_rotation_y ring)
                   (ring_rotation_z ring + rs * animSpeed)
                   (match segment ud with
                    | Some seg => times (Some (opacity seg))
                                        (pulse (now * 0.0005) (index ud) 0.1 0.9)
                    | None => material_opacity ring
                    end)
                   ud (geometry_position ring) (geometry_velocity ring)
      end
  end.

(** One visit of [this.planets.forEach]: body [i] is read from the array,
    moved, spun and written back; when it is named Saturn and the rings
    exist, every ring object takes a step. *)
Definition visit (now animSpeed : R) (st : list Mesh * option (list RingObject))
           (i : nat) : list Mesh * option (list RingObject) :=
  let '(ps, rings) := st in
  match nth_error ps i with
  | None => st
  | Some planet =>
      let planet' := spin animSpeed (orbit ps animSpeed planet) in
      (store i planet' ps,
       if String.eqb (name (userData planet)) "Saturn"
       then option_map (map (ring_step now animSpeed)) rings
       else rings)
  end.

(** The visits of the indices [idxs], in that order. *)
Definition visits (now animSpeed : R) (idxs : list nat)
           (st : list Mesh * option (list RingObject))
  : list Mesh * option (list RingObject) :=
  fold_left (visit now animSpeed) idxs st.

(** [this.planets.forEach(planet => ...)] *)
Definition planets_forEach (now animSpeed : R) (ps : list Mesh)
           (rings : option (list RingObject))
  : list Mesh * option (list RingObject) :=
  visits now animSpeed (seq 0 (List.length ps)) (ps, rings).

(** The body of [this.sunGlowEffects.forEach((glow, index) => ...)]. *)
Definition glow_step (time animSpeed : R) (i : nat) (glow : Glow) : Glow :=
  let pulseSpeed := 0.5 + INR i * 0.2 in
  let p := sin (time * pulseSpeed) * 0.1 + 0.9 in
  mkGlow (option_map (fun baseOpacity => baseOpacity * p)
                     (nth_error [0.4; 0.25; 0.15; 0.05] i))
         (glow_rotation_x glow + (0.0005 + INR i * 0.0002) * animSpeed)
         (glow_rotation_y glow + (0.001 + INR i * 0.0005) * animSpeed).

Fixpoint glows_forEach (time animSpeed : R) (i : nat) (glows : list Glow) : list Glow :=
  match glows with
  | [] => []
  | g :: rest => glow_step time animSpeed i g :: glows_forEach time animSpeed (S i) rest
  end.

(** The camera-follow block: [this.camera.position.lerp(target.position
    .clone().add(offset), 0.05)] and [this.controls.target.copy(...)]. *)
Definition followOffset : Vector3.t := Vector3.mk 50 30 50.

Definition follow (target : Vector3.t) (camera : Vector3.t) : Vector3.t :=
  Vector3.lerp camera (Vector3.add target followOffset) 0.05.

(** [animate()].  [now] is the reading of [Date.now()] for this frame.
    [this.controls.update()] is recorded as an effect and moves the camera
    as [OrbitControls.update] says, from the target that the follow block
    has just copied. *)
Definition animate (now : R) (s0 : SolarSystem) : SolarSystem :=
  let s := perform RequestAnimationFrame s0 in
  if isPaused s then s
  else
    let v := animationSpeed s in
    let '(ps, rings) := planets_forEach now v (planets s) (saturnRings s) in
    let sun' := option_map (fun r => r + 0.005 * v) (sun s) in
    let glows' := match sun s with
                  | Some _ => option_map (glows_forEach (now * 0.001) v 0)
                                         (sunGlowEffects s)
                  | None => sunGlowEffects s
                  end in
    let star' := option_map (fun r => r + 0.0001 * v) (starSphere s) in
    let target := match followTarget s with
                  | Some i => nth_error ps i
                  | None => None
                  end in
    let lerped := match target with
                  | Some body => follow (position body) (camera_position s)
                  | None => camera_position s
                  end in
    let controls' := match target with
                     | Some body => position body
                     | None => controls_target s
                     end in
    let camera' := OrbitControls.update controls' lerped in
    perform Render
      (perform ControlsUpdate
         (mkSolarSystem ps (orbitPaths s) v (planetScale s) (showOrbits s)
            (followTarget s) (isPaused s) rings sun' glows' star'
            camera' controls' (scene s) (followPlanet_options s)
            (loading s) (effects s))).

(** ** Input handlers, pause and resume *)

(** The [input] handler of the speed slider.  [value] is what
    [parseFloat(e.target.value)] returned. *)
Definition speedSlider_input (value : R) (s : SolarSystem) : SolarSystem :=
  set_animationSpeed value s.

(** The [input] handler of the scale slider. *)
Definition scaleSlider_input (newScale : R) (s : SolarSystem) : SolarSystem :=
  let scaleFactor := newScale / planetScale s in
  set_planets (map (fun p => set_scale (scaleFactor * scale p) p) (planets s))
              (set_planetScale newScale s).

Definition showOrbits_change (checked : bool) (s : SolarSystem) : SolarSystem :=
  set_orbitPaths (map (fun o => mkOrbitPath (path_distance o) checked) (orbitPaths s))
                 (set_showOrbits checked s).

(** The index of the object that [find_planet] returns. *)
Fixpoint find_index (n : string) (ps : list Mesh) : option nat :=
  match ps with
  | [] => None
  | p :: rest =>
      if String.eqb (name (userData p)) n then Some O
      else option_map S (find_index n rest)
  end.

Definition followPlanet_change (planetName : string) (s : SolarSystem) : SolarSystem :=
  set_followTarget
    (if String.eqb planetName "" then None else find_index planetName (planets s)) s.

(** The [mobileTap] handler; [hit] is the first body the ray meets. *)
Definition mobileTap (hit : option nat) (s : SolarSystem) : SolarSystem :=
  match hit with
  | Some i => match nth_error (planets s) i with
              | Some _ => set_followTarget (Some i) s
              | None => s
              end
  | None => s
  end.

(** The [pinchZoom] handler: [this.camera.position.multiplyScalar(1 /
    zoomFactor)], then [this.controls.update()]. *)
Definition pinchZoom (zoomFactor : R) (s : SolarSystem) : SolarSystem :=
  perform ControlsUpdate
    (set_camera
       (OrbitControls.update
          (controls_target s)
          (Vector3.multiplyScalar (camera_position s) (1 / zoomFactor)))
       (controls_target s) s).

Definition pause (s : SolarSystem) : SolarSystem := set_isPaused true s.

Definition resume (s : SolarSystem) : SolarSystem := set_isPaused false s.

(** ** Start-up and the event loop *)

(** The state when the constructor has set its fields and [init] has set
    the camera and the lights. *)
Definition constructed : SolarSystem :=
  mkSolarSystem [] [] 1.0 3.0 true None false None None None None
    (Vector3.mk 0 100 300) Vector3.zero
    [LightNode "ambientLight"; LightNode "sunLight";
     LightNode "sunPointLight"; LightNode "sunGlowLight"]
    [] [] [].

Definition createStarField (s : SolarSystem) : SolarSystem :=
  set_loading (loading s ++ [Stars8KLoad]) s.

Definition createSun (s : SolarSystem) : SolarSystem :=
  set_loading (loading s ++ [SunLoad]) s.

(** [init()]: the requests leave in source order and the first frame runs
    before any of them resolves. *)
Definition init (now : R) : SolarSystem :=
  animate now (createMoon (loadAllPlanets (createSun (createStarField constructed)))).

(** What the host can deliver afterwards. *)
Inductive Event : Type :=
| TextureLoaded (path : string) (c : Chance)
| TextureFailed (path : string) (c : Chance)
| AnimationFrame (now : R)
| SpeedInput (value : R)
| ScaleInput (value : R)
| ShowOrbitsChange (checked : bool)
| FollowPlanetChange (planetName : string)
| MobileTap (hit : option nat)
| PinchZoom (zoomFactor : R)
| Hidden
| Shown.

(** The loader calls back once per request: the request leaves [loading]. *)
Fixpoint take (path : string) (l : list Pending) : option (Pending * list Pending) :=
  match l with
  | [] => None
  | p :: rest =>
      if String.eqb (texturePath p) path then Some (p, rest)
      else match take path rest with
           | Some (q, rest') => Some (q, p :: rest')
           | None => None
           end
  end.

Definition onLoad (p : Pending) (c : Chance) (s : SolarSystem) : SolarSystem :=
  match p with
  | Stars8KLoad | Stars2KLoad => createStarSphere s
  | SunLoad => createSun_callback s
  | PlanetLoad n sz d path os rs pd gr => loadPlanet_onLoad n sz d path os rs pd gr c s
  | MoonLoad => createMoon_onLoad s
  end.

Definition onError (p : Pending) (c : Chance) (s : SolarSystem) : SolarSystem :=
  match p with
  | Stars8KLoad => set_loading (loading s ++ [Stars2KLoad]) s
  | Stars2KLoad => createProceduralStars s
  | SunLoad => createSun_callback s
  | PlanetLoad n sz d path os rs pd gr => loadPlanet_onError n sz d path os rs pd gr c s
  | MoonLoad => createMoon_onError s
  end.

Definition handle (s : SolarSystem) (e : Event) : SolarSystem :=
  match e with
  | TextureLoaded path c =>
      match take path (loading s) with
      | Some (p, rest) => onLoad p c (set_loading rest s)
      | None => s
      end
  | TextureFailed path c =>
      match take path (loading s) with
      | Some (p, rest) => onError p c (set_loading rest s)
      | None => s
      end
  | AnimationFrame now => animate now s
  | SpeedInput value => speedSlider_input value s
  | ScaleInput value => scaleSlider_input value s
  | ShowOrbitsChange checked => showOrbits_change checked s
  | FollowPlanetChange planetName => followPlanet_change planetName s
  | MobileTap hit => mobileTap hit s
  | PinchZoom zoomFactor => pinchZoom zoomFactor s
  | Hidden => pause s
  | Shown => resume s
  end.

Definition run (events : list Event) (s : SolarSystem) : SolarSystem :=
  fold_left handle events s.

(** [Math.random()] lies in [[0, 1)]. *)
Definition possible (e : Event) : Prop :=
  match e with
  | TextureLoaded _ c | TextureFailed _ c => 0 <= random c < 1
  | _ => True
  end.

(** The states the running program can be in. *)
Definition reachable (s : SolarSystem) : Prop :=
  exists (now : R) (events : list Event),
    Forall possible events /\ s = run events (init now).

(** [n] frames in a row, with the clock readings [nows]. *)
Definition frames (nows : list R) (s : SolarSystem) : SolarSystem :=
  fold_left (fun s now => animate now s) nows s.

(** ** Notions used by the statements *)

(** Everything in [userData] but the angle. *)
Definition identity (p : Mesh) : UserData := set_angle 0 (userData p).

(** The identifiers in the registry. *)
Definition names (ps : list Mesh) : list string :=
  map (fun p => name (userData p)) ps.

(** The identifier of the body that a pending request will register. *)
Definition pending_name (p : Pending) : list string :=
  match p with
  | PlanetLoad n _ _ _ _ _ _ _ => [n]
  | MoonLoad => ["Moon"]
  | _ => []
  end.

(** The identifiers registered or still with the loader. *)
Definition known_names (s : SolarSystem) : list string :=
  names (planets s) ++ flat_map pending_name (loading s).

(** The bodies a resolved request brings into the registry. *)
Definition born (loaded : bool) (p : Pending) (c : Chance) (currentScale : R)
  : list Mesh :=
  match p with
  | PlanetLoad n sz d path os rs pd gr =>
      [planetMesh (if loaded then TextureMap path else FlatColor (fallbackColor n))
                  n sz d os rs pd gr c]
  | MoonLoad => if loaded then [moonMesh currentScale] else []
  | _ => []
  end.

(** The bodies that take the second branch of the loop body. *)
Definition star_orbiting (p : Mesh) : Prop :=
  parent_is "Earth" (userData p) = false /\ name (userData p) <> "Moon".

(** The loop body for such a body: no other body is read. *)
Definition star_step (v : R) (p : Mesh) : Mesh := spin v (orbit [] v p).

(** Every body lies in the orbital plane. *)
Definition grounded (ps : list Mesh) : Prop :=
  Forall (fun p => Vector3.y (position p) = 0) ps.

(** The moon's own orbit offset: [(cos angle * distance, 0, sin angle * distance)]. *)
Definition orbitOffset (p : Mesh) : Vector3.t :=
  Vector3.mk (cos (angle (userData p)) * distance (userData p))
             0
             (sin (angle (userData p)) * distance (userData p)).

(** The position rule of the loop body, read as a property of a body in
    the registry [ps]: the body is where the rule puts it for its stored
    angle. *)
Definition on_orbit (ps : list Mesh) (p : Mesh) : Prop :=
  let data := userData p in
  if parent_is "Earth" data then
    match find_planet "Earth" ps with
    | Some earth =>
        position p =
        Vector3.mk (Vector3.x (position earth) + cos (angle data) * distance data)
                   (Vector3.y (position earth))
                   (Vector3.z (position earth) + sin (angle data) * distance data)
    | None => True
    end
  else if negb (String.eqb (name data) "Moon") then
    Vector3.x (position p) = cos (angle data) * distance data
    /\ Vector3.z (position p) = sin (angle data) * distance data
  else True.

Definition settled (ps : list Mesh) : Prop := Forall (on_orbit ps) ps.

(** The orbital angle and the spin of a body. *)
Definition phase_and_spin (p : Mesh) : R * R := (angle (userData p), rotation_y p).

(** The number of [render] calls among the effects. *)
Definition renders (l : list Effect) : nat :=
  List.length (filter (fun e => match e with Render => true | _ => false end) l).

(** Body [i] is at [p] and stays there, whatever frames follow. *)
Definition stationary (s : SolarSystem) (i : nat) (p : Vector3.t) : Prop :=
  forall nows body,
    nth_error (planets (frames nows s)) i = Some body -> position body = p.

(** What a ring object is, as opposed to how far it has turned: its type
    and its [userData]. *)
Definition ring_shape (r : RingObject) : ObjectType * RingUserData :=
  (object_type r, ring_userData r).

(** The ring assembly is the one [createSaturnRings] builds, and its planet
    is in the registry. *)
Definition rings_built (s : SolarSystem) : Prop :=
  forall rings,
    saturnRings s = Some rings ->
    map ring_shape rings = map ring_shape (createSaturnRings (fun _ => ([], [])))
    /\ In "Saturn" (names (planets s)).

(** The colours of the eight planets when their texture fails, in the
    order of [planetData]. *)
Definition documentedFallback : list Z :=
  [0x8C7853%Z; 0xFFC649%Z; 0x6B93D6%Z; 0xCD5C5C%Z;
   0xF4A460%Z; 0xFAD5A5%Z; 0x4FD0E7%Z; 0x4169E1%Z].

(** The angle update [data.angle += data.orbitSpeed * this.animationSpeed]
    on IEEE 754 binary64 numbers, the numbers JavaScript computes with. *)
Definition phase_step64 (orbitSpeed animationSpeed angle : PrimFloat.float)
  : PrimFloat.float :=
  PrimFloat.add angle (PrimFloat.mul orbitSpeed animationSpeed).

(** The binary64 number that the literal [0.01] denotes. *)
Definition hundredth64 : PrimFloat.float := 0x1.47ae147ae147bp-7%float.

(** ** Concrete runs *)

(** [Math.random()] returns 0 and the particle arrays are empty. *)
Definition no_chance : Chance := mkChance 0 (fun _ => ([], [])).

(** Earth's texture has arrived. *)
Definition earth_loaded : SolarSystem :=
  run [TextureLoaded "textures/earth.jpg" no_chance] (init 0).

(** The mesh that [earth_loaded] holds. *)
Definition earthMesh : Mesh :=
  planetMesh (TextureMap "textures/earth.jpg") "Earth" 1.0 100 0.01 0.01
    (mkFacts "149.6 million km" "365.25 days" "12,756 km" "Terrestrial")
    (1.0 * 3.0) no_chance.

(** The moon's texture arrives before Earth's, so the moon is registered
    first. *)
Definition moon_first : SolarSystem :=
  run [TextureLoaded "textures/moon.jpg" no_chance;
       TextureLoaded "textures/earth.jpg" no_chance] (init 0).

(** The speed slider is at 0 when Earth's texture arrives; [Math.random()]
    returns one half, so Earth starts at angle [PI], away from the place
    [(distance, 0, 0)] where [loadPlanet] puts it. *)
Definition half_turn : SolarSystem :=
  run [SpeedInput 0;
       TextureLoaded "textures/earth.jpg" (mkChance (1 / 2) (fun _ => ([], [])))]
      (init 0).

(** The same with [Math.random()] returning 0: Earth starts where its angle
    says. *)
Definition still_earth : SolarSystem :=
  run [SpeedInput 0; TextureLoaded "textures/earth.jpg" no_chance] (init 0).

(** The tab has been hidden: [pause()] has run. *)
Definition hidden_tab : SolarSystem := run [Hidden] (init 0).

(** Earth at rest (speed 0) and selected in the follow list. *)
Definition following_earth : SolarSystem :=
  run [SpeedInput 0; TextureLoaded "textures/earth.jpg" no_chance;
       FollowPlanetChange "Earth"] (init 0).

(** The speed slider is at 0, a pinch with scale 0.16 has taken the camera
    from [(0, 100, 300)] to [(0, 625, 1875)], Neptune's texture has arrived
    with [Math.random()] returning three quarters, so that Neptune's angle
    is [3 * PI / 2], a frame has put Neptune at [(0, 0, -550)], and Neptune
    is selected in the follow list. *)
Definition far_neptune : SolarSystem :=
  run [SpeedInput 0; PinchZoom 0.16;
       TextureLoaded "textures/neptune.jpg" (mkChance (3 / 4) (fun _ => ([], [])));
       AnimationFrame 0;
       FollowPlanetChange "Neptune"]
      (init 0).

(** The mesh that [far_neptune] holds. *)
Definition neptuneMesh : Mesh :=
  star_step 0
    (planetMesh (TextureMap "textures/neptune.jpg") "Neptune" 3.9 550 0.0001 0.032
       (mkFacts "4.5 billion km" "165 Earth years" "49,528 km" "Ice Giant")
       (3.9 * 3.0) (mkChance (3 / 4) (fun _ => ([], [])))).

(** A registry holding one body, named Saturn, that spins backwards, with
    the ring assembly that its registration builds. *)
Definition retrograde_saturn : SolarSystem :=
  loadPlanet_onLoad "Saturn" 9.5 350 "textures/saturn.jpg" 0.0009 (-0.038)
    (mkFacts "1.43 billion km" "29.46 Earth years" "120,536 km" "Gas Giant")
    (9.5 * 3.0) no_chance constructed.

(** The mesh that [retrograde_saturn] holds. *)
Definition saturnMesh : Mesh :=
  planetMesh (TextureMap "textures/saturn.jpg") "Saturn" 9.5 350 0.0009 (-0.038)
    (mkFacts "1.43 billion km" "29.46 Earth years" "120,536 km" "Gas Giant")
    (9.5 * 3.0) no_chance.

(** The B ring, third entry of [ringSegments]. *)
Definition ringB : Segment := mkSegment 20 25 0.004 0.95 0.5 0xf5f5f5.

(** [loadPlanet] called for Earth a second time, and its texture arriving. *)
Definition earth_twice : SolarSystem :=
  loadPlanet_onLoad "Earth" 1.0 100 "textures/earth.jpg" 0.01 0.01
    (mkFacts "149.6 million km" "365.25 days" "12,756 km" "Terrestrial")
    (1.0 * 3.0) no_chance earth_loaded.

(** Earth loaded with angle 0, then a thousand frames at speed 1. *)
Definition long_session : SolarSystem := frames (repeat 16 1000%nat) earth_loaded.

(** ** More of [animate]: notions used by the further statements *)

(** What a frame can move: bodies, rings, sun, star field and camera. *)
Definition kinematic_state (s : SolarSystem)
  : list Mesh * option (list RingObject) * option R * option (list Glow)
    * option R * Vector3.t * Vector3.t :=
  (planets s, saturnRings s, sun s, sunGlowEffects s, starSphere s,
   camera_position s, controls_target s).

(** Earth's texture arrives, then the moon's. *)
Definition earth_then_moon : SolarSystem :=
  run [TextureLoaded "textures/earth.jpg" no_chance;
       TextureLoaded "textures/moon.jpg" no_chance] (init 0).

(** The moon's texture has arrived, Earth's has not. *)
Definition moon_alone : SolarSystem :=
  run [TextureLoaded "textures/moon.jpg" no_chance] (init 0).

(** The indices of the bodies, and of the orbit paths, among the children
    of the scene, in scene order. *)
Definition body_nodes (nodes : list SceneNode) : list nat :=
  flat_map (fun n => match n with BodyNode i => [i] | _ => [] end) nodes.

Definition path_nodes (nodes : list SceneNode) : list nat :=
  flat_map (fun n => match n with OrbitPathNode i => [i] | _ => [] end) nodes.

(** The tab is hidden, [n] frames arrive, the tab is shown again. *)
Definition hidden_for (nows : list R) (s : SolarSystem) : SolarSystem :=
  resume (frames nows (pause s)).

(** Earth is loaded and selected in the follow list, at the default speed. *)
Definition tracking_earth : SolarSystem :=
  run [TextureLoaded "textures/earth.jpg" no_chance;
       FollowPlanetChange "Earth"] (init 0).

(** The orbit checkbox is cleared, Mars' texture arrives, the checkbox is
    set again. *)
Definition mars_without_path : SolarSystem :=
  run [TextureLoaded "textures/earth.jpg" no_chance;
       ShowOrbitsChange false;
       TextureLoaded "textures/mars.jpg" no_chance;
       ShowOrbitsChange true] (init 0).

(** The scene children and the orbit paths that a resolved request adds;
    [i] and [j] are the lengths of the registry and of [orbitPaths] before,
    [shown] is [this.showOrbits]. *)
Definition born_nodes (loaded : bool) (p : Pending) (shown : bool) (i j : nat)
  : list SceneNode :=
  match p with
  | Stars8KLoad => if loaded then [StarSphereNode] else []
  | Stars2KLoad => if loaded then [StarSphereNode] else [ProceduralStarsNode]
  | SunLoad => [SunNode; SunGlowNode 0; SunGlowNode 1; SunGlowNode 2; SunGlowNode 3]
  | PlanetLoad _ _ _ _ _ _ _ _ =>
      BodyNode i :: (if shown then [OrbitPathNode j] else [])
  | MoonLoad => if loaded then [BodyNode i] else []
  end.

Definition born_paths (p : Pending) (shown : bool) : list OrbitPath :=
  match p with
  | PlanetLoad _ _ d _ _ _ _ _ => if shown then [mkOrbitPath d true] else []
  | _ => []
  end.

(** The texture requests for the star backdrop that are still with the
    loader, and the backdrops in the scene. *)
Definition star_requests (l : list Pending) : nat :=
  List.length
    (filter (fun p => match p with
                      | Stars8KLoad | Stars2KLoad => true
                      | _ => false
                      end) l).

Definition backdrops (nodes : list SceneNode) : nat :=
  List.length
    (filter (fun n => match n with
                      | StarSphereNode | ProceduralStarsNode => true
                      | _ => false
                      end) nodes).

(** The callback that the loader runs for a request: the success callback
    when the texture has [loaded], the failure callback otherwise. *)
Definition texture_event (loaded : bool) (path : string) (c : Chance) : Event :=
  if loaded then TextureLoaded path c else TextureFailed path c.

(** Both star textures fail. *)
Definition no_star_texture : SolarSystem :=
  run [TextureFailed "textures/stars_milky_way_8k.jpg" no_chance;
       TextureFailed "textures/stars_milky_way.jpg" no_chance] (init 0).

(** The orbit checkbox is cleared before any texture has arrived. *)
Definition orbits_hidden : SolarSystem := run [ShowOrbitsChange false] (init 0).

(** Saturn's texture has arrived: the ring assembly exists. *)
Definition saturn_loaded : SolarSystem :=
  run [TextureLoaded "textures/saturn.jpg" no_chance] (init 0).

(** Layer [i] of the sun's glow has an opacity between eight tenths of its
    base opacity and its base opacity. *)
Definition glow_in_range (i : nat) (g : Glow) : Prop :=
  exists base o,
    nth_error [0.4; 0.25; 0.15; 0.05] i = Some base
    /\ glow_opacity g = Some o
    /\ 0.8 * base <= o <= base.

(** The sun's texture has arrived. *)
Definition sun_loaded : SolarSystem :=
  run [TextureLoaded "textures/sun.jpg" no_chance] (init 0).

(** ** The registry and the catalogue *)

(** What registration gives a body and no later event changes: the radius
    of its geometry, its material, and its [userData] but the angle. *)
Definition appearance (p : Mesh) : R * Material * UserData :=
  (radius p, material p, identity p).

(** The request that [loadAllPlanets] leaves with the loader for an entry
    of [planetData]: the geometry is built when [loadPlanet] is called, at
    start-up, with the initial [planetScale] of 3. *)
Definition pending_entry (cfg : PlanetConfig) : Pending :=
  PlanetLoad (cfg_name cfg) (cfg_size cfg) (cfg_distance cfg)
             (cfg_texturePath cfg) (cfg_orbitSpeed cfg) (cfg_rotationSpeed cfg)
             (cfg_data cfg) (cfg_size cfg * 3.0).

(** The appearance of the body that an entry of [planetData] becomes when
    its texture has [loaded] or has failed. *)
Definition catalogue_entry (cfg : PlanetConfig) (loaded : bool)
  : R * Material * UserData :=
  (cfg_size cfg * 3.0,
   if loaded then TextureMap (cfg_texturePath cfg)
   else FlatColor (fallbackColor (cfg_name cfg)),
   mkUserData (cfg_name cfg) (cfg_distance cfg) (cfg_orbitSpeed cfg)
              (cfg_rotationSpeed cfg) 0 (Some (cfg_size cfg)) None
              (Some (cfg_data cfg))).

(** A body is one of the eight planets of [planetData] or the moon, built
    at some value [k] of [planetScale]. *)
Definition catalogue_appearance (a : R * Material * UserData) : Prop :=
  (exists cfg loaded, In cfg planetData /\ a = catalogue_entry cfg loaded)
  \/ (exists k, a = appearance (moonMesh k)).

Definition catalogued (body : Mesh) : Prop := catalogue_appearance (appearance body).

(** A pending request for a planet is one that [loadAllPlanets] made. *)
Definition pending_catalogued (p : Pending) : Prop :=
  match p with
  | PlanetLoad _ _ _ _ _ _ _ _ => exists cfg, In cfg planetData /\ p = pending_entry cfg
  | _ => True
  end.

(** [value || 'Unknown'] for a text that may be missing. *)
Definition orUnknown (v : option string) : string :=
  match v with
  | Some t => if String.eqb t "" then "Unknown" else t
  | None => "Unknown"
  end.

(** The text contents that [showPlanetInfo] writes, in source order:
    [planetName], [planetDistance], [planetPeriod], [planetDiameter],
    [planetType]. *)
Record InfoPanel : Type := mkInfoPanel {
  planetName_text : string;
  planetDistance_text : string;
  planetPeriod_text : string;
  planetDiameter_text : string;
  planetType_text : string
}.

Definition showPlanetInfo (planet : Mesh) : InfoPanel :=
  let data := userData planet in
  mkInfoPanel (name data)
              (orUnknown (option_map realDistance (facts data)))
              (orUnknown (option_map period (facts data)))
              (orUnknown (option_map diameter (facts data)))
              (orUnknown (option_map type (facts data))).

(** Every texture request has resolved, the moon's and Venus' by failing. *)
Definition all_resolved : SolarSystem :=
  run [TextureLoaded "textures/earth.jpg" no_chance;
       TextureFailed "textures/moon.jpg" no_chance;
       TextureLoaded "textures/sun.jpg" no_chance;
       TextureLoaded "textures/stars_milky_way_8k.jpg" no_chance;
       TextureLoaded "textures/mercury.jpg" no_chance;
       TextureFailed "textures/venus.jpg" no_chance;
       TextureLoaded "textures/mars.jpg" no_chance;
       TextureLoaded "textures/jupiter.jpg" no_chance;
       TextureLoaded "textures/saturn.jpg" no_chance;
       TextureLoaded "textures/uranus.jpg" no_chance;
       TextureLoaded "textures/neptune.jpg" no_chance] (init 0).

(** ** The scale slider *)

(** No scale input of the run is 0. *)
Definition scale_inputs_nonzero (events : list Event) : Prop :=
  Forall (fun e => match e with ScaleInput v => v <> 0 | _ => True end) events.

(** What the scale slider and registration decide about a body: its
    appearance and its [scale]. *)
Definition proportions (p : Mesh) : R * Material * UserData * R :=
  (appearance p, scale p).

(** A body that is the moon is drawn at [0.27] times the scale [k]:
    [radius * scale = 0.27 * k]. *)
Definition moon_in_proportion (k : R) (a : R * Material * UserData * R) : Prop :=
  name (snd (fst a)) = "Moon" -> fst (fst (fst a)) * snd a = 0.27 * k.

(** The scale slider moves to 2, the moon's texture arrives, the slider
    moves to 5. *)
Definition rescaled_moon : SolarSystem :=
  run [ScaleInput 2; TextureLoaded "textures/moon.jpg" no_chance; ScaleInput 5]
      (init 0).

(** ** Touch gestures ([mobile-optimizations.js]) *)

(** A touch point. *)
Record Touch : Type := mkTouch {
  clientX : R;
  clientY : R
}.

(** The variables that the listeners of [addTouchGestures] close over. *)
Record Gestures : Type := mkGestures {
  lastTouchDistance : R;
  touchStartTime : R;
  touchStartPosition : R * R
}.


(** [Math.sqrt(dx * dx + dy * dy)] for two touch points. *)
Definition touchDistance (a b : Touch) : R :=
  let dx := clientX a - clientX b in
  let dy := clientY a - clientY b in
  sqrt (dx * dx + dy * dy).



(** The [touchend] listener: the [x] and [y] of the [mobileTap] event it
    dispatches, if it dispatches one. *)
Definition touchend (now : R) (changedTouches : list Touch) (g : Gestures)
  : option (R * R) :=
  if Rlt_dec (now - touchStartTime g) 200 then
    match changedTouches with
    | [t] => Some (clientX t, clientY t)
    | _ => None
    end
  else None.



(** The finger distance of a pair of touch points. *)
Definition spread (m : Touch * Touch) : R := touchDistance (fst m) (snd m).

(** ** The spaceships ([SpaceshipSystem]) *)

Record SpaceshipConfig : Type := mkSpaceshipConfig {
  config_name : string;
  config_orbitRadius : R;
  config_orbitSpeed : R;
  config_size : R;
  config_color : Z;
  config_angle : R
}.

(** [this.spaceshipConfigs] *)
Definition spaceshipConfigs : list SpaceshipConfig :=
  [ mkSpaceshipConfig "Explorer-1" 80 0.015 4.0 0x4a9eff 0;
    mkSpaceshipConfig "Voyager-2" 200 0.008 6.0 0x74b9ff PI;
    mkSpaceshipConfig "Deep-Space-1" 400 0.004 8.0 0xa29bfe (PI / 2) ].

(** A child mesh of a spaceship group: the colour and the opacity of its
    material, and its scale. *)
Record Part : Type := mkPart {
  part_color : Z;
  part_opacity : R;
  part_scale : Vector3.t
}.

(** [scale.setScalar(k)] *)
Definition setScalar (k : R) : Vector3.t := Vector3.mk k k k.

(** A spaceship: the fields of [userData] that [update] reads or writes,
    and the position of the group.  The orientation, which [update] asks
    three.js' [lookAt] for, is not part of the record. *)
Record Spaceship : Type := mkSpaceship {
  ship_name : string;
  ship_orbitRadius : R;
  ship_orbitSpeed : R;
  ship_angle : R;
  navLights : list Part;
  engineGlows : list Part;
  ship_position : Vector3.t
}.

(** The children of the group in the order [createSpaceshipModel] adds
    them: hull, cockpit, two engines each followed by its glow, two wings,
    four navigation lights. *)
Definition spaceship_children (config : SpaceshipConfig) : list Part :=
  let one := setScalar 1 in
  [ mkPart (config_color config) 1 one;
    mkPart 0x87ceeb 0.8 (Vector3.mk 0.8 0.8 1.2);
    mkPart 0x555555 1 one; mkPart 0x00ffff 0.6 one;
    mkPart 0x555555 1 one; mkPart 0x00ffff 0.6 one;
    mkPart (config_color config) 1 one; mkPart (config_color config) 1 one;
    mkPart 0xff0000 0.9 one; mkPart 0x00ff00 0.9 one;
    mkPart 0xffffff 0.9 one; mkPart 0xffffff 0.9 one ].

Definition createSpaceshipModel (config : SpaceshipConfig) : Spaceship :=
  let children := spaceship_children config in
  mkSpaceship (config_name config) (config_orbitRadius config)
    (config_orbitSpeed config) (config_angle config)
    (filter (fun child => Z.eqb (part_color child) 0xff0000
                          || Z.eqb (part_color child) 0x00ff00
                          || Z.eqb (part_color child) 0xffffff) children)
    (filter (fun child => Z.eqb (part_color child) 0x00ffff) children)
    (Vector3.mk (cos (config_angle config) * config_orbitRadius config)
                (sin (config_angle config * 2) * 5)
                (sin (config_angle config) * config_orbitRadius config)).

(** The fields of a [SpaceshipSystem] that [update] reads or writes. *)
Record SpaceshipSystem : Type := mkSpaceshipSystem {
  spaceships : list Spaceship;
  spaceship_animationSpeed : R
}.

(** [data.navLights.forEach((light, index) => ...)] *)
Fixpoint navLights_forEach (time : R) (index : nat) (lights : list Part)
  : list Part :=
  match lights with
  | [] => []
  | light :: rest =>
      let blinkSpeed := 0.5 + INR index * 0.3 in
      mkPart (part_color light) (0.5 + sin (time * blinkSpeed) * 0.4)
             (part_scale light)
      :: navLights_forEach time (S index) rest
  end.

(** The body of [this.spaceships.forEach] in [update]; [now] is
    [Date.now()]. *)
Definition update_spaceship (animationSpeed now : R) (spaceship : Spaceship)
  : Spaceship :=
  let a := ship_angle spaceship + ship_orbitSpeed spaceship * animationSpeed in
  let x := cos a * ship_orbitRadius spaceship in
  let z := sin a * ship_orbitRadius spaceship in
  let y := sin (a * 3) * 8 + cos (a * 1.5) * 3 in
  let time := now * 0.003 in
  mkSpaceship (ship_name spaceship) (ship_orbitRadius spaceship)
    (ship_orbitSpeed spaceship) a
    (navLights_forEach time 0 (navLights spaceship))
    (map (fun glow =>
            let pulse := 0.4 + sin (time * 4) * 0.2 in
            mkPart (part_color glow) pulse (setScalar (0.8 + pulse * 0.4)))
         (engineGlows spaceship))
    (Vector3.mk x y z).

(** [update(animationSpeed)] *)
Definition update (animationSpeed now : R) (system : SpaceshipSystem)
  : SpaceshipSystem :=
  mkSpaceshipSystem
    (map (update_spaceship animationSpeed now) (spaceships system))
    animationSpeed.

(** A spaceship is on its course: on the cylinder of its orbit radius,
    within 11 of the orbital plane, its lights within their ranges. *)
Definition on_course (spaceship : Spaceship) : Prop :=
  let p := ship_position spaceship in
  Vector3.x p * Vector3.x p + Vector3.z p * Vector3.z p
  = ship_orbitRadius spaceship * ship_orbitRadius spaceship
  /\ -11 <= Vector3.y p <= 11
  /\ Forall (fun light => 0.1 <= part_opacity light <= 0.9) (navLights spaceship)
  /\ Forall (fun glow => 0.2 <= part_opacity glow <= 0.6
                         /\ exists k, part_scale glow = setScalar k
                                      /\ 0.88 <= k <= 1.04)
            (engineGlows spaceship).



(** * Properties *)

(** ** Array writes *)

Section Store.

Context {A : Type}.

Lemma store_length (i : nat) (v : A) (l : list A) :
  List.length (store i v l) = List.length l.
Proof.
  revert i; induction l as [|h t IH]; intros [|i]; simpl; auto.
Qed.

Lemma nth_error_store_same (i : nat) (v : A) (l : list A) :
  (i < List.length l)%nat -> nth_error (store i v l) i = Some v.
Proof.
  revert i; induction l as [|h t IH]; intros [|i] Hi; simpl in *;
    try lia; auto.
  apply IH; lia.
Qed.

Lemma nth_error_store_other (i j : nat) (v : A) (l : list A) :
  i <> j -> nth_error (store i v l) j = nth_error l j.
Proof.
  revert i j; induction l as [|h t IH]; intros [|i] [|j] Hij; simpl;
    try congruence; auto.
Qed.

Lemma store_id (i : nat) (v : A) (l : list A) :
  nth_error l i = Some v -> store i v l = l.
Proof.
  revert i; induction l as [|h t IH]; intros [|i] H; simpl in *;
    try congruence.
  f_equal; auto.
Qed.

Lemma map_store {B : Type} (f : A -> B) (i : nat) (v : A) (l : list A) :
  map f (store i v l) = store i (f v) (map f l).
Proof.
  revert i; induction l as [|h t IH]; intros [|i]; simpl; auto.
  f_equal; auto.
Qed.

End Store.

(** ** What a visit keeps *)


Lemma identity_name (p q : Mesh) :
  identity p = identity q -> name (userData p) = name (userData q).
Proof. intros H; apply (f_equal name) in H; exact H. Qed.

Lemma identity_orbit (ps : list Mesh) (v : R) (p : Mesh) :
  identity (orbit ps v p) = identity p.
Proof.
  unfold orbit.
  destruct (parent_is "Earth" (userData p)).
  - destruct (find_planet "Earth" ps); reflexivity.
  - destruct (negb (name (userData p) =? "Moon")%string); reflexivity.
Qed.

Lemma identity_spin (v : R) (p : Mesh) : identity (spin v p) = identity p.
Proof. reflexivity. Qed.

Lemma find_planet_index (n : string) (ps : list Mesh) :
  find_planet n ps =
  match find_index n ps with
  | Some e => nth_error ps e
  | None => None
  end.
Proof.
  induction ps as [|p ps IH]; simpl; auto.
  destruct (name (userData p) =? n)%string; auto.
  rewrite IH. destruct (find_index n ps); reflexivity.
Qed.

Lemma find_index_identity (n : string) (ps qs : list Mesh) :
  map identity ps = map identity qs -> find_index n ps = find_index n qs.
Proof.
  revert qs; induction ps as [|p ps IH]; intros [|q qs] H;
    try discriminate; auto.
  assert (Hpq : identity p = identity q)
    by (apply (f_equal (hd (identity p))) in H; exact H).
  assert (Hrest : map identity ps = map identity qs)
    by (apply (f_equal (@tl _)) in H; exact H).
  simpl. rewrite (identity_name _ _ Hpq), (IH _ Hrest). reflexivity.
Qed.

Lemma find_index_some (n : string) (ps : list Mesh) (e : nat) :
  find_index n ps = Some e ->
  exists p, nth_error ps e = Some p /\ name (userData p) = n.
Proof.
  revert e; induction ps as [|p ps IH]; intros e H; simpl in *; try discriminate.
  destruct (name (userData p) =? n)%string eqn:E.
  - injection H as <-. exists p; split; auto. now apply String.eqb_eq.
  - destruct (find_index n ps) as [k|]; simpl in H; try discriminate.
    injection H as <-. simpl. now apply IH.
Qed.

(** ** The loop over the registry *)

Section ForEach.

Variables now v : R.

Lemma visits_cons (i : nat) (idxs : list nat)
      (st : list Mesh * option (list RingObject)) :
  visits now v (i :: idxs) st = visits now v idxs (visit now v st i).
Proof. reflexivity. Qed.

Lemma visits_app (idxs idxs' : list nat)
      (st : list Mesh * option (list RingObject)) :
  visits now v (idxs ++ idxs') st = visits now v idxs' (visits now v idxs st).
Proof. apply fold_left_app. Qed.

Lemma visit_length (st : list Mesh * option (list RingObject)) (i : nat) :
  List.length (fst (visit now v st i)) = List.length (fst st).
Proof.
  destruct st as [ps rings]; simpl.
  destruct (nth_error ps i); simpl; auto using store_length.
Qed.

Lemma visit_other (st : list Mesh * option (list RingObject)) (i j : nat) :
  i <> j -> nth_error (fst (visit now v st i)) j = nth_error (fst st) j.
Proof.
  intros Hij; destruct st as [ps rings]; simpl.
  destruct (nth_error ps i); simpl; auto using nth_error_store_other.
Qed.

Lemma visit_same (st : list Mesh * option (list RingObject))
      (i : nat) (p : Mesh) :
  nth_error (fst st) i = Some p ->
  nth_error (fst (visit now v st i)) i = Some (spin v (orbit (fst st) v p)).
Proof.
  destruct st as [ps rings]; simpl; intros H; rewrite H; simpl.
  apply nth_error_store_same. apply nth_error_Some; congruence.
Qed.

Lemma visit_identity (st : list Mesh * option (list RingObject)) (i : nat) :
  map identity (fst (visit now v st i)) = map identity (fst st).
Proof.
  destruct st as [ps rings]; simpl.
  destruct (nth_error ps i) as [p|] eqn:E; simpl; auto.
  rewrite map_store, identity_spin, identity_orbit.
  apply store_id. now rewrite nth_error_map, E.
Qed.

Lemma visits_length (idxs : list nat) (st : list Mesh * option (list RingObject)) :
  List.length (fst (visits now v idxs st)) = List.length (fst st).
Proof.
  revert st; induction idxs as [|i idxs IH]; intros st; auto.
  rewrite visits_cons, IH; apply visit_length.
Qed.

Lemma visits_untouched (idxs : list nat)
      (st : list Mesh * option (list RingObject)) (j : nat) :
  ~ In j idxs -> nth_error (fst (visits now v idxs st)) j = nth_error (fst st) j.
Proof.
  revert st; induction idxs as [|i idxs IH]; intros st Hj; auto.
  rewrite visits_cons, IH by (intros H; apply Hj; now right).
  apply visit_other; intros ->; apply Hj; now left.
Qed.

Lemma visits_identity (idxs : list nat) (st : list Mesh * option (list RingObject)) :
  map identity (fst (visits now v idxs st)) = map identity (fst st).
Proof.
  revert st; induction idxs as [|i idxs IH]; intros st; auto.
  rewrite visits_cons, IH; apply visit_identity.
Qed.

(** Body [i] meets the loop body once, with the array as the visits
    before it have left it. *)
Lemma forEach_nth (ps : list Mesh) (rings : option (list RingObject))
      (i : nat) (p : Mesh) :
  nth_error ps i = Some p ->
  nth_error (fst (planets_forEach now v ps rings)) i =
  Some (spin v (orbit (fst (visits now v (seq 0 i) (ps, rings))) v p)).
Proof.
  intros Hp.
  assert (Hi : (i < List.length ps)%nat) by (apply nth_error_Some; congruence).
  unfold planets_forEach.
  replace (List.length ps) with (i + S (List.length ps - S i))%nat by lia.
  rewrite seq_app, visits_app. simpl seq. rewrite visits_cons.
  rewrite visits_untouched by (rewrite in_seq; lia).
  apply visit_same.
  rewrite visits_untouched; auto. rewrite in_seq; lia.
Qed.

(** A body visited before [i] already has its final value when [i] is
    visited; a body visited after [i] still has its old one. *)
Lemma visits_before (ps : list Mesh) (rings : option (list RingObject))
      (i j : nat) :
  (j < i <= List.length ps)%nat ->
  nth_error (fst (visits now v (seq 0 i) (ps, rings))) j =
  nth_error (fst (planets_forEach now v ps rings)) j.
Proof.
  intros Hj. unfold planets_forEach.
  replace (List.length ps) with (i + (List.length ps - i))%nat at 1 by lia.
  rewrite seq_app, visits_app. simpl (0 + i)%nat.
  rewrite (visits_untouched (seq i _)); auto.
  rewrite in_seq; lia.
Qed.

Lemma visits_after (ps : list Mesh) (rings : option (list RingObject))
      (i j : nat) :
  (i <= j)%nat ->
  nth_error (fst (visits now v (seq 0 i) (ps, rings))) j = nth_error ps j.
Proof.
  intros Hj. rewrite visits_untouched; auto. rewrite in_seq; lia.
Qed.

Lemma forEach_length (ps : list Mesh) (rings : option (list RingObject)) :
  List.length (fst (planets_forEach now v ps rings)) = List.length ps.
Proof. apply (visits_length (seq 0 (List.length ps)) (ps, rings)). Qed.

Lemma forEach_identity (ps : list Mesh) (rings : option (list RingObject)) :
  map identity (fst (planets_forEach now v ps rings)) = map identity ps.
Proof. apply (visits_identity (seq 0 (List.length ps)) (ps, rings)). Qed.

End ForEach.

(** ** What a frame does to the fields of the state *)

Lemma animate_paused (now : R) (s : SolarSystem) :
  isPaused s = true -> animate now s = perform RequestAnimationFrame s.
Proof. intros H; unfold animate; simpl; now rewrite H. Qed.

Lemma animate_planets (now : R) (s : SolarSystem) :
  isPaused s = false ->
  planets (animate now s) =
  fst (planets_forEach now (animationSpeed s) (planets s) (saturnRings s)).
Proof.
  intros H; unfold animate; simpl; rewrite H.
  destruct (planets_forEach _ _ _ _); reflexivity.
Qed.

Lemma animate_saturnRings (now : R) (s : SolarSystem) :
  isPaused s = false ->
  saturnRings (animate now s) =
  snd (planets_forEach now (animationSpeed s) (planets s) (saturnRings s)).
Proof.
  intros H; unfold animate; simpl; rewrite H.
  destruct (planets_forEach _ _ _ _); reflexivity.
Qed.

Lemma animate_animationSpeed (now : R) (s : SolarSystem) :
  animationSpeed (animate now s) = animationSpeed s.
Proof.
  unfold animate; simpl; destruct (isPaused s); auto.
  destruct (planets_forEach _ _ _ _); reflexivity.
Qed.

Lemma animate_isPaused (now : R) (s : SolarSystem) :
  isPaused (animate now s) = isPaused s.
Proof.
  unfold animate; simpl; destruct (isPaused s) eqn:E; auto.
  destruct (planets_forEach _ _ _ _); simpl; auto.
Qed.

Lemma animate_followTarget (now : R) (s : SolarSystem) :
  followTarget (animate now s) = followTarget s.
Proof.
  unfold animate; simpl; destruct (isPaused s); auto.
  destruct (planets_forEach _ _ _ _); reflexivity.
Qed.

Lemma animate_loading (now : R) (s : SolarSystem) :
  loading (animate now s) = loading s.
Proof.
  unfold animate; simpl; destruct (isPaused s); auto.
  destruct (planets_forEach _ _ _ _); reflexivity.
Qed.

Lemma animate_identity (now : R) (s : SolarSystem) :
  map identity (planets (animate now s)) = map identity (planets s).
Proof.
  destruct (isPaused s) eqn:E.
  - now rewrite animate_paused.
  - rewrite animate_planets by assumption. apply forEach_identity.
Qed.

Lemma frames_animationSpeed (nows : list R) (s : SolarSystem) :
  animationSpeed (frames nows s) = animationSpeed s.
Proof.
  revert s; induction nows as [|now nows IH]; intros s; simpl; auto.
  unfold frames in IH; rewrite IH; apply animate_animationSpeed.
Qed.

Lemma frames_isPaused (nows : list R) (s : SolarSystem) :
  isPaused (frames nows s) = isPaused s.
Proof.
  revert s; induction nows as [|now nows IH]; intros s; simpl; auto.
  unfold frames in IH; rewrite IH; apply animate_isPaused.
Qed.

(** ** Bodies that orbit the star *)



Lemma orbit_star (ps : list Mesh) (v : R) (p : Mesh) :
  star_orbiting p -> orbit ps v p = orbit [] v p.
Proof.
  intros [Hparent Hname]; unfold orbit; now rewrite Hparent.
Qed.

Lemma star_orbiting_identity (p q : Mesh) :
  identity p = identity q -> star_orbiting p -> star_orbiting q.
Proof.
  intros H [Hparent Hname]. unfold star_orbiting, parent_is in *.
  rewrite <- (identity_name _ _ H).
  apply (f_equal parentPlanet) in H; simpl in H. now rewrite <- H.
Qed.

Lemma star_step_spec (v : R) (p : Mesh) :
  star_orbiting p ->
  let a := angle (userData p) + orbitSpeed (userData p) * v in
  star_step v p =
  mkMesh (Vector3.mk (cos a * distance (userData p))
                     (Vector3.y (position p))
                     (sin a * distance (userData p)))
         (rotation_y p + rotationSpeed (userData p) * v)
         (scale p) (radius p) (material p)
         (set_angle a (userData p)).
Proof.
  intros [Hparent Hname]; unfold star_step, orbit; rewrite Hparent.
  apply String.eqb_neq in Hname; rewrite Hname; reflexivity.
Qed.

Lemma animate_star (now : R) (s : SolarSystem) (i : nat) (p : Mesh) :
  isPaused s = false ->
  nth_error (planets s) i = Some p ->
  star_orbiting p ->
  nth_error (planets (animate now s)) i = Some (star_step (animationSpeed s) p).
Proof.
  intros Hrun Hp Hstar.
  rewrite animate_planets by assumption.
  rewrite (forEach_nth _ _ _ _ _ _ Hp).
  now rewrite orbit_star.
Qed.

Lemma star_step_orbiting (v : R) (p : Mesh) :
  star_orbiting p -> star_orbiting (star_step v p).
Proof.
  apply star_orbiting_identity. unfold star_step.
  now rewrite identity_spin, identity_orbit.
Qed.

Lemma iter_star_orbiting (v : R) (n : nat) (p : Mesh) :
  star_orbiting p -> star_orbiting (Nat.iter n (star_step v) p).
Proof. intros H; induction n; simpl; auto using star_step_orbiting. Qed.

Lemma frames_star (nows : list R) (s : SolarSystem) (i : nat) (p : Mesh) :
  isPaused s = false ->
  nth_error (planets s) i = Some p ->
  star_orbiting p ->
  nth_error (planets (frames nows s)) i =
  Some (Nat.iter (List.length nows) (star_step (animationSpeed s)) p).
Proof.
  revert s p; induction nows as [|now nows IH]; intros s p Hrun Hp Hstar;
    auto.
  change (frames (now :: nows) s) with (frames nows (animate now s)).
  rewrite (IH (animate now s) (star_step (animationSpeed s) p)).
  - rewrite animate_animationSpeed. f_equal.
    simpl List.length. symmetry; apply Nat.iter_succ_r.
  - now rewrite animate_isPaused.
  - now apply animate_star.
  - now apply star_step_orbiting.
Qed.

(** [n] steps in closed form. *)
Lemma iter_star_step (v : R) (n : nat) (p : Mesh) :
  star_orbiting p ->
  let q := Nat.iter n (star_step v) p in
  identity q = identity p
  /\ angle (userData q) = angle (userData p) + INR n * (orbitSpeed (userData p) * v)
  /\ rotation_y q = rotation_y p + INR n * (rotationSpeed (userData p) * v)
  /\ Vector3.y (position q) = Vector3.y (position p)
  /\ ((0 < n)%nat ->
      Vector3.x (position q) = cos (angle (userData q)) * distance (userData p)
      /\ Vector3.z (position q) = sin (angle (userData q)) * distance (userData p)).
Proof.
  intros Hstar; induction n as [|n IH].
  - simpl. repeat split; try lra; lia.
  - cbv zeta in *. rewrite S_INR. simpl Nat.iter.
    destruct IH as (Hid & Ha & Hr & Hy & _).
    set (q := Nat.iter n (star_step v) p) in *.
    assert (Hq : star_orbiting q) by now apply iter_star_orbiting.
    rewrite (star_step_spec v q Hq); simpl.
    assert (Hd : distance (userData q) = distance (userData p))
      by (apply (f_equal distance) in Hid; exact Hid).
    assert (Ho : orbitSpeed (userData q) = orbitSpeed (userData p))
      by (apply (f_equal orbitSpeed) in Hid; exact Hid).
    assert (Hs : rotationSpeed (userData q) = rotationSpeed (userData p))
      by (apply (f_equal rotationSpeed) in Hid; exact Hid).
    rewrite Ha, Hr, Hy, Hd, Ho, Hs.
    repeat split; try lra.
    unfold identity in *; simpl. exact Hid.
Qed.

(** ** Reachable states *)

Lemma run_snoc (events : list Event) (e : Event) (s : SolarSystem) :
  run (events ++ [e]) s = handle (run events s) e.
Proof. unfold run; now rewrite fold_left_app. Qed.

Lemma run_nil (s : SolarSystem) : run [] s = s.
Proof. reflexivity. Qed.

Lemma reachable_init (now : R) : reachable (init now).
Proof.
  exists now, []; split; [constructor | symmetry; apply run_nil].
Qed.

Lemma reachable_handle (s : SolarSystem) (e : Event) :
  reachable s -> possible e -> reachable (handle s e).
Proof.
  intros (now & events & Hok & ->) He.
  exists now, (events ++ [e]); split.
  - apply Forall_app; auto.
  - now rewrite run_snoc.
Qed.

Lemma reachable_run (events : list Event) (s : SolarSystem) :
  reachable s -> Forall possible events -> reachable (run events s).
Proof.
  revert s; induction events as [|e events IH]; intros s Hs Hok; auto.
  inversion Hok; subst. apply IH; auto using reachable_handle.
Qed.

Lemma reachable_invariant (P : SolarSystem -> Prop) :
  (forall now, P (init now)) ->
  (forall s e, reachable s -> possible e -> P s -> P (handle s e)) ->
  forall s, reachable s -> P s.
Proof.
  intros Hinit Hstep s (now & events & Hok & ->).
  induction events as [|e events IH] using rev_ind; simpl; auto.
  apply Forall_app in Hok as [Hok He].
  rewrite run_snoc. apply Hstep; auto.
  - exists now, events; auto.
  - now inversion He.
Qed.

Lemma take_split (path : string) (l : list Pending) (p : Pending)
      (rest : list Pending) :
  take path l = Some (p, rest) ->
  exists l1 l2, l = l1 ++ p :: l2 /\ rest = l1 ++ l2.
Proof.
  revert rest; induction l as [|q l IH]; intros rest H; simpl in H;
    try discriminate.
  destruct (texturePath q =? path)%string.
  - injection H as <- <-. now exists [], l.
  - destruct (take path l) as [[q' rest']|]; try discriminate.
    injection H as <- <-.
    destruct (IH rest' eq_refl) as (l1 & l2 & -> & ->).
    now exists (q :: l1), l2.
Qed.

(** What the callbacks do to the registry and to the loader. *)
Lemma loadPlanet_register_planets (mat : Material) (n : string) (sz d os rs : R)
      (pd : PlanetFacts) (gr : R) (c : Chance) (s : SolarSystem) :
  planets (loadPlanet_register mat n sz d os rs pd gr c s) =
  planets s ++ [planetMesh mat n sz d os rs pd gr c].
Proof.
  unfold loadPlanet_register.
  destruct (n =? "Saturn")%string; simpl; destruct (showOrbits s); reflexivity.
Qed.

Lemma loadPlanet_register_loading (mat : Material) (n : string) (sz d os rs : R)
      (pd : PlanetFacts) (gr : R) (c : Chance) (s : SolarSystem) :
  loading (loadPlanet_register mat n sz d os rs pd gr c s) = loading s.
Proof.
  unfold loadPlanet_register.
  destruct (n =? "Saturn")%string; simpl; destruct (showOrbits s); reflexivity.
Qed.


Lemma onLoad_planets (p : Pending) (c : Chance) (s : SolarSystem) :
  planets (onLoad p c s) = planets s ++ born true p c (planetScale s).
Proof.
  destruct p; simpl; try (symmetry; apply app_nil_r); auto.
  apply loadPlanet_register_planets.
Qed.

Lemma onError_planets (p : Pending) (c : Chance) (s : SolarSystem) :
  planets (onError p c s) = planets s ++ born false p c (planetScale s).
Proof.
  destruct p; simpl; try (symmetry; apply app_nil_r); auto.
  apply loadPlanet_register_planets.
Qed.

Lemma onLoad_loading (p : Pending) (c : Chance) (s : SolarSystem) :
  loading (onLoad p c s) = loading s.
Proof.
  destruct p; simpl; auto. apply loadPlanet_register_loading.
Qed.

Lemma onError_loading (p : Pending) (c : Chance) (s : SolarSystem) :
  loading (onError p c s) =
  loading s ++ match p with Stars8KLoad => [Stars2KLoad] | _ => [] end.
Proof.
  destruct p; simpl; try (symmetry; apply app_nil_r); auto.
  rewrite app_nil_r. apply loadPlanet_register_loading.
Qed.

Lemma init_planets (now : R) : planets (init now) = [].
Proof. reflexivity. Qed.

(** ** Every registered body lies in the orbital plane *)


Lemma store_Forall {A : Type} (P : A -> Prop) (i : nat) (v : A) (l : list A) :
  Forall P l -> P v -> Forall P (store i v l).
Proof.
  intros Hl Hv; revert i; induction Hl; intros [|i]; simpl; auto.
Qed.

Lemma orbit_grounded (ps : list Mesh) (v : R) (p : Mesh) :
  grounded ps -> Vector3.y (position p) = 0 ->
  Vector3.y (position (orbit ps v p)) = 0.
Proof.
  intros Hps Hp; unfold orbit.
  destruct (parent_is "Earth" (userData p)).
  - destruct (find_planet "Earth" ps) as [earth|] eqn:E; auto.
    simpl. apply find_some in E as [Hin _].
    unfold grounded in Hps; rewrite Forall_forall in Hps; auto.
  - destruct (negb (name (userData p) =? "Moon")%string); auto.
Qed.

Lemma visit_grounded (now v : R) (st : list Mesh * option (list RingObject))
      (i : nat) :
  grounded (fst st) -> grounded (fst (visit now v st i)).
Proof.
  destruct st as [ps rings]; simpl; intros H.
  destruct (nth_error ps i) as [p|] eqn:E; simpl; auto.
  apply store_Forall; auto.
  apply (orbit_grounded ps v p H).
  apply nth_error_In in E. unfold grounded in H; rewrite Forall_forall in H; auto.
Qed.

Lemma forEach_grounded (now v : R) (ps : list Mesh)
      (rings : option (list RingObject)) :
  grounded ps -> grounded (fst (planets_forEach now v ps rings)).
Proof.
  unfold planets_forEach. generalize (seq 0 (List.length ps)).
  intros idxs; change ps with (fst (ps, rings)) at 1.
  generalize (ps, rings); induction idxs as [|i idxs IH]; intros st H;
    auto.
  rewrite visits_cons. auto using visit_grounded.
Qed.

Lemma animate_grounded (now : R) (s : SolarSystem) :
  grounded (planets s) -> grounded (planets (animate now s)).
Proof.
  intros H; destruct (isPaused s) eqn:E.
  - now rewrite animate_paused.
  - rewrite animate_planets by assumption. now apply forEach_grounded.
Qed.

Lemma born_grounded (loaded : bool) (p : Pending) (c : Chance) (k : R) :
  grounded (born loaded p c k).
Proof.
  unfold grounded; destruct p, loaded; simpl; repeat constructor.
Qed.

Lemma handle_grounded (s : SolarSystem) (e : Event) :
  grounded (planets s) -> grounded (planets (handle s e)).
Proof.
  intros H; destruct e; simpl; auto using animate_grounded.
  - destruct (take path (loading s)) as [[p rest]|]; auto.
    rewrite onLoad_planets. apply Forall_app; split;
      [exact H | apply born_grounded].
  - destruct (take path (loading s)) as [[p rest]|]; auto.
    rewrite onError_planets. apply Forall_app; split;
      [exact H | apply born_grounded].
  - unfold grounded in *; rewrite Forall_map; exact H.
  - unfold mobileTap. destruct hit as [i|]; auto.
    destruct (nth_error (planets s) i); auto.
Qed.

Lemma reachable_grounded (s : SolarSystem) :
  reachable s -> grounded (planets s).
Proof.
  revert s; apply (reachable_invariant (fun s => grounded (planets s))).
  - intros now; rewrite init_planets; constructor.
  - intros; now apply handle_grounded.
Qed.

(** ** C1: the orbit of a star-orbiting body *)

Lemma vector3_eq (u : Vector3.t) (a b c : R) :
  Vector3.x u = a -> Vector3.y u = b -> Vector3.z u = c -> u = Vector3.mk a b c.
Proof. destruct u; simpl; intros; subst; reflexivity. Qed.

Lemma reachable_nth_grounded (s : SolarSystem) (i : nat) (body : Mesh) :
  reachable s -> nth_error (planets s) i = Some body ->
  Vector3.y (position body) = 0.
Proof.
  intros Hs Hi. apply reachable_grounded in Hs.
  unfold grounded in Hs; rewrite Forall_forall in Hs.
  apply Hs. eapply nth_error_In; eauto.
Qed.

(** C1.  For every star-orbiting body of the registry, a frame adds
    [orbitSpeed * animationSpeed] to its angle and leaves it at
    [(cos angle * distance, 0, sin angle * distance)]; a registered body with
    distance 100, orbit speed 0.01, angle 0, under animation speed 1, has
    angle 1 and position [(cos 1 * 100, 0, sin 1 * 100)] after 100 frames. *)
Theorem star_orbit_kinematics
        (s : SolarSystem) (now : R) (nows : list R) (i : nat) (body : Mesh) :
  reachable s ->
  isPaused s = false ->
  nth_error (planets s) i = Some body ->
  star_orbiting body ->
  (exists body',
      nth_error (planets (animate now s)) i = Some body'
      /\ angle (userData body') =
         angle (userData body) + orbitSpeed (userData body) * animationSpeed s
      /\ position body' =
         Vector3.mk (cos (angle (userData body')) * distance (userData body))
                    0
                    (sin (angle (userData body')) * distance (userData body)))
  /\ (distance (userData body) = 100 ->
      orbitSpeed (userData body) = 0.01 ->
      angle (userData body) = 0 ->
      animationSpeed s = 1 ->
      List.length nows = 100%nat ->
      exists body',
        nth_error (planets (frames nows s)) i = Some body'
        /\ angle (userData body') = 1
        /\ position body' = Vector3.mk (cos 1 * 100) 0 (sin 1 * 100)).
Proof.
  intros Hs Hrun Hi Hstar.
  pose proof (reachable_nth_grounded s i body Hs Hi) as Hy.
  split.
  - exists (star_step (animationSpeed s) body). split.
    + now apply animate_star.
    + rewrite (star_step_spec _ _ Hstar); simpl. rewrite Hy. auto.
  - intros Hd Ho Ha Hv Hn.
    exists (Nat.iter (List.length nows) (star_step (animationSpeed s)) body).
    split; [now apply frames_star|].
    destruct (iter_star_step (animationSpeed s) (List.length nows) body Hstar)
      as (_ & Hangle & _ & Hy' & Hxz).
    rewrite Hn in *. destruct Hxz as [Hx Hz]; [lia|].
    assert (Hone : angle (userData (Nat.iter 100 (star_step (animationSpeed s)) body)) = 1).
    { rewrite Hangle, Ha, Ho, Hv, INR_IZR_INZ. simpl Z.of_nat. lra. }
    split; auto.
    apply vector3_eq.
    + rewrite Hx, Hone, Hd; reflexivity.
    + rewrite Hy'; exact Hy.
    + rewrite Hz, Hone, Hd; reflexivity.
Qed.

Lemma earth_loaded_reachable : reachable earth_loaded.
Proof.
  apply reachable_run; [apply reachable_init | repeat constructor; simpl; lra].
Qed.

Lemma earthMesh_star_orbiting : star_orbiting earthMesh.
Proof. split; [reflexivity | discriminate]. Qed.

Lemma star_orbit_kinematics_witness :
  exists body',
    nth_error (planets (frames (repeat 0 100%nat) earth_loaded)) 0 = Some body'
    /\ angle (userData body') = 1
    /\ position body' = Vector3.mk (cos 1 * 100) 0 (sin 1 * 100).
Proof.
  refine (proj2 (star_orbit_kinematics earth_loaded 0 (repeat 0 100%nat) 0
                   earthMesh _ _ _ _) _ _ _ _ _).
  - exact earth_loaded_reachable.
  - reflexivity.
  - reflexivity.
  - exact earthMesh_star_orbiting.
  - reflexivity.
  - reflexivity.
  - simpl; lra.
  - cbn; lra.
  - reflexivity.
Defined.

(** On binary64 numbers the hundred additions of the scenario round: the
    angle ends one part in [10^15] above 1, not on it. *)
Lemma phase64_after_100_frames :
  let angle := Nat.iter 100 (phase_step64 hundredth64 1%float) 0%float in
  angle = 0x1.0000000000003p+0%float
  /\ PrimFloat.ltb (PrimFloat.abs (PrimFloat.sub angle 1%float)) 0x1p-50%float = true.
Proof. vm_compute. split; reflexivity. Qed.

(** ** The identifiers never repeat *)

Lemma names_app (ps qs : list Mesh) : names (ps ++ qs) = names ps ++ names qs.
Proof. apply map_app. Qed.

Lemma names_identity (ps qs : list Mesh) :
  map identity ps = map identity qs -> names ps = names qs.
Proof.
  intros H. unfold names.
  change (fun p => name (userData p)) with (fun p => name (identity p)).
  rewrite <- !(map_map identity name). now rewrite H.
Qed.

(** A resolved request registers the identifier it carried, except the
    moon's when its texture failed. *)
Lemma names_born (loaded : bool) (p : Pending) (c : Chance) (k : R) :
  names (born loaded p c k) =
  match p with
  | MoonLoad => if loaded then ["Moon"] else []
  | _ => pending_name p
  end.
Proof. destruct p, loaded; reflexivity. Qed.

Lemma known_names_take (s : SolarSystem) (path : string) (p : Pending)
      (rest : list Pending) :
  take path (loading s) = Some (p, rest) ->
  Permutation (known_names s)
              (pending_name p ++ names (planets s) ++ flat_map pending_name rest).
Proof.
  intros H. apply take_split in H as (l1 & l2 & Hl & ->).
  unfold known_names. rewrite Hl, !flat_map_app. simpl flat_map.
  rewrite (app_assoc (names (planets s))).
  rewrite (app_assoc (names (planets s)) (flat_map pending_name l1)
                     (flat_map pending_name l2)).
  apply Permutation_app_swap_app.
Qed.

(** An event never brings a new identifier: the identifiers known after it
    are those known before, less the ones in [gone]. *)
Lemma handle_known_names (s : SolarSystem) (e : Event) :
  exists gone, Permutation (known_names s) (gone ++ known_names (handle s e)).
Proof.
  assert (Hsame : forall s', map identity (planets s') = map identity (planets s) ->
                             loading s' = loading s ->
                             exists gone,
                               Permutation (known_names s) (gone ++ known_names s')).
  { intros s' Hp Hl. exists []. unfold known_names.
    rewrite (names_identity _ _ Hp), Hl. apply Permutation_refl. }
  destruct e; simpl; try (apply Hsame; reflexivity).
  - destruct (take path (loading s)) as [[p rest]|] eqn:E;
      [|apply Hsame; reflexivity].
    exists []. simpl. rewrite (known_names_take _ _ _ _ E).
    unfold known_names.
    rewrite onLoad_planets, onLoad_loading, names_app, names_born; simpl.
    rewrite <- app_assoc.
    replace (match p with MoonLoad => ["Moon"] | _ => pending_name p end)
      with (pending_name p) by (destruct p; reflexivity).
    apply Permutation_app_swap_app.
  - destruct (take path (loading s)) as [[p rest]|] eqn:E;
      [|apply Hsame; reflexivity].
    pose proof (known_names_take _ _ _ _ E) as Hperm.
    assert (Hafter : known_names (onError p c (set_loading rest s)) =
                     (names (planets s) ++ names (born false p c (planetScale s)))
                     ++ flat_map pending_name rest
                     -> exists gone,
                       Permutation (known_names s)
                         (gone ++ known_names (onError p c (set_loading rest s)))).
    { intros ->. rewrite names_born, <- app_assoc.
      destruct p;
        try (exists []; simpl app at 1; rewrite Hperm;
             apply Permutation_app_swap_app).
      exists ["Moon"]. exact Hperm. }
    apply Hafter. unfold known_names.
    rewrite onError_planets, onError_loading, names_app; simpl.
    rewrite flat_map_app.
    replace (flat_map pending_name
               match p with Stars8KLoad => [Stars2KLoad] | _ => [] end)
      with (@nil string) by (destruct p; reflexivity).
    now rewrite app_nil_r.
  - apply Hsame; [apply animate_identity | apply animate_loading].
  - apply Hsame; auto. simpl. rewrite map_map. reflexivity.
  - apply Hsame; unfold mobileTap; destruct hit as [i|]; auto;
      destruct (nth_error (planets s) i); auto.
Qed.

Lemma init_known_names (now : R) :
  known_names (init now) =
  ["Mercury"; "Venus"; "Earth"; "Mars"; "Jupiter"; "Saturn"; "Uranus";
   "Neptune"; "Moon"].
Proof. reflexivity. Qed.

Lemma reachable_known_names_NoDup (s : SolarSystem) :
  reachable s -> NoDup (known_names s).
Proof.
  revert s; apply (reachable_invariant (fun s => NoDup (known_names s))).
  - intros now; rewrite init_known_names.
    repeat (constructor; [simpl; intuition discriminate|]). constructor.
  - intros s e _ _ H. destruct (handle_known_names s e) as [gone Hperm].
    apply (Permutation_NoDup Hperm) in H.
    now apply NoDup_app_remove_l in H.
Qed.

Lemma reachable_names_NoDup (s : SolarSystem) :
  reachable s -> NoDup (names (planets s)).
Proof.
  intros H. apply reachable_known_names_NoDup in H.
  unfold known_names in H. now apply NoDup_app_remove_r in H.
Qed.

(** ** C2: the moon and the registration order *)

Lemma orbit_moon (ps : list Mesh) (v : R) (moon earth : Mesh) :
  parent_is "Earth" (userData moon) = true ->
  find_planet "Earth" ps = Some earth ->
  let moon' := orbit ps v moon in
  angle (userData moon') = angle (userData moon) + orbitSpeed (userData moon) * v
  /\ distance (userData moon') = distance (userData moon)
  /\ position moon' = Vector3.add (position earth) (orbitOffset moon').
Proof.
  intros Hparent Hearth; unfold orbit; rewrite Hparent, Hearth; simpl.
  repeat split. unfold Vector3.add, orbitOffset; simpl.
  f_equal; lra.
Qed.

(** The moon reads Earth from the array as it is when the moon is visited:
    Earth's new position when Earth comes earlier in the registry, Earth's
    position of the previous frame when Earth comes later. *)
Lemma animate_moon (now : R) (s : SolarSystem) (m e : nat) (moon : Mesh) :
  isPaused s = false ->
  nth_error (planets s) m = Some moon ->
  parent_is "Earth" (userData moon) = true ->
  find_index "Earth" (planets s) = Some e ->
  exists moon' earth,
    nth_error (planets (animate now s)) m = Some moon'
    /\ nth_error (if (e <? m)%nat then planets (animate now s) else planets s) e
       = Some earth
    /\ (e <> m -> position moon' = Vector3.add (position earth) (orbitOffset moon')).
Proof.
  intros Hrun Hm Hparent He.
  set (v := animationSpeed s).
  set (qs := fst (visits now v (seq 0 m) (planets s, saturnRings s))).
  assert (Hm' : nth_error (planets (animate now s)) m = Some (spin v (orbit qs v moon))).
  { rewrite animate_planets by assumption. now apply forEach_nth. }
  assert (Hlen : (m < List.length (planets s))%nat)
    by (apply nth_error_Some; congruence).
  assert (Hfind : find_planet "Earth" qs = nth_error qs e).
  { rewrite find_planet_index.
    rewrite (find_index_identity "Earth" qs (planets s)), He; auto.
    apply (visits_identity now v (seq 0 m) (planets s, saturnRings s)). }
  destruct (find_index_some _ _ _ He) as (earth0 & He0 & _).
  assert (Hqe : nth_error qs e =
                nth_error (if (e <? m)%nat then planets (animate now s)
                           else planets s) e).
  { destruct (e <? m)%nat eqn:Hlt.
    - apply Nat.ltb_lt in Hlt. rewrite animate_planets by assumption.
      apply visits_before; lia.
    - apply Nat.ltb_ge in Hlt. now apply visits_after. }
  destruct (nth_error qs e) as [earth|] eqn:Hearth.
  - exists (spin v (orbit qs v moon)), earth. repeat split; auto.
    intros _. rewrite <- Hearth in Hfind.
    destruct (orbit_moon qs v moon earth Hparent) as (_ & _ & Hpos).
    + now rewrite Hfind, Hearth.
    + exact Hpos.
  - exfalso. destruct (e <? m)%nat eqn:Hlt.
    + symmetry in Hqe; apply nth_error_None in Hqe.
      rewrite animate_planets, forEach_length in Hqe by assumption.
      assert ((e < List.length (planets s))%nat)
        by (apply nth_error_Some; congruence).
      lia.
    + congruence.
Qed.

(** C2.  With the moon registered before Earth, a reachable order, the
    moon is placed around the position Earth had before the frame, not the
    one Earth has after it. *)
Theorem moon_registered_first_lags (now : R) :
  reachable moon_first
  /\ exists earth0 moon earth,
      nth_error (planets moon_first) 1 = Some earth0
      /\ nth_error (planets (animate now moon_first)) 0 = Some moon
      /\ nth_error (planets (animate now moon_first)) 1 = Some earth
      /\ name (userData moon) = "Moon"
      /\ name (userData earth) = "Earth"
      /\ position moon = Vector3.add (position earth0) (orbitOffset moon)
      /\ position moon <> Vector3.add (position earth) (orbitOffset moon).
Proof.
  split.
  - apply reachable_run; [apply reachable_init | repeat constructor; simpl; lra].
  - do 3 eexists. cbn.
    split; [reflexivity|]. split; [reflexivity|]. split; [reflexivity|].
    split; [reflexivity|]. split; [reflexivity|]. split.
    + unfold Vector3.add, orbitOffset; simpl. f_equal; lra.
    + unfold Vector3.add, orbitOffset; simpl. intros H.
      apply (f_equal Vector3.z) in H; simpl in H.
      assert (Hpos : 0 < sin 0.01) by (apply sin_pos_tech; lra).
      replace (0 * PI * 2 + 0.01 * 1.0) with 0.01 in H by lra.
      lra.
Qed.

(** ** C3: animation speed 0 *)

Lemma mesh_eta (p : Mesh) :
  mkMesh (position p) (rotation_y p) (scale p) (radius p) (material p)
         (userData p) = p.
Proof. now destruct p. Qed.

Lemma userData_eta (d : UserData) : set_angle (angle d) d = d.
Proof. now destruct d. Qed.

Lemma vector3_eta (u : Vector3.t) :
  Vector3.mk (Vector3.x u) (Vector3.y u) (Vector3.z u) = u.
Proof. now destruct u. Qed.

(** At speed 0 the loop body keeps the angle and the spin of any body. *)
Lemma step_zero_phase_and_spin (ps : list Mesh) (p : Mesh) :
  phase_and_spin (spin 0 (orbit ps 0 p)) = phase_and_spin p.
Proof.
  unfold phase_and_spin, spin, orbit.
  destruct (parent_is "Earth" (userData p)).
  - destruct (find_planet "Earth" ps); simpl; f_equal; lra.
  - destruct (negb (name (userData p) =? "Moon")%string); simpl; f_equal; lra.
Qed.

(** At speed 0 the loop body changes nothing of a body that is on its
    orbit. *)
Lemma step_zero_on_orbit (ps : list Mesh) (p : Mesh) :
  on_orbit ps p -> spin 0 (orbit ps 0 p) = p.
Proof.
  unfold on_orbit, spin, orbit.
  destruct p as [pos ry sc rad mat [n d os rs a sz parent fs]]; simpl.
  unfold set_rotation_y, set_position, set_userData, set_angle; simpl.
  replace (a + os * 0) with a by lra.
  destruct (parent_is "Earth" _).
  - destruct (find_planet "Earth" ps) as [earth|]; simpl.
    + intros <-. f_equal; lra.
    + intros _. f_equal; lra.
  - destruct (negb (n =? "Moon")%string); simpl.
    + intros [Hx Hz]. rewrite <- Hx, <- Hz, vector3_eta. f_equal; lra.
    + intros _. f_equal; lra.
Qed.

Lemma visits_zero_phase_and_spin (now : R) (idxs : list nat)
      (st : list Mesh * option (list RingObject)) :
  map phase_and_spin (fst (visits now 0 idxs st)) = map phase_and_spin (fst st).
Proof.
  revert st; induction idxs as [|i idxs IH]; intros st; auto.
  rewrite visits_cons, IH. destruct st as [ps rings]; simpl.
  destruct (nth_error ps i) as [p|] eqn:E; simpl; auto.
  rewrite map_store, step_zero_phase_and_spin.
  apply store_id. now rewrite nth_error_map, E.
Qed.

Lemma visits_zero_settled (now : R) (idxs : list nat) (ps : list Mesh)
      (rings : option (list RingObject)) :
  settled ps -> fst (visits now 0 idxs (ps, rings)) = ps.
Proof.
  intros Hps; revert rings; induction idxs as [|i idxs IH]; intros rings; auto.
  rewrite visits_cons. simpl visit.
  destruct (nth_error ps i) as [p|] eqn:E; auto.
  rewrite step_zero_on_orbit.
  - rewrite (store_id _ _ _ E). apply IH.
  - unfold settled in Hps; rewrite Forall_forall in Hps.
    apply Hps. eapply nth_error_In; eauto.
Qed.

Lemma animate_zero (now : R) (s : SolarSystem) :
  animationSpeed s = 0 ->
  map phase_and_spin (planets (animate now s)) = map phase_and_spin (planets s)
  /\ (settled (planets s) -> planets (animate now s) = planets s).
Proof.
  intros Hv. destruct (isPaused s) eqn:E.
  - rewrite animate_paused by assumption. simpl; auto.
  - rewrite animate_planets by assumption. rewrite Hv. split.
    + apply visits_zero_phase_and_spin.
    + apply visits_zero_settled.
Qed.

Lemma frames_zero_phase_and_spin (s : SolarSystem) (nows : list R) :
  animationSpeed s = 0 ->
  map phase_and_spin (planets (frames nows s)) = map phase_and_spin (planets s).
Proof.
  revert s; induction nows as [|now nows IH]; intros s Hv; auto.
  change (frames (now :: nows) s) with (frames nows (animate now s)).
  rewrite IH by (now rewrite animate_animationSpeed).
  now apply animate_zero.
Qed.

Lemma frames_zero_settled (s : SolarSystem) (nows : list R) :
  animationSpeed s = 0 ->
  settled (planets s) ->
  planets (frames nows s) = planets s.
Proof.
  revert s; induction nows as [|now nows IH]; intros s Hv Hs; auto.
  change (frames (now :: nows) s) with (frames nows (animate now s)).
  destruct (animate_zero now s Hv) as [_ Hsame].
  rewrite IH; rewrite ?animate_animationSpeed, ?(Hsame Hs); auto.
Qed.

(** C3, as the code has it.  At animation speed 0, any number of frames
    leaves the angle and the spin of every body unchanged; it leaves the
    whole body unchanged, position included, when every body already is
    where the position rule puts it for its angle. *)
Theorem speed_zero_fixed_point (s : SolarSystem) (nows : list R) :
  animationSpeed s = 0 ->
  map phase_and_spin (planets (frames nows s)) = map phase_and_spin (planets s)
  /\ (settled (planets s) -> planets (frames nows s) = planets s).
Proof.
  intros Hv. split.
  - now apply frames_zero_phase_and_spin.
  - now apply frames_zero_settled.
Qed.

Lemma still_earth_planets : planets still_earth = [earthMesh].
Proof. reflexivity. Qed.

Lemma earthMesh_settled : settled [earthMesh].
Proof.
  repeat constructor; simpl;
    replace (0 * PI * 2) with 0 by lra; rewrite ?cos_0, ?sin_0; lra.
Qed.

Lemma still_earth_settled : settled (planets still_earth).
Proof. rewrite still_earth_planets. exact earthMesh_settled. Qed.

Lemma speed_zero_fixed_point_witness :
  map phase_and_spin (planets (frames [0; 16; 33] still_earth))
  = map phase_and_spin (planets still_earth)
  /\ planets (frames [0; 16; 33] still_earth) = planets still_earth.
Proof.
  destruct (speed_zero_fixed_point still_earth [0; 16; 33]) as [Hphase Hsame].
  - reflexivity.
  - split; [exact Hphase | exact (Hsame still_earth_settled)].
Defined.

(** C3, as stated, fails on a body that has just been registered: a body
    that has not moved yet sits at [(distance, 0, 0)] whatever its angle,
    and the first frame at speed 0 takes it to its place on the orbit. *)
Lemma speed_zero_moves_fresh_body :
  reachable half_turn
  /\ animationSpeed half_turn = 0
  /\ exists body body',
      nth_error (planets half_turn) 0 = Some body
      /\ nth_error (planets (animate 0 half_turn)) 0 = Some body'
      /\ position body = Vector3.mk 100 0 0
      /\ position body' = Vector3.mk (-100) 0 0
      /\ position body' <> position body.
Proof.
  split; [|split; [reflexivity|]].
  - apply reachable_run; [apply reachable_init | repeat constructor; simpl; lra].
  - do 2 eexists.
    split; [reflexivity|]. split; [reflexivity|]. split; [reflexivity|].
    assert (Hpos : forall d, Vector3.mk (cos (1 / 2 * PI * 2 + 0.01 * 0) * d) 0
                                        (sin (1 / 2 * PI * 2 + 0.01 * 0) * d)
                             = Vector3.mk (- d) 0 0).
    { intros d. replace (1 / 2 * PI * 2 + 0.01 * 0) with PI by lra.
      rewrite cos_PI, sin_PI. f_equal; lra. }
    split.
    + exact (Hpos 100).
    + simpl. rewrite (Hpos 100). intros H.
      apply (f_equal Vector3.x) in H; simpl in H. lra.
Qed.

(** ** C4: paused frames *)

(** C4, as the code has it.  While paused, a frame asks the host for the
    next frame and returns: no body, ring, sun or star field is touched,
    the camera stays, the controls are not updated and nothing is
    rendered. *)
Theorem paused_frame_is_idle (s : SolarSystem) (now : R) :
  isPaused s = true ->
  planets (animate now s) = planets s
  /\ saturnRings (animate now s) = saturnRings s
  /\ sun (animate now s) = sun s
  /\ sunGlowEffects (animate now s) = sunGlowEffects s
  /\ starSphere (animate now s) = starSphere s
  /\ camera_position (animate now s) = camera_position s
  /\ controls_target (animate now s) = controls_target s
  /\ effects (animate now s) = effects s ++ [RequestAnimationFrame]
  /\ renders (effects (animate now s)) = renders (effects s).
Proof.
  intros H; rewrite animate_paused by assumption; simpl.
  repeat split. unfold renders. rewrite filter_app; simpl.
  now rewrite app_nil_r.
Qed.

Lemma paused_frame_is_idle_witness :
  planets (animate 16 hidden_tab) = planets hidden_tab
  /\ effects (animate 16 hidden_tab) = effects hidden_tab ++ [RequestAnimationFrame]
  /\ renders (effects (animate 16 hidden_tab)) = renders (effects hidden_tab).
Proof.
  destruct (paused_frame_is_idle hidden_tab 16) as (H1 & _ & _ & _ & _ & _ & _ & H2 & H3).
  - reflexivity.
  - auto.
Defined.

(** C4, as stated, fails: a frame that arrives while paused issues no
    render call. *)
Lemma paused_frame_does_not_render :
  reachable hidden_tab
  /\ isPaused hidden_tab = true
  /\ renders (effects hidden_tab) = 1%nat
  /\ renders (effects (animate 16 hidden_tab)) = 1%nat.
Proof.
  split; [|repeat split].
  apply reachable_run; [apply reachable_init | repeat constructor].
Qed.

(** ** C5: the camera follow *)

(** *** The orbit controls *)

Lemma cos_EPS_bounds : 0.9 < cos OrbitControls.EPS < 1.
Proof.
  unfold OrbitControls.EPS. split.
  - destruct (pre_cos_bound 0.000001 0) as [H _]; try lra.
    unfold cos_approx, cos_term in H; simpl in H. lra.
  - rewrite <- cos_0. apply cos_decreasing_1; try lra.
    + pose proof PI_RGT_0. lra.
    + pose proof PI2_1. lra.
Qed.

Lemma sqrt_sum_squares_0 (a b : R) : sqrt (a * a + b * b) = 0 -> a = 0 /\ b = 0.
Proof.
  intros H. apply sqrt_eq_0 in H; [|nra]. split; nra.
Qed.

Lemma sqrt_squares_pos (a b c : R) : 0 <= sqrt (a * a + b * b + c * c).
Proof. apply sqrt_pos. Qed.

(** The length that [update] gives the offset is the clamped radius. *)
Lemma update_distanceTo (target position : Vector3.t) :
  Vector3.distanceTo (OrbitControls.update target position) target
  = Rmax OrbitControls.minDistance
         (Rmin OrbitControls.maxDistance (Vector3.distanceTo position target)).
Proof.
  unfold OrbitControls.update, Vector3.distanceTo; cbv zeta; simpl.
  set (x := Vector3.x position - Vector3.x target).
  set (y := Vector3.y position - Vector3.y target).
  set (z := Vector3.z position - Vector3.z target).
  set (radius := sqrt (x * x + y * y + z * z)).
  set (h := sqrt (x * x + z * z)).
  set (st := if Req_dec_T h 0 then 0 else x / h).
  set (ct := if Req_dec_T h 0 then 1 else z / h).
  set (cp := OrbitControls.safe (if Req_dec_T radius 0 then 1 else y / radius)).
  set (r' := Rmax OrbitControls.minDistance (Rmin OrbitControls.maxDistance radius)).
  assert (Hr' : 0 <= r').
  { unfold r', OrbitControls.minDistance.
    apply Rle_trans with 10; [lra | apply Rmax_l]. }
  assert (Htheta : st * st + ct * ct = 1).
  { unfold st, ct. destruct (Req_dec_T h 0) as [E|E]; [lra|].
    assert (Hh : h * h = x * x + z * z) by (apply sqrt_sqrt; nra).
    field_simplify_eq; [lra | exact E]. }
  assert (Hcp : cp * cp <= 1).
  { pose proof cos_EPS_bounds as Hc. unfold cp, OrbitControls.safe.
    destruct (Rlt_dec _ _) as [H1|H1]; [nra|].
    destruct (Rlt_dec _ _) as [H2|H2]; nra. }
  assert (Hsp : sqrt (1 - cp * cp) * sqrt (1 - cp * cp) = 1 - cp * cp)
    by (apply sqrt_sqrt; lra).
  set (sp := sqrt (1 - cp * cp)) in *.
  replace ((Vector3.x target + r' * sp * st - Vector3.x target)
           * (Vector3.x target + r' * sp * st - Vector3.x target)
           + (Vector3.y target + r' * cp - Vector3.y target)
             * (Vector3.y target + r' * cp - Vector3.y target)
           + (Vector3.z target + r' * sp * ct - Vector3.z target)
             * (Vector3.z target + r' * sp * ct - Vector3.z target))
    with (r' * r' * ((sp * sp) * (st * st + ct * ct) + cp * cp)) by ring.
  rewrite Htheta, Hsp.
  replace (r' * r' * ((1 - cp * cp) * 1 + cp * cp)) with (r' * r') by ring.
  now apply sqrt_square.
Qed.

(** After [update] the camera is within the limits of the controls. *)
Lemma update_within_limits (target position : Vector3.t) :
  OrbitControls.minDistance
  <= Vector3.distanceTo (OrbitControls.update target position) target
  <= OrbitControls.maxDistance.
Proof.
  rewrite update_distanceTo. split; [apply Rmax_l|].
  apply Rmax_lub; [unfold OrbitControls.minDistance, OrbitControls.maxDistance; lra|].
  apply Rmin_l.
Qed.

(** Away from the vertical through the target, [update] moves the camera
    along the line from the target, to the clamped distance. *)
Lemma update_scaled (target position : Vector3.t) :
  let x := Vector3.x position - Vector3.x target in
  let y := Vector3.y position - Vector3.y target in
  let z := Vector3.z position - Vector3.z target in
  let radius := Vector3.distanceTo position target in
  let k := Rmax OrbitControls.minDistance (Rmin OrbitControls.maxDistance radius)
           / radius in
  0 < radius ->
  - cos OrbitControls.EPS * radius <= y <= cos OrbitControls.EPS * radius ->
  OrbitControls.update target position
  = Vector3.mk (Vector3.x target + x * k) (Vector3.y target + y * k)
               (Vector3.z target + z * k).
Proof.
  unfold OrbitControls.update, Vector3.distanceTo; cbv zeta.
  set (x := Vector3.x position - Vector3.x target).
  set (y := Vector3.y position - Vector3.y target).
  set (z := Vector3.z position - Vector3.z target).
  set (radius := sqrt (x * x + y * y + z * z)).
  set (h := sqrt (x * x + z * z)).
  intros Hr [Hlo Hhi].
  pose proof cos_EPS_bounds as Hc.
  assert (Hrr : radius * radius = x * x + y * y + z * z)
    by (apply sqrt_sqrt; nra).
  assert (Hhh : h * h = x * x + z * z) by (apply sqrt_sqrt; nra).
  assert (Hh0 : 0 <= h) by apply sqrt_pos.
  remember (cos OrbitControls.EPS) as c eqn:Hceq.
  assert (Hy : y * y < radius * radius).
  { assert (H1 : 0 <= (c * radius - y) * (c * radius + y))
      by (apply Rmult_le_pos; lra).
    assert (H2 : c * c < 1) by nra.
    assert (H3 : 0 < radius * radius) by nra.
    nra. }
  assert (Hh : 0 < h) by nra.
  destruct (Req_dec_T radius 0) as [E|_]; [lra|].
  destruct (Req_dec_T h 0) as [E|_]; [lra|].
  assert (Hsafe : OrbitControls.safe (y / radius) = y / radius).
  { unfold OrbitControls.safe. rewrite <- Hceq.
    destruct (Rlt_dec _ _) as [H1|_].
    - exfalso. apply (Rmult_lt_compat_r radius) in H1; [|exact Hr].
      unfold Rdiv in H1. rewrite Rmult_assoc, Rinv_l, Rmult_1_r in H1; lra.
    - destruct (Rlt_dec _ _) as [H2|_]; [|reflexivity].
      exfalso. apply (Rmult_lt_compat_r radius) in H2; [|exact Hr].
      unfold Rdiv in H2. rewrite Rmult_assoc, Rinv_l, Rmult_1_r in H2; lra. }
  rewrite Hsafe.
  assert (Hsin : sqrt (1 - y / radius * (y / radius)) = h / radius).
  { replace (1 - y / radius * (y / radius)) with ((h / radius) * (h / radius)).
    - apply sqrt_square. apply Rlt_le, Rdiv_lt_0_compat; assumption.
    - field_simplify_eq; [lra | lra]. }
  rewrite Hsin.
  generalize (Rmax OrbitControls.minDistance
                   (Rmin OrbitControls.maxDistance radius)); intros r'.
  f_equal; field; try split; lra.
Qed.

(** A camera within the limits is left where it is. *)
Lemma update_undisturbed (target position : Vector3.t) :
  OrbitControls.undisturbed target position ->
  OrbitControls.update target position = position.
Proof.
  unfold OrbitControls.undisturbed; cbv zeta. intros [[Hmin Hmax] Hcone].
  unfold OrbitControls.minDistance, OrbitControls.maxDistance in *.
  rewrite update_scaled; [|lra | exact Hcone].
  unfold OrbitControls.minDistance, OrbitControls.maxDistance.
  rewrite Rmax_right, Rmin_right by (try apply Rmin_glb; lra).
  unfold Rdiv. rewrite Rinv_r by lra.
  destruct position as [px py pz], target as [tx ty tz]; simpl.
  f_equal; lra.
Qed.

(** The limits of the controls, in squares: between 10 and 2000 from the
    target, and the height of the camera over the target at most nine
    tenths of its distance. *)
Lemma undisturbed_by_squares (target position : Vector3.t) :
  let x := Vector3.x position - Vector3.x target in
  let y := Vector3.y position - Vector3.y target in
  let z := Vector3.z position - Vector3.z target in
  100 <= x * x + y * y + z * z <= 4000000 ->
  y * y <= 0.81 * (x * x + y * y + z * z) ->
  OrbitControls.undisturbed target position.
Proof.
  cbv zeta. unfold OrbitControls.undisturbed, Vector3.distanceTo.
  set (x := Vector3.x position - Vector3.x target).
  set (y := Vector3.y position - Vector3.y target).
  set (z := Vector3.z position - Vector3.z target).
  set (d := x * x + y * y + z * z).
  intros [Hlo Hhi] Hy. cbv zeta.
  unfold OrbitControls.minDistance, OrbitControls.maxDistance.
  assert (Hd : sqrt d * sqrt d = d) by (apply sqrt_sqrt; lra).
  assert (Hr : 0 <= sqrt d) by apply sqrt_pos.
  pose proof cos_EPS_bounds as Hc.
  remember (cos OrbitControls.EPS) as c eqn:Hceq.
  remember (sqrt d) as r eqn:Hreq.
  assert (Hr10 : 10 <= r) by nra.
  assert (Hr2000 : r <= 2000) by nra.
  assert (Hyr : y * y <= (0.9 * r) * (0.9 * r)) by nra.
  assert (Habs : - (0.9 * r) <= y <= 0.9 * r) by (split; nra).
  repeat split; nra.
Qed.

(** *** The follow block *)

Lemma animate_camera (now : R) (s : SolarSystem) (i : nat) (target : Mesh) :
  isPaused s = false ->
  followTarget s = Some i ->
  nth_error (planets (animate now s)) i = Some target ->
  camera_position (animate now s)
  = OrbitControls.update (position target)
                         (follow (position target) (camera_position s)).
Proof.
  intros Hrun Hfollow. unfold animate; simpl; rewrite Hrun, Hfollow.
  destruct (planets_forEach _ _ _ _) as [ps rings]; simpl.
  now intros ->.
Qed.

(** Without a follow target the frame only lets the controls look at the
    camera. *)
Lemma animate_camera_free (now : R) (s : SolarSystem) :
  isPaused s = false ->
  followTarget s = None ->
  camera_position (animate now s)
  = OrbitControls.update (controls_target s) (camera_position s)
  /\ controls_target (animate now s) = controls_target s.
Proof.
  intros Hrun Hfollow. unfold animate; simpl; rewrite Hrun, Hfollow.
  destruct (planets_forEach _ _ _ _) as [ps rings]; simpl. now split.
Qed.

Lemma init_camera (now : R) :
  camera_position (init now) = Vector3.mk 0 100 300
  /\ controls_target (init now) = Vector3.zero.
Proof.
  unfold init.
  destruct (animate_camera_free now
              (createMoon (loadAllPlanets (createSun (createStarField constructed)))))
    as [-> ->]; try reflexivity.
  split; [|reflexivity].
  apply update_undisturbed.
  apply undisturbed_by_squares; cbn; lra.
Qed.

(** The texture callbacks and the handlers other than the pinch leave the
    camera and the controls' target alone. *)
Lemma loadPlanet_register_camera (mat : Material) (n : string) (sz d os rs : R)
      (pd : PlanetFacts) (gr : R) (c : Chance) (s : SolarSystem) :
  camera_position (loadPlanet_register mat n sz d os rs pd gr c s)
  = camera_position s
  /\ controls_target (loadPlanet_register mat n sz d os rs pd gr c s)
     = controls_target s.
Proof.
  unfold loadPlanet_register.
  destruct (n =? "Saturn")%string; simpl; destruct (showOrbits s); split;
    reflexivity.
Qed.

Lemma handle_camera (s : SolarSystem) (e : Event) :
  match e with
  | AnimationFrame _ | PinchZoom _ => True
  | _ => camera_position (handle s e) = camera_position s
         /\ controls_target (handle s e) = controls_target s
  end.
Proof.
  destruct e; try exact I; try (split; reflexivity); simpl.
  - destruct (take path (loading s)) as [[p rest]|]; [|now split].
    destruct p; try (split; reflexivity).
    apply (loadPlanet_register_camera _ _ _ _ _ _ _ _ _ (set_loading rest s)).
  - destruct (take path (loading s)) as [[p rest]|]; [|now split].
    destruct p; try (split; reflexivity).
    apply (loadPlanet_register_camera _ _ _ _ _ _ _ _ _ (set_loading rest s)).
  - unfold mobileTap. destruct hit as [j|]; [|now split].
    destruct (nth_error (planets s) j); now split.
Qed.


Lemma frames_snoc (nows : list R) (now : R) (s : SolarSystem) :
  frames (nows ++ [now]) s = animate now (frames nows s).
Proof. unfold frames; now rewrite fold_left_app. Qed.

Lemma frames_followTarget (nows : list R) (s : SolarSystem) :
  followTarget (frames nows s) = followTarget s.
Proof.
  induction nows as [|now nows IH] using rev_ind; auto.
  now rewrite frames_snoc, animate_followTarget.
Qed.

Lemma frames_length (nows : list R) (s : SolarSystem) :
  List.length (planets (frames nows s)) = List.length (planets s).
Proof.
  induction nows as [|now nows IH] using rev_ind; auto.
  rewrite frames_snoc, <- IH.
  rewrite <- (length_map identity), animate_identity. apply length_map.
Qed.

(** Where [n] follow steps towards a fixed point leave the camera. *)
Lemma iter_follow (p c : Vector3.t) (n : nat) :
  let goal := Vector3.add p followOffset in
  let c' := Nat.iter n (follow p) c in
  Vector3.x c' = Vector3.x goal + 0.95 ^ n * (Vector3.x c - Vector3.x goal)
  /\ Vector3.y c' = Vector3.y goal + 0.95 ^ n * (Vector3.y c - Vector3.y goal)
  /\ Vector3.z c' = Vector3.z goal + 0.95 ^ n * (Vector3.z c - Vector3.z goal).
Proof.
  induction n as [|n IH]; cbv zeta in *;
    unfold Vector3.add, followOffset in *; simpl in *.
  - repeat split; lra.
  - destruct IH as (Hx & Hy & Hz). rewrite Hx, Hy, Hz.
    generalize (0.95 ^ n); intros k. repeat split; lra.
Qed.

Lemma pow_095_range (n : nat) : 0 < 0.95 ^ S n < 1.
Proof.
  split; [apply pow_lt; lra|].
  induction n as [|n IH]; [simpl; lra|].
  change (0.95 ^ S (S n)) with (0.95 * 0.95 ^ S n).
  assert (0 < 0.95 ^ S n) by (apply pow_lt; lra). nra.
Qed.

(** The point a fraction [k] of the way back from [goal] to [c]. *)
Lemma iter_follow_segment (p c : Vector3.t) (n : nat) :
  let goal := Vector3.mk (Vector3.x p + 50) (Vector3.y p + 30) (Vector3.z p + 50) in
  Nat.iter n (follow p) c
  = Vector3.mk (Vector3.x goal + 0.95 ^ n * (Vector3.x c - Vector3.x goal))
               (Vector3.y goal + 0.95 ^ n * (Vector3.y c - Vector3.y goal))
               (Vector3.z goal + 0.95 ^ n * (Vector3.z c - Vector3.z goal)).
Proof.
  cbv zeta. destruct (iter_follow p c n) as (Hx & Hy & Hz).
  apply vector3_eq; assumption.
Qed.

Lemma frames_camera (nows : list R) (s : SolarSystem) (i : nat) (p : Vector3.t) :
  isPaused s = false ->
  followTarget s = Some i ->
  (i < List.length (planets s))%nat ->
  stationary s i p ->
  (forall n, OrbitControls.undisturbed
               p (Nat.iter (S n) (follow p) (camera_position s))) ->
  camera_position (frames nows s) =
  Nat.iter (List.length nows) (follow p) (camera_position s).
Proof.
  intros Hrun Hfollow Hi Hstay Hfree.
  induction nows as [|now nows IH] using rev_ind; auto.
  rewrite length_app, Nat.add_comm; simpl.
  pose proof (Hfree (List.length nows)) as Hf. simpl in Hf.
  rewrite <- (update_undisturbed p _ Hf), <- IH.
  destruct (nth_error (planets (frames (nows ++ [now]) s)) i) as [b|] eqn:E.
  - rewrite <- (Hstay _ _ E). rewrite frames_snoc in *.
    apply animate_camera with (i := i); auto.
    + now rewrite frames_isPaused.
    + now rewrite frames_followTarget.
  - apply nth_error_None in E. rewrite frames_length in E. lia.
Qed.

Lemma scaled_distance (g : Vector3.t) (k dx dy dz : R) :
  0 <= k ->
  Vector3.distanceTo
    (Vector3.mk (Vector3.x g + k * dx) (Vector3.y g + k * dy)
                (Vector3.z g + k * dz)) g
  = k * sqrt (dx * dx + dy * dy + dz * dz).
Proof.
  intros Hk. unfold Vector3.distanceTo; simpl.
  replace ((Vector3.x g + k * dx - Vector3.x g) * (Vector3.x g + k * dx - Vector3.x g)
           + (Vector3.y g + k * dy - Vector3.y g) * (Vector3.y g + k * dy - Vector3.y g)
           + (Vector3.z g + k * dz - Vector3.z g) * (Vector3.z g + k * dz - Vector3.z g))
    with ((k * k) * (dx * dx + dy * dy + dz * dz)) by ring.
  rewrite sqrt_mult_alt by nra.
  now rewrite sqrt_square.
Qed.

(** C5, as the code has it.  With a follow target set, a frame moves the
    camera by [lerp] with factor 0.05 towards the target's new position
    plus [(50, 30, 50)], and [controls.update()] then leaves it there as
    long as that point is within the limits of the controls: between
    [minDistance] 10 and [maxDistance] 2000 from the target and not
    straight above or below it; in any case the camera ends within these
    distances of the target.  For a target that stays at [p], and a camera
    whose way to [p + (50, 30, 50)] lies within the limits, every
    coordinate of the camera's offset from that point, and so its distance
    to it, is multiplied by 0.95 in every frame; the distance falls below
    any tolerance after finitely many frames and never becomes 0 when it
    was not 0 at the start. *)
Theorem camera_follow (s : SolarSystem) (now : R) (i : nat) (target : Mesh) :
  isPaused s = false ->
  followTarget s = Some i ->
  nth_error (planets (animate now s)) i = Some target ->
  let c := camera_position s in
  (let t := position target in
   let goal := Vector3.mk (Vector3.x t + 50) (Vector3.y t + 30) (Vector3.z t + 50) in
   let lerped :=
     Vector3.mk (Vector3.x c + (Vector3.x goal - Vector3.x c) * 0.05)
                (Vector3.y c + (Vector3.y goal - Vector3.y c) * 0.05)
                (Vector3.z c + (Vector3.z goal - Vector3.z c) * 0.05) in
   (OrbitControls.undisturbed t lerped -> camera_position (animate now s) = lerped)
   /\ 10 <= Vector3.distanceTo (camera_position (animate now s)) t <= 2000)
  /\ forall p : Vector3.t,
      stationary s i p ->
      let goal := Vector3.mk (Vector3.x p + 50) (Vector3.y p + 30) (Vector3.z p + 50) in
      (forall k, 0 < k < 1 ->
         OrbitControls.undisturbed
           p (Vector3.mk (Vector3.x goal + k * (Vector3.x c - Vector3.x goal))
                         (Vector3.y goal + k * (Vector3.y c - Vector3.y goal))
                         (Vector3.z goal + k * (Vector3.z c - Vector3.z goal)))) ->
      (forall nows,
          let k := 0.95 ^ List.length nows in
          camera_position (frames nows s)
          = Vector3.mk (Vector3.x goal + k * (Vector3.x c - Vector3.x goal))
                       (Vector3.y goal + k * (Vector3.y c - Vector3.y goal))
                       (Vector3.z goal + k * (Vector3.z c - Vector3.z goal))
          /\ Vector3.distanceTo (camera_position (frames nows s)) goal
             = k * Vector3.distanceTo c goal)
      /\ (forall eps, 0 < eps ->
          exists N, forall nows,
              (N <= List.length nows)%nat ->
              Vector3.distanceTo (camera_position (frames nows s)) goal < eps)
      /\ (c <> goal -> forall nows, camera_position (frames nows s) <> goal).
Proof.
  intros Hrun Hfollow Htarget c. split.
  - cbv zeta. rewrite (animate_camera now s i target Hrun Hfollow Htarget).
    split.
    + intros Hfree.
      etransitivity; [|apply (update_undisturbed _ _ Hfree)]. reflexivity.
    + apply update_within_limits.
  - intros p Hstay goal Hway.
    assert (Hi : (i < List.length (planets s))%nat).
    { rewrite <- (frames_length [now] s). apply nth_error_Some.
      change (frames [now] s) with (animate now s). congruence. }
    assert (Hcam : forall nows,
               camera_position (frames nows s)
               = Vector3.mk
                   (Vector3.x goal + 0.95 ^ List.length nows * (Vector3.x c - Vector3.x goal))
                   (Vector3.y goal + 0.95 ^ List.length nows * (Vector3.y c - Vector3.y goal))
                   (Vector3.z goal + 0.95 ^ List.length nows * (Vector3.z c - Vector3.z goal))).
    { intros nows. rewrite <- (iter_follow_segment p c).
      apply frames_camera with (i := i); auto.
      intros n. rewrite (iter_follow_segment p (camera_position s)).
      apply Hway, pow_095_range. }
    assert (Hdist : forall nows,
               Vector3.distanceTo (camera_position (frames nows s)) goal =
               0.95 ^ List.length nows * Vector3.distanceTo c goal).
    { intros nows. rewrite Hcam. apply scaled_distance. apply pow_le; lra. }
    split; [intros nows; split; [apply Hcam | apply Hdist]|]. split.
    + intros eps Heps.
      set (d := Vector3.distanceTo c goal).
      assert (Hd : 0 <= d) by apply sqrt_pos.
      destruct (pow_lt_1_zero 0.95) with (y := eps / (d + 1)) as [N HN].
      * rewrite Rabs_pos_eq; lra.
      * apply Rdiv_lt_0_compat; lra.
      * exists N. intros nows Hn. rewrite Hdist. fold d.
        specialize (HN (List.length nows) Hn).
        rewrite Rabs_pos_eq in HN by (apply pow_le; lra).
        assert (Hpow : 0 <= 0.95 ^ List.length nows) by (apply pow_le; lra).
        apply Rle_lt_trans with (0.95 ^ List.length nows * (d + 1)); [nra|].
        apply Rmult_lt_reg_r with (/ (d + 1)).
        { apply Rinv_0_lt_compat; lra. }
        rewrite Rmult_assoc, Rinv_r by lra. lra.
    + intros Hne nows Heq. rewrite Hcam in Heq.
      assert (Hk : 0 < 0.95 ^ List.length nows) by (apply pow_lt; lra).
      assert (Hzero : forall a g, g + 0.95 ^ List.length nows * (a - g) = g -> a = g).
      { intros a g H.
        assert (H0 : 0.95 ^ List.length nows * (a - g) = 0) by lra.
        apply Rmult_integral in H0 as [H0 | H0]; lra. }
      apply Hne. rewrite <- (vector3_eta goal).
      apply vector3_eq; apply Hzero.
      * exact (f_equal Vector3.x Heq).
      * exact (f_equal Vector3.y Heq).
      * exact (f_equal Vector3.z Heq).
Qed.

Lemma following_earth_planets : planets following_earth = [earthMesh].
Proof. reflexivity. Qed.

Lemma following_earth_stationary :
  stationary following_earth 0 (Vector3.mk 100 0 0).
Proof.
  intros nows body Hb.
  rewrite frames_zero_settled, following_earth_planets in Hb.
  - injection Hb as <-. reflexivity.
  - reflexivity.
  - rewrite following_earth_planets. exact earthMesh_settled.
Qed.

(** Events other than a frame and a pinch leave the camera alone. *)
Lemma run_camera (events : list Event) (s : SolarSystem) :
  Forall (fun e => match e with
                   | AnimationFrame _ | PinchZoom _ => False
                   | _ => True
                   end) events ->
  camera_position (run events s) = camera_position s
  /\ controls_target (run events s) = controls_target s.
Proof.
  revert s; induction events as [|e events IH]; intros s Hq; [now split|].
  inversion Hq as [|? ? He Hrest]; subst.
  change (run (e :: events) s) with (run events (handle s e)).
  destruct (IH (handle s e) Hrest) as [-> ->].
  pose proof (handle_camera s e) as H. destruct e; try contradiction; exact H.
Qed.

Lemma following_earth_camera :
  camera_position following_earth = Vector3.mk 0 100 300.
Proof.
  unfold following_earth.
  destruct (run_camera [SpeedInput 0;
                        TextureLoaded "textures/earth.jpg" no_chance;
                        FollowPlanetChange "Earth"] (init 0)) as [-> _].
  - repeat constructor.
  - exact (proj1 (init_camera 0)).
Qed.

Lemma camera_follow_witness :
  camera_position (animate 16 following_earth) = Vector3.mk 7.5 96.5 287.5
  /\ (forall nows,
         camera_position (frames nows following_earth)
         = Vector3.mk (150 - 0.95 ^ List.length nows * 150)
                      (30 + 0.95 ^ List.length nows * 70)
                      (50 + 0.95 ^ List.length nows * 250))
  /\ (forall nows,
         Vector3.distanceTo (camera_position (frames nows following_earth))
                            (Vector3.mk 150 30 50)
         = 0.95 ^ List.length nows
           * Vector3.distanceTo (Vector3.mk 0 100 300) (Vector3.mk 150 30 50))
  /\ (forall eps, 0 < eps ->
      exists N, forall nows,
          (N <= List.length nows)%nat ->
          Vector3.distanceTo (camera_position (frames nows following_earth))
                             (Vector3.mk 150 30 50) < eps)
  /\ (forall nows,
         camera_position (frames nows following_earth) <> Vector3.mk 150 30 50).
Proof.
  assert (Htarget : nth_error (planets (animate 16 following_earth)) 0
                    = Some (star_step 0 earthMesh)) by reflexivity.
  assert (Hpos : position (star_step 0 earthMesh) = Vector3.mk 100 0 0)
    by exact (following_earth_stationary [16] _ Htarget).
  destruct (camera_follow following_earth 16 0 (star_step 0 earthMesh)
              eq_refl eq_refl Htarget) as [[Hlerp _] Hconv].
  cbv zeta in Hlerp, Hconv.
  rewrite Hpos, following_earth_camera in Hlerp.
  rewrite following_earth_camera in Hconv.
  specialize (Hconv (Vector3.mk 100 0 0) following_earth_stationary).
  cbn [Vector3.x Vector3.y Vector3.z] in Hlerp, Hconv.
  assert (Hgoal : Vector3.mk (100 + 50) (0 + 30) (0 + 50) = Vector3.mk 150 30 50)
    by (f_equal; lra).
  rewrite Hgoal in Hconv.
  destruct Hconv as (Hcam & Heps & Hnever).
  { intros k Hk. apply undisturbed_by_squares;
      cbn [Vector3.x Vector3.y Vector3.z]; [split|]; nra. }
  split; [|split; [|split; [|split]]].
  - rewrite Hlerp.
    + f_equal; lra.
    + apply undisturbed_by_squares; cbn [Vector3.x Vector3.y Vector3.z]; lra.
  - intros nows. destruct (Hcam nows) as [-> _]. f_equal; lra.
  - intros nows. now destruct (Hcam nows) as [_ ->].
  - exact Heps.
  - apply Hnever. intros H. apply (f_equal Vector3.x) in H. simpl in H. lra.
Defined.

Lemma far_neptune_reachable : reachable far_neptune.
Proof.
  apply reachable_run; [apply reachable_init | repeat constructor; simpl; lra].
Qed.

Lemma run_app (events events' : list Event) (s : SolarSystem) :
  run (events ++ events') s = run events' (run events s).
Proof. unfold run. apply fold_left_app. Qed.

Lemma handle_pinch_camera (s : SolarSystem) (zoomFactor : R) :
  camera_position (run [PinchZoom zoomFactor] s)
  = OrbitControls.update
      (controls_target s)
      (Vector3.multiplyScalar (camera_position s) (1 / zoomFactor))
  /\ controls_target (run [PinchZoom zoomFactor] s) = controls_target s.
Proof. split; reflexivity. Qed.

Lemma far_neptune_camera :
  camera_position far_neptune = Vector3.mk 0 625 1875
  /\ controls_target far_neptune = Vector3.zero.
Proof.
  unfold far_neptune.
  change [SpeedInput 0; PinchZoom 0.16;
          TextureLoaded "textures/neptune.jpg"
                        (mkChance (3 / 4) (fun _ => ([], [])));
          AnimationFrame 0; FollowPlanetChange "Neptune"]
    with ([SpeedInput 0] ++ [PinchZoom 0.16]
          ++ [TextureLoaded "textures/neptune.jpg"
                            (mkChance (3 / 4) (fun _ => ([], [])))]
          ++ [AnimationFrame 0] ++ [FollowPlanetChange "Neptune"]).
  rewrite !run_app.
  set (pinched := run [PinchZoom 0.16] (run [SpeedInput 0] (init 0))).
  set (loaded := run [TextureLoaded "textures/neptune.jpg"
                                    (mkChance (3 / 4) (fun _ => ([], [])))]
                     pinched).
  assert (Hpinched : camera_position pinched = Vector3.mk 0 625 1875
                     /\ controls_target pinched = Vector3.zero).
  { unfold pinched.
    destruct (handle_pinch_camera (run [SpeedInput 0] (init 0)) 0.16) as [-> ->].
    destruct (run_camera [SpeedInput 0] (init 0)) as [-> ->];
      [repeat constructor|].
    destruct (init_camera 0) as [-> ->]. split; [|reflexivity].
    rewrite update_undisturbed.
    - unfold Vector3.multiplyScalar; simpl. f_equal; lra.
    - apply undisturbed_by_squares; unfold Vector3.multiplyScalar, Vector3.zero;
        cbn [Vector3.x Vector3.y Vector3.z]; lra. }
  assert (Hloaded : camera_position loaded = Vector3.mk 0 625 1875
                    /\ controls_target loaded = Vector3.zero).
  { unfold loaded.
    destruct (run_camera [TextureLoaded "textures/neptune.jpg"
                                        (mkChance (3 / 4) (fun _ => ([], [])))]
                         pinched) as [-> ->]; [repeat constructor|].
    exact Hpinched. }
  destruct (run_camera [FollowPlanetChange "Neptune"]
                       (run [AnimationFrame 0] loaded)) as [-> ->];
    [repeat constructor|].
  change (run [AnimationFrame 0] loaded) with (animate 0 loaded).
  destruct (animate_camera_free 0 loaded) as [-> ->]; try reflexivity.
  destruct Hloaded as [-> ->]. split; [|reflexivity].
  apply update_undisturbed.
  apply undisturbed_by_squares; unfold Vector3.zero;
    cbn [Vector3.x Vector3.y Vector3.z]; lra.
Qed.

Lemma far_neptune_planets : planets far_neptune = [neptuneMesh].
Proof. reflexivity. Qed.

Lemma neptuneMesh_position : position neptuneMesh = Vector3.mk 0 0 (-550).
Proof.
  unfold neptuneMesh, star_step, spin, orbit, planetMesh; simpl.
  replace (3 / 4 * PI * 2 + 0.0001 * 0) with (3 * (PI / 2)) by lra.
  rewrite cos_3PI2, sin_3PI2. f_equal; lra.
Qed.

Lemma far_neptune_stationary :
  stationary far_neptune 0 (Vector3.mk 0 0 (-550)).
Proof.
  intros nows body Hb.
  rewrite frames_zero_settled, far_neptune_planets in Hb.
  - injection Hb as <-. exact neptuneMesh_position.
  - reflexivity.
  - rewrite far_neptune_planets. repeat constructor; reflexivity.
Qed.

Lemma sqrt_lt_scaled (a b k : R) :
  0 <= a -> 0 <= k -> a < k * k * b -> sqrt a < k * sqrt b.
Proof.
  intros Ha Hk Hab.
  assert (Hb : 0 <= b) by nra.
  rewrite <- (sqrt_square k) at 1 by exact Hk.
  rewrite <- sqrt_mult_alt by nra.
  apply sqrt_lt_1_alt. lra.
Qed.

(** C5 as the spec has it fails where the limits of the controls are met.
    The camera is at [(0, 625, 1875)] after a pinch; Neptune stands still
    at [(0, 0, -550)] and is followed.  The interpolation of the next
    frame leads to [(2.5, 595.25, 1756.25)], which is more than 2000 from
    Neptune, and [controls.update()] takes the camera from there to
    distance 2000: the camera does not end at the interpolated point, and
    its distance to Neptune's position plus [(50, 30, 50)] has shrunk by
    more than the factor 0.95. *)
Lemma follow_is_clamped :
  reachable far_neptune
  /\ isPaused far_neptune = false
  /\ followTarget far_neptune = Some 0%nat
  /\ stationary far_neptune 0 (Vector3.mk 0 0 (-550))
  /\ camera_position far_neptune = Vector3.mk 0 625 1875
  /\ Vector3.mk (0 + (0 + 50 - 0) * 0.05) (625 + (0 + 30 - 625) * 0.05)
                (1875 + (-550 + 50 - 1875) * 0.05)
     = Vector3.mk 2.5 595.25 1756.25
  /\ Vector3.distanceTo (camera_position (animate 16 far_neptune))
                        (Vector3.mk 0 0 (-550)) = 2000
  /\ camera_position (animate 16 far_neptune) <> Vector3.mk 2.5 595.25 1756.25
  /\ Vector3.distanceTo (camera_position (animate 16 far_neptune))
                        (Vector3.mk 50 30 (-500))
     < 0.95 * Vector3.distanceTo (camera_position far_neptune)
                                 (Vector3.mk 50 30 (-500)).
Proof.
  destruct far_neptune_camera as [Hcam _].
  assert (Htarget : nth_error (planets (animate 16 far_neptune)) 0
                    = Some (star_step 0 neptuneMesh)) by reflexivity.
  assert (Hpos : position (star_step 0 neptuneMesh) = Vector3.mk 0 0 (-550))
    by exact (far_neptune_stationary [16] _ Htarget).
  assert (Hupdate : camera_position (animate 16 far_neptune)
                    = OrbitControls.update (Vector3.mk 0 0 (-550))
                                           (Vector3.mk 2.5 595.25 1756.25)).
  { rewrite (animate_camera 16 far_neptune 0 (star_step 0 neptuneMesh)
               eq_refl eq_refl Htarget), Hpos, Hcam.
    f_equal. unfold follow, Vector3.lerp, Vector3.add, followOffset; simpl.
    f_equal; lra. }
  (* the interpolated point is [r > 2000] from Neptune *)
  set (d := (2.5 - 0) * (2.5 - 0) + (595.25 - 0) * (595.25 - 0)
            + (1756.25 - -550) * (1756.25 - -550)).
  assert (Hd : d = 5673117.875) by (unfold d; lra).
  assert (Hr : sqrt d * sqrt d = d) by (apply sqrt_sqrt; lra).
  assert (Hr0 : 0 <= sqrt d) by apply sqrt_pos.
  assert (Hbig : 2306.25 <= sqrt d) by nra.
  assert (Hclamp : Rmax 10 (Rmin 2000 (sqrt d)) = 2000).
  { rewrite Rmin_left by lra. apply Rmax_right. lra. }
  split; [exact far_neptune_reachable|].
  split; [reflexivity|]. split; [reflexivity|].
  split; [exact far_neptune_stationary|]. split; [exact Hcam|].
  split; [f_equal; lra|].
  assert (Hdist : Vector3.distanceTo (camera_position (animate 16 far_neptune))
                                     (Vector3.mk 0 0 (-550)) = 2000).
  { rewrite Hupdate, update_distanceTo.
    unfold OrbitControls.minDistance, OrbitControls.maxDistance.
    exact Hclamp. }
  split; [exact Hdist|]. split.
  - intros Heq. rewrite Heq in Hdist.
    unfold Vector3.distanceTo in Hdist;
      cbn [Vector3.x Vector3.y Vector3.z] in Hdist.
    fold d in Hdist. rewrite Hdist in Hr. lra.
  - rewrite Hupdate, Hcam, update_scaled.
    + unfold Vector3.distanceTo, OrbitControls.minDistance,
        OrbitControls.maxDistance; cbn [Vector3.x Vector3.y Vector3.z].
      fold d. rewrite Hclamp.
      set (f := 2000 / sqrt d).
      assert (Hf : 0 < f) by (apply Rdiv_lt_0_compat; lra).
      assert (Hf1 : f * sqrt d = 2000) by (unfold f; field; lra).
      assert (Hf2 : 2306.25 * f <= 2000) by nra.
      assert (Hf3 : f < 1) by nra.
      apply sqrt_lt_scaled; [nra | lra |].
      assert (Hx : (0 + (2.5 - 0) * f - 50) * (0 + (2.5 - 0) * f - 50) <= 2500)
        by nra.
      assert (Hy : (0 + (595.25 - 0) * f - 30) * (0 + (595.25 - 0) * f - 30)
                   <= 565.25 * 565.25) by nra.
      assert (Hz : (-550 + (1756.25 - -550) * f - -500)
                   * (-550 + (1756.25 - -550) * f - -500) <= 1950 * 1950) by nra.
      lra.
    + unfold Vector3.distanceTo; cbn [Vector3.x Vector3.y Vector3.z].
      fold d. lra.
    + unfold Vector3.distanceTo; cbn [Vector3.x Vector3.y Vector3.z].
      fold d. pose proof cos_EPS_bounds. split; nra.
Qed.

(** ** C6: the rings *)

Lemma nth_error_identity (ps qs : list Mesh) (j : nat) (q : Mesh) :
  map identity ps = map identity qs ->
  nth_error qs j = Some q ->
  exists p, nth_error ps j = Some p /\ identity p = identity q.
Proof.
  intros H Hq.
  assert (Hj : nth_error (map identity ps) j = Some (identity q))
    by (rewrite H, nth_error_map, Hq; reflexivity).
  rewrite nth_error_map in Hj.
  destruct (nth_error ps j) as [p|]; try discriminate.
  exists p; split; [reflexivity|].
  apply (f_equal (fun o => match o with Some d => d | None => identity q end)) in Hj.
  exact Hj.
Qed.

(** Visits of bodies that are not named Saturn leave the rings alone. *)
Lemma visits_rings_untouched (now v : R) (idxs : list nat)
      (st : list Mesh * option (list RingObject)) :
  (forall j q, In j idxs -> nth_error (fst st) j = Some q ->
               name (userData q) <> "Saturn") ->
  snd (visits now v idxs st) = snd st.
Proof.
  revert st; induction idxs as [|i idxs IH]; intros st H; auto.
  rewrite visits_cons, IH.
  - destruct st as [ps rings]; simpl.
    destruct (nth_error ps i) as [p|] eqn:E; auto; simpl.
    assert (Hp : name (userData p) <> "Saturn")
      by (apply (H i p); simpl; auto).
    apply String.eqb_neq in Hp. now rewrite Hp.
  - intros j q Hj Hq.
    destruct (nth_error_identity (fst st) _ j q
                (eq_sym (visit_identity now v st i)) Hq) as (p & Hp & Hid).
    rewrite <- (identity_name _ _ Hid). apply (H j p); simpl; auto.
Qed.

(** With one body named Saturn in the registry, every ring object takes
    one step per frame. *)
Lemma forEach_rings (now v : R) (ps : list Mesh) (rings : option (list RingObject))
      (i : nat) (saturn : Mesh) :
  nth_error ps i = Some saturn ->
  name (userData saturn) = "Saturn" ->
  (forall j q, nth_error ps j = Some q -> name (userData q) = "Saturn" -> j = i) ->
  snd (planets_forEach now v ps rings) =
  option_map (map (ring_step now v)) rings.
Proof.
  intros Hi Hname Honly.
  assert (Hlen : (i < List.length ps)%nat) by (apply nth_error_Some; congruence).
  assert (Hother : forall idxs st,
             map identity (fst st) = map identity ps ->
             ~ In i idxs ->
             snd (visits now v idxs st) = snd st).
  { intros idxs st Hst Hidxs. apply visits_rings_untouched.
    intros j q Hj Hq Hsat.
    destruct (nth_error_identity ps _ j q (eq_sym Hst) Hq) as (p & Hp & Hid).
    apply Hidxs. rewrite <- (Honly j p Hp); auto.
    now rewrite (identity_name _ _ Hid). }
  unfold planets_forEach.
  replace (List.length ps) with (i + S (List.length ps - S i))%nat by lia.
  rewrite seq_app, visits_app. simpl seq. rewrite visits_cons.
  rewrite Hother.
  - destruct (visits now v (seq 0 i) (ps, rings)) as [qs rs] eqn:E.
    assert (Hrs : rs = rings).
    { change rs with (snd (qs, rs)); rewrite <- E.
      rewrite Hother; auto. rewrite in_seq; lia. }
    assert (Hqs : nth_error qs i = Some saturn).
    { change qs with (fst (qs, rs)); rewrite <- E.
      rewrite visits_untouched; auto. rewrite in_seq; lia. }
    simpl. rewrite Hqs, Hname, Hrs. reflexivity.
  - rewrite visit_identity. apply visits_identity.
  - rewrite in_seq; lia.
Qed.

Lemma ring_step_rotation_z (now v w : R) (ring : RingObject) :
  object_type ring = MeshType ->
  ring_rotationSpeed (ring_userData ring) = Some w ->
  ring_rotation_z (ring_step now v ring) = ring_rotation_z ring + w * v.
Proof.
  intros Htype Hspeed. unfold ring_step, truthy. rewrite Hspeed, Htype.
  destruct (Req_dec_T w 0) as [-> | _]; [lra|].
  destruct (isGlow (ring_userData ring)); reflexivity.
Qed.

Lemma orbit_rotation (ps : list Mesh) (v : R) (p : Mesh) :
  rotation_y (spin v (orbit ps v p)) = rotation_y p + rotationSpeed (userData p) * v.
Proof.
  unfold spin, orbit. destruct (parent_is "Earth" (userData p)).
  - destruct (find_planet "Earth" ps); reflexivity.
  - destruct (negb (name (userData p) =? "Moon")%string); reflexivity.
Qed.

(** C6.  A ring segment built by [create3DRingSegment] turns by
    [speed * animationSpeed] in every frame, whatever the spin speed of the
    planet; with positive speeds its angle grows, also when the planet
    spins backwards and the planet's own angle falls. *)
Theorem ring_rotation_independent
        (s : SolarSystem) (now : R) (i k n : nat) (saturn : Mesh)
        (rings : list RingObject) (ring : RingObject) (seg : Segment) :
  isPaused s = false ->
  nth_error (planets s) i = Some saturn ->
  name (userData saturn) = "Saturn" ->
  (forall j q, nth_error (planets s) j = Some q ->
               name (userData q) = "Saturn" -> j = i) ->
  saturnRings s = Some rings ->
  nth_error rings k = Some ring ->
  object_type ring = MeshType ->
  ring_userData ring = ring_userData (create3DRingSegment seg n) ->
  exists saturn' rings' ring',
    nth_error (planets (animate now s)) i = Some saturn'
    /\ saturnRings (animate now s) = Some rings'
    /\ nth_error rings' k = Some ring'
    /\ ring_rotation_z ring' = ring_rotation_z ring + speed seg * animationSpeed s
    /\ rotation_y saturn' =
       rotation_y saturn + rotationSpeed (userData saturn) * animationSpeed s
    /\ (0 < animationSpeed s -> 0 < speed seg ->
        ring_rotation_z ring < ring_rotation_z ring'
        /\ (rotationSpeed (userData saturn) < 0 ->
            rotation_y saturn' < rotation_y saturn)).
Proof.
  intros Hrun Hi Hname Honly Hrings Hk Htype Hud.
  set (v := animationSpeed s).
  set (qs := fst (visits now v (seq 0 i) (planets s, saturnRings s))).
  exists (spin v (orbit qs v saturn)),
         (map (ring_step now v) rings), (ring_step now v ring).
  assert (Hz : ring_rotation_z (ring_step now v ring) =
               ring_rotation_z ring + speed seg * v).
  { apply ring_step_rotation_z; auto. now rewrite Hud. }
  assert (Hy : rotation_y (spin v (orbit qs v saturn)) =
               rotation_y saturn + rotationSpeed (userData saturn) * v)
    by apply orbit_rotation.
  split; [rewrite animate_planets by assumption; now apply forEach_nth|].
  split.
  { rewrite animate_saturnRings by assumption.
    rewrite (forEach_rings _ _ _ _ i saturn), Hrings; auto. }
  split; [now rewrite nth_error_map, Hk|].
  split; [exact Hz|]. split; [exact Hy|].
  intros Hv Hw. rewrite Hz, Hy. split; [nra|]. intros Hneg. nra.
Qed.

Lemma ring_rotation_independent_witness :
  exists saturn' rings' ring',
    nth_error (planets (animate 16 retrograde_saturn)) 0 = Some saturn'
    /\ saturnRings (animate 16 retrograde_saturn) = Some rings'
    /\ nth_error rings' 4 = Some ring'
    /\ 0 < ring_rotation_z ring'
    /\ rotation_y saturn' < 0.
Proof.
  destruct (ring_rotation_independent
              retrograde_saturn 16 0 4 2 saturnMesh
              (createSaturnRings (swarm no_chance))
              (create3DRingSegment ringB 2) ringB)
    as (saturn' & rings' & ring' & H1 & H2 & H3 & Hz & Hy & Hmono).
  - reflexivity.
  - reflexivity.
  - reflexivity.
  - intros [|[|j]] q Hq Hn; auto; discriminate.
  - reflexivity.
  - reflexivity.
  - reflexivity.
  - reflexivity.
  - exists saturn', rings', ring'.
    destruct Hmono as [Hring Hplanet]; [simpl; lra | simpl; lra |].
    split; [exact H1|]. split; [exact H2|]. split; [exact H3|].
    split; [exact Hring|].
    apply Hplanet. simpl; lra.
Defined.

(** ** The rings of the running program *)

Lemma NoDup_names_nth (ps : list Mesh) (i j : nat) (p q : Mesh) :
  NoDup (names ps) ->
  nth_error ps i = Some p -> nth_error ps j = Some q ->
  name (userData p) = name (userData q) -> j = i.
Proof.
  intros Hnodup Hi Hj Hname.
  assert (Hlen : (i < List.length (names ps))%nat).
  { unfold names; rewrite length_map. apply nth_error_Some; congruence. }
  symmetry. apply (proj1 (NoDup_nth_error (names ps)) Hnodup i j Hlen).
  unfold names. rewrite !nth_error_map, Hi, Hj. simpl. now rewrite Hname.
Qed.

(** In a reachable state a body named Saturn is the only one. *)
Lemma reachable_saturn_unique (s : SolarSystem) (i : nat) (saturn : Mesh) :
  reachable s ->
  nth_error (planets s) i = Some saturn ->
  name (userData saturn) = "Saturn" ->
  forall j q, nth_error (planets s) j = Some q ->
              name (userData q) = "Saturn" -> j = i.
Proof.
  intros Hs Hi Hname j q Hj Hq.
  apply (NoDup_names_nth (planets s) i j saturn q); auto.
  - now apply reachable_names_NoDup.
  - congruence.
Qed.

Lemma ring_step_shape (now v : R) (r : RingObject) :
  ring_shape (ring_step now v r) = ring_shape r.
Proof.
  unfold ring_step.
  destruct (truthy (ring_rotationSpeed (ring_userData r))); auto.
  destruct r as [[|] ry rz op ud pos vel]; simpl; auto.
  destruct (isGlow ud); reflexivity.
Qed.

Lemma visits_ring_shape (now v : R) (idxs : list nat)
      (st : list Mesh * option (list RingObject)) :
  option_map (map ring_shape) (snd (visits now v idxs st)) =
  option_map (map ring_shape) (snd st).
Proof.
  revert st; induction idxs as [|i idxs IH]; intros st; auto.
  rewrite visits_cons, IH. destruct st as [ps rings]; simpl.
  destruct (nth_error ps i) as [p|]; auto; simpl.
  destruct (name (userData p) =? "Saturn")%string; auto.
  destruct rings as [rings|]; auto; simpl.
  rewrite map_map. f_equal. apply map_ext. intros r; apply ring_step_shape.
Qed.

Lemma createSaturnRings_shape (sw sw' : nat -> list R * list R) :
  map ring_shape (createSaturnRings sw) = map ring_shape (createSaturnRings sw').
Proof. reflexivity. Qed.

Lemma loadPlanet_register_saturnRings (mat : Material) (n : string)
      (sz d os rs : R) (pd : PlanetFacts) (gr : R) (c : Chance) (s : SolarSystem) :
  saturnRings (loadPlanet_register mat n sz d os rs pd gr c s) =
  if (n =? "Saturn")%string then Some (createSaturnRings (swarm c))
  else saturnRings s.
Proof.
  unfold loadPlanet_register.
  destruct (n =? "Saturn")%string; simpl; destruct (showOrbits s); reflexivity.
Qed.

Lemma register_rings_built (mat : Material) (n : string)
      (sz d os rs : R) (pd : PlanetFacts) (gr : R) (c : Chance) (s : SolarSystem) :
  rings_built s -> rings_built (loadPlanet_register mat n sz d os rs pd gr c s).
Proof.
  intros H rings.
  rewrite loadPlanet_register_saturnRings, loadPlanet_register_planets, names_app.
  destruct (n =? "Saturn")%string eqn:E.
  - intros [= <-]. apply String.eqb_eq in E; subst n. split.
    + apply createSaturnRings_shape.
    + apply in_or_app; right; now left.
  - intros Hr. destruct (H rings Hr) as [Hshape Hin]. split; auto.
    apply in_or_app; now left.
Qed.

Lemma animate_rings_built (now : R) (s : SolarSystem) :
  rings_built s -> rings_built (animate now s).
Proof.
  intros H rings Hr.
  rewrite (names_identity _ _ (animate_identity now s)).
  destruct (isPaused s) eqn:E.
  - rewrite animate_paused in Hr by assumption. now apply H.
  - rewrite animate_saturnRings in Hr by assumption.
    pose proof (visits_ring_shape now (animationSpeed s)
                  (seq 0 (List.length (planets s))) (planets s, saturnRings s))
      as Hshape.
    fold (planets_forEach now (animationSpeed s) (planets s) (saturnRings s))
      in Hshape.
    rewrite Hr in Hshape; simpl in Hshape.
    destruct (saturnRings s) as [rings0|] eqn:E0; try discriminate.
    destruct (H rings0 E0) as [H0 Hin]. split; auto.
    simpl in Hshape. injection Hshape as ->. exact H0.
Qed.

Lemma handle_rings_built (s : SolarSystem) (e : Event) :
  rings_built s -> rings_built (handle s e).
Proof.
  intros H; destruct e; simpl; auto using animate_rings_built.
  - destruct (take path (loading s)) as [[p rest]|]; auto.
    destruct p; auto. apply register_rings_built. exact H.
    intros rings Hr. destruct (H rings Hr) as [Hshape Hin]. split; auto.
    simpl. rewrite names_app. apply in_or_app; now left.
  - destruct (take path (loading s)) as [[p rest]|]; auto.
    destruct p; auto. apply register_rings_built. exact H.
  - intros rings Hr. destruct (H rings Hr) as [Hshape Hin]. split; auto.
    simpl. unfold names in *. rewrite map_map. exact Hin.
  - unfold mobileTap. destruct hit as [i|]; auto.
    destruct (nth_error (planets s) i); auto.
Qed.

Lemma reachable_rings_built (s : SolarSystem) : reachable s -> rings_built s.
Proof.
  revert s; apply (reachable_invariant rings_built).
  - intros now rings Hr. discriminate.
  - intros; now apply handle_rings_built.
Qed.

(** The ring segment of entry [n] of [ringSegments] is entry [2 * n] of the
    assembly, the glow sheets lying in between. *)
Lemma built_segment (rings : list RingObject) (n : nat) (seg : Segment)
      (ring : RingObject) :
  map ring_shape rings = map ring_shape (createSaturnRings (fun _ => ([], []))) ->
  nth_error ringSegments n = Some seg ->
  nth_error rings (2 * n) = Some ring ->
  ring_shape ring = ring_shape (create3DRingSegment seg n).
Proof.
  intros Hshape Hseg Hring.
  assert (H : nth_error (map ring_shape rings) (2 * n) = Some (ring_shape ring))
    by (now rewrite nth_error_map, Hring).
  rewrite Hshape in H.
  do 5 (destruct n as [|n];
        [injection Hseg as <-; unfold ring_shape in *; simpl in *; congruence|]).
  destruct n; discriminate.
Qed.

(** In the running program every ring segment turns by its own speed times
    the animation speed in every frame that is not paused. *)
Lemma reachable_ring_segment_turns
      (s : SolarSystem) (now : R) (n : nat) (seg : Segment)
      (rings : list RingObject) (ring : RingObject) :
  reachable s ->
  isPaused s = false ->
  saturnRings s = Some rings ->
  nth_error ringSegments n = Some seg ->
  nth_error rings (2 * n) = Some ring ->
  exists rings' ring',
    saturnRings (animate now s) = Some rings'
    /\ nth_error rings' (2 * n) = Some ring'
    /\ ring_rotation_z ring' = ring_rotation_z ring + speed seg * animationSpeed s.
Proof.
  intros Hs Hrun Hrings Hseg Hring.
  destruct (reachable_rings_built s Hs rings Hrings) as [Hshape Hin].
  pose proof (built_segment rings n seg ring Hshape Hseg Hring) as Hbuilt.
  apply in_map_iff in Hin as (saturn & Hname & Hin).
  apply In_nth_error in Hin as [i Hi].
  exists (map (ring_step now (animationSpeed s)) rings),
         (ring_step now (animationSpeed s) ring).
  split; [|split].
  - rewrite animate_saturnRings by assumption.
    rewrite (forEach_rings _ _ _ _ i saturn), Hrings; auto.
    now apply (reachable_saturn_unique s i saturn).
  - now rewrite nth_error_map, Hring.
  - apply ring_step_rotation_z.
    + apply (f_equal fst) in Hbuilt. exact Hbuilt.
    + apply (f_equal snd) in Hbuilt. simpl in Hbuilt. now rewrite Hbuilt.
Qed.

(** ** C7: the speed slider *)

(** C7, as the code has it.  The handler of the speed slider stores the
    parsed value whatever its sign, and the next frame advances every
    star-orbiting body by [orbitSpeed] times that value. *)
Theorem speed_input_is_stored
        (s : SolarSystem) (value now : R) (i : nat) (body : Mesh) :
  isPaused s = false ->
  nth_error (planets s) i = Some body ->
  star_orbiting body ->
  animationSpeed (handle s (SpeedInput value)) = value
  /\ exists body',
      nth_error (planets (animate now (handle s (SpeedInput value)))) i = Some body'
      /\ angle (userData body') =
         angle (userData body) + orbitSpeed (userData body) * value.
Proof.
  intros Hrun Hi Hstar. split; [reflexivity|].
  exists (star_step value body). split.
  - now apply (animate_star now (speedSlider_input value s)).
  - rewrite (star_step_spec _ _ Hstar). reflexivity.
Qed.

Lemma speed_input_is_stored_witness :
  animationSpeed (handle earth_loaded (SpeedInput (-2))) = -2
  /\ exists body',
      nth_error (planets (animate 16 (handle earth_loaded (SpeedInput (-2))))) 0
      = Some body'
      /\ angle (userData body') =
         angle (userData earthMesh) + orbitSpeed (userData earthMesh) * -2.
Proof.
  apply (speed_input_is_stored earth_loaded (-2) 16 0 earthMesh).
  - reflexivity.
  - reflexivity.
  - exact earthMesh_star_orbiting.
Defined.

(** C7, as stated, fails: a negative value replaces the stored speed, and
    the next frame runs Earth backwards. *)
Lemma negative_speed_is_accepted :
  reachable earth_loaded
  /\ animationSpeed earth_loaded = 1
  /\ animationSpeed (handle earth_loaded (SpeedInput (-2))) = -2
  /\ animationSpeed (handle earth_loaded (SpeedInput (-2)))
     <> animationSpeed earth_loaded
  /\ exists body body',
      nth_error (planets earth_loaded) 0 = Some body
      /\ nth_error (planets (animate 16 (handle earth_loaded (SpeedInput (-2))))) 0
         = Some body'
      /\ angle (userData body') < angle (userData body).
Proof.
  split; [exact earth_loaded_reachable|].
  split; [simpl; lra|]. split; [reflexivity|]. split; [simpl; lra|].
  do 2 eexists. split; [reflexivity|]. split; [reflexivity|].
  simpl. lra.
Qed.

(** ** C8: registering an identifier twice *)

Lemma createMoon_onLoad_planets (s : SolarSystem) :
  planets (createMoon_onLoad s) = planets s ++ [moonMesh (planetScale s)].
Proof. reflexivity. Qed.

(** C8, as the code has it.  Registration appends the new body to the
    registry whatever the registry holds; the identifiers of a running
    program are nevertheless distinct, because [loadAllPlanets] asks for
    eight different names once each and [createMoon] for the moon once. *)
Theorem registration_appends (s : SolarSystem) :
  (forall mat n sz d os rs pd gr c,
      planets (loadPlanet_register mat n sz d os rs pd gr c s) =
      planets s ++ [planetMesh mat n sz d os rs pd gr c])
  /\ planets (createMoon_onLoad s) = planets s ++ [moonMesh (planetScale s)]
  /\ (reachable s -> NoDup (names (planets s))).
Proof.
  split; [intros; apply loadPlanet_register_planets|].
  split; [apply createMoon_onLoad_planets | apply reachable_names_NoDup].
Qed.

Lemma registration_appends_witness : NoDup (names (planets moon_first)).
Proof.
  apply (proj2 (proj2 (registration_appends moon_first))).
  apply reachable_run; [apply reachable_init | repeat constructor; simpl; lra].
Defined.

(** C8, as stated, fails: a second registration of Earth is not rejected,
    the registry then holds two bodies named Earth. *)
Lemma duplicate_registration_is_appended :
  names (planets earth_loaded) = ["Earth"]
  /\ names (planets earth_twice) = ["Earth"; "Earth"]
  /\ planets earth_twice <> planets earth_loaded
  /\ ~ NoDup (names (planets earth_twice)).
Proof.
  split; [reflexivity|]. split; [reflexivity|]. split.
  - intros H. apply (f_equal (@List.length Mesh)) in H. discriminate.
  - intros H. inversion H as [|x l Hin _]; subst. apply Hin. now left.
Qed.

(** ** C9: the angle is not reduced *)

Lemma frames_run (nows : list R) (s : SolarSystem) :
  frames nows s = run (map AnimationFrame nows) s.
Proof.
  revert s; induction nows as [|now nows IH]; intros s; auto.
  apply IH.
Qed.

Lemma reachable_frames (nows : list R) (s : SolarSystem) :
  reachable s -> reachable (frames nows s).
Proof.
  intros H. rewrite frames_run. apply reachable_run; auto.
  apply Forall_forall. intros e He. apply in_map_iff in He as (now & <- & _).
  exact I.
Qed.

Lemma frames_angle (s : SolarSystem) (nows : list R) (i : nat) (body : Mesh) :
  isPaused s = false ->
  nth_error (planets s) i = Some body ->
  star_orbiting body ->
  exists body',
    nth_error (planets (frames nows s)) i = Some body'
    /\ angle (userData body') =
       angle (userData body)
       + INR (List.length nows) * (orbitSpeed (userData body) * animationSpeed s).
Proof.
  intros Hrun Hi Hstar.
  exists (Nat.iter (List.length nows) (star_step (animationSpeed s)) body).
  split; [now apply frames_star|].
  now destruct (iter_star_step (animationSpeed s) (List.length nows) body Hstar)
    as (_ & Ha & _).
Qed.

(** C9, as the code has it.  The stored angle of a star-orbiting body
    after [n] frames at a constant animation speed is the starting angle
    plus [n * orbitSpeed * animationSpeed], with no reduction modulo [2 PI];
    when the product of the speeds is positive it exceeds every bound. *)
Theorem phase_accumulates
        (s : SolarSystem) (nows : list R) (i : nat) (body : Mesh) :
  isPaused s = false ->
  nth_error (planets s) i = Some body ->
  star_orbiting body ->
  (exists body',
      nth_error (planets (frames nows s)) i = Some body'
      /\ angle (userData body') =
         angle (userData body)
         + INR (List.length nows) * (orbitSpeed (userData body) * animationSpeed s))
  /\ (0 < orbitSpeed (userData body) * animationSpeed s ->
      forall bound : R,
      exists n : nat,
      forall nows',
        List.length nows' = n ->
        exists body',
          nth_error (planets (frames nows' s)) i = Some body'
          /\ bound < angle (userData body')).
Proof.
  intros Hrun Hi Hstar.
  pose proof (fun l => frames_angle s l i body Hrun Hi Hstar) as Hn.
  split; [apply Hn|].
  intros Hpos bound.
  set (w := orbitSpeed (userData body) * animationSpeed s) in *.
  destruct (INR_unbounded ((bound - angle (userData body)) / w)) as [n Hbig].
  exists n. intros nows' Hlen.
  destruct (Hn nows') as (body' & Hb & Ha).
  exists body'. split; auto. rewrite Ha, Hlen.
  apply Rmult_gt_compat_r with (r := w) in Hbig; [|lra].
  unfold Rdiv in Hbig. rewrite Rmult_assoc, Rinv_l in Hbig by lra. lra.
Qed.

Lemma phase_accumulates_witness :
  exists body',
    nth_error (planets (frames [0; 16; 33] earth_loaded)) 0 = Some body'
    /\ angle (userData body') =
       angle (userData earthMesh)
       + INR 3 * (orbitSpeed (userData earthMesh) * animationSpeed earth_loaded).
Proof.
  apply (proj1 (phase_accumulates earth_loaded [0; 16; 33] 0 earthMesh
                  eq_refl eq_refl earthMesh_star_orbiting)).
Defined.

(** C9, as stated, fails: after a thousand frames at speed 1 Earth's stored
    angle is 10, beyond [2 PI]. *)
Lemma phase_exceeds_one_period :
  reachable long_session
  /\ exists body,
      nth_error (planets long_session) 0 = Some body
      /\ angle (userData body) = 10
      /\ 2 * PI < angle (userData body).
Proof.
  split; [apply reachable_frames, earth_loaded_reachable|].
  destruct (frames_angle earth_loaded (repeat 16 1000%nat) 0 earthMesh
              eq_refl eq_refl earthMesh_star_orbiting)
    as (body' & Hb & Ha).
  exists body'. split; [exact Hb|].
  assert (H10 : angle (userData body') = 10).
  { rewrite Ha, repeat_length, INR_IZR_INZ. simpl. lra. }
  split; [exact H10|]. rewrite H10. pose proof PI_4. lra.
Qed.

(** ** C10: a failed texture *)

Lemma find_planet_none (n : string) (ps : list Mesh) :
  ~ In n (names ps) -> find_planet n ps = None.
Proof.
  induction ps as [|p ps IH]; simpl; intros H; auto.
  destruct (name (userData p) =? n)%string eqn:E.
  - apply String.eqb_eq in E. exfalso; apply H; now left.
  - apply IH. intros Hin; apply H; now right.
Qed.

Lemma handle_known_names_incl (s : SolarSystem) (e : Event) (n : string) :
  In n (known_names (handle s e)) -> In n (known_names s).
Proof.
  intros H. destruct (handle_known_names s e) as [gone Hperm].
  apply (Permutation_in _ (Permutation_sym Hperm)).
  apply in_or_app; now right.
Qed.

Lemma run_known_names_incl (events : list Event) (s : SolarSystem) (n : string) :
  In n (known_names (run events s)) -> In n (known_names s).
Proof.
  revert s; induction events as [|e events IH]; intros s H; auto.
  apply (handle_known_names_incl s e), IH, H.
Qed.

Lemma loadPlanet_register_scene (mat : Material) (n : string) (sz d os rs : R)
      (pd : PlanetFacts) (gr : R) (c : Chance) (s : SolarSystem) :
  In (BodyNode (List.length (planets s)))
     (scene (loadPlanet_register mat n sz d os rs pd gr c s)).
Proof.
  unfold loadPlanet_register.
  destruct (n =? "Saturn")%string; simpl; destruct (showOrbits s); simpl;
    rewrite ?in_app_iff; simpl; auto.
Qed.

Lemma loadPlanet_register_options (mat : Material) (n : string) (sz d os rs : R)
      (pd : PlanetFacts) (gr : R) (c : Chance) (s : SolarSystem) :
  followPlanet_options (loadPlanet_register mat n sz d os rs pd gr c s) =
  followPlanet_options s ++ [n].
Proof.
  unfold loadPlanet_register.
  destruct (n =? "Saturn")%string; simpl; destruct (showOrbits s); reflexivity.
Qed.

(** C10.  When the moon's texture fails, the registry, the scene and the
    follow list stay as they are and no body named Moon is found at any
    later time; when a planet's texture fails, the planet is built with its
    fallback colour, put in the scene, the registry and the follow list.
    The fallback colours of the eight planets are those of the table in
    [loadPlanet]. *)
Theorem moon_has_no_fallback
        (s : SolarSystem) (c : Chance) (rest : list Pending) :
  reachable s ->
  take "textures/moon.jpg" (loading s) = Some (MoonLoad, rest) ->
  (let s' := handle s (TextureFailed "textures/moon.jpg" c) in
   planets s' = planets s
   /\ scene s' = scene s
   /\ followPlanet_options s' = followPlanet_options s
   /\ forall events, find_planet "Moon" (planets (run events s')) = None)
  /\ (forall path n sz d path' os rs pd gr rest',
         take path (loading s) = Some (PlanetLoad n sz d path' os rs pd gr, rest') ->
         let s' := handle s (TextureFailed path c) in
         planets s' =
         planets s ++ [planetMesh (FlatColor (fallbackColor n)) n sz d os rs pd gr c]
         /\ In (BodyNode (List.length (planets s))) (scene s')
         /\ followPlanet_options s' = followPlanet_options s ++ [n])
  /\ map (fun p => fallbackColor (cfg_name p)) planetData = documentedFallback.
Proof.
  intros Hs Htake. split; [|split; [|reflexivity]].
  - cbv zeta. unfold handle. rewrite Htake. simpl.
    repeat split.
    intros events. apply find_planet_none. intros Hin.
    assert (Hknown : In "Moon" (known_names (set_loading rest s))).
    { apply (run_known_names_incl events).
      unfold known_names at 1. apply in_or_app; now left. }
    pose proof (reachable_known_names_NoDup s Hs) as Hnodup.
    apply (Permutation_NoDup (known_names_take s _ _ _ Htake)) in Hnodup.
    simpl in Hnodup. inversion Hnodup as [|x l Hnotin _]; subst.
    apply Hnotin, Hknown.
  - intros path n sz d path' os rs pd gr rest' Hp.
    cbv zeta. unfold handle. rewrite Hp. simpl onError.
    unfold loadPlanet_onError.
    rewrite loadPlanet_register_planets, loadPlanet_register_options.
    repeat split.
    apply (loadPlanet_register_scene _ _ _ _ _ _ _ _ _ (set_loading rest' s)).
Qed.

Lemma init_moon_pending :
  exists rest,
    take "textures/moon.jpg" (loading (init 0)) = Some (MoonLoad, rest).
Proof. eexists. cbn. reflexivity. Qed.

Lemma init_mars_pending :
  exists rest,
    take "textures/mars.jpg" (loading (init 0)) =
    Some (PlanetLoad "Mars" 0.53 150 "textures/mars.jpg" 0.008 0.009
            (mkFacts "227.9 million km" "687 Earth days" "6,792 km" "Terrestrial")
            (0.53 * 3.0), rest).
Proof. eexists. cbn. reflexivity. Qed.

Lemma moon_has_no_fallback_witness :
  (forall events,
      find_planet "Moon"
        (planets (run events
                      (handle (init 0) (TextureFailed "textures/moon.jpg" no_chance))))
      = None)
  /\ map material
         (planets (handle (init 0) (TextureFailed "textures/mars.jpg" no_chance)))
     = [FlatColor 0xCD5C5C%Z].
Proof.
  destruct init_moon_pending as [rest Hmoon_pending].
  destruct init_mars_pending as [rest' Hmars_pending].
  destruct (moon_has_no_fallback (init 0) no_chance rest (reachable_init 0)
              Hmoon_pending)
    as [(_ & _ & _ & Hmoon) [Hplanet _]].
  split; [exact Hmoon|].
  destruct (Hplanet _ _ _ _ _ _ _ _ _ _ Hmars_pending) as (Hp & _).
  rewrite Hp, init_planets. reflexivity.
Defined.

(** * Further properties of the frame *)

(** ** Orbits are circles, and speeds add *)

Lemma star_step_add (a b : R) (p : Mesh) :
  star_orbiting p -> star_step a (star_step b p) = star_step (b + a) p.
Proof.
  intros H.
  rewrite (star_step_spec a (star_step b p) (star_step_orbiting b p H)).
  rewrite (star_step_spec b p H), (star_step_spec (b + a) p H). simpl.
  replace (angle (userData p) + orbitSpeed (userData p) * b
           + orbitSpeed (userData p) * a)
    with (angle (userData p) + orbitSpeed (userData p) * (b + a)) by ring.
  replace (rotation_y p + rotationSpeed (userData p) * b
           + rotationSpeed (userData p) * a)
    with (rotation_y p + rotationSpeed (userData p) * (b + a)) by ring.
  reflexivity.
Qed.

(** X1.  After a running frame a star-orbiting body lies on the circle of
    radius [distance] around the origin: [x * x + z * z = distance * distance],
    and its [distance] is the one it had. *)
Theorem orbit_is_a_circle (s : SolarSystem) (now : R) (i : nat) (body : Mesh) :
  isPaused s = false ->
  nth_error (planets s) i = Some body ->
  star_orbiting body ->
  exists body',
    nth_error (planets (animate now s)) i = Some body'
    /\ distance (userData body') = distance (userData body)
    /\ Vector3.x (position body') * Vector3.x (position body')
       + Vector3.z (position body') * Vector3.z (position body')
       = distance (userData body) * distance (userData body).
Proof.
  intros Hrun Hi Hstar.
  exists (star_step (animationSpeed s) body).
  split; [now apply animate_star|].
  rewrite (star_step_spec _ _ Hstar); simpl. split; [reflexivity|].
  set (a := angle (userData body) + orbitSpeed (userData body) * animationSpeed s).
  pose proof (sin2_cos2 a) as Hsc. unfold Rsqr in Hsc.
  set (d := distance (userData body)).
  replace (cos a * d * (cos a * d) + sin a * d * (sin a * d))
    with ((sin a * sin a + cos a * cos a) * (d * d)) by ring.
  rewrite Hsc. ring.
Qed.

Lemma orbit_is_a_circle_witness :
  exists body',
    nth_error (planets (animate 16 earth_loaded)) 0 = Some body'
    /\ distance (userData body') = distance (userData earthMesh)
    /\ Vector3.x (position body') * Vector3.x (position body')
       + Vector3.z (position body') * Vector3.z (position body')
       = distance (userData earthMesh) * distance (userData earthMesh).
Proof.
  apply (orbit_is_a_circle earth_loaded 16 0 earthMesh).
  - reflexivity.
  - reflexivity.
  - exact earthMesh_star_orbiting.
Defined.

(** X2.  Speeds add: a frame at animation speed [a] followed, after the
    slider is moved, by a frame at speed [b] leaves a star-orbiting body
    exactly where one frame at speed [a + b] leaves it. *)
Theorem frame_speeds_add
        (s : SolarSystem) (a b now1 now2 now : R) (i : nat) (body : Mesh) :
  isPaused s = false ->
  nth_error (planets s) i = Some body ->
  star_orbiting body ->
  nth_error
    (planets (animate now2 (speedSlider_input b
                (animate now1 (speedSlider_input a s))))) i
  = nth_error (planets (animate now (speedSlider_input (a + b) s))) i.
Proof.
  intros Hrun Hi Hstar.
  rewrite (animate_star now (speedSlider_input (a + b) s) i body); auto.
  rewrite (animate_star now2 _ i (star_step a body)).
  - simpl. now rewrite star_step_add.
  - simpl. now rewrite animate_isPaused.
  - simpl. now apply (animate_star now1 (speedSlider_input a s)).
  - now apply star_step_orbiting.
Qed.

Lemma frame_speeds_add_witness :
  nth_error
    (planets (animate 33 (speedSlider_input 2
                (animate 16 (speedSlider_input 0.5 earth_loaded))))) 0
  = nth_error (planets (animate 50 (speedSlider_input (0.5 + 2) earth_loaded))) 0.
Proof.
  apply (frame_speeds_add earth_loaded 0.5 2 16 33 50 0 earthMesh).
  - reflexivity.
  - reflexivity.
  - exact earthMesh_star_orbiting.
Defined.

Lemma iter_star_step_linear (v : R) (n : nat) (p : Mesh) :
  star_orbiting p ->
  Nat.iter (S n) (star_step v) p = star_step (INR (S n) * v) p.
Proof.
  intros H; induction n as [|n IH].
  - simpl. f_equal. lra.
  - change (Nat.iter (S (S n)) (star_step v) p)
      with (star_step v (Nat.iter (S n) (star_step v) p)).
    rewrite IH, star_step_add by assumption.
    f_equal. rewrite (S_INR (S n)). ring.
Qed.

(** X3.  Phase accumulation is linear: [n >= 1] frames at animation speed
    [v] leave a star-orbiting body exactly where a single frame at speed
    [n * v] leaves it. *)
Theorem frames_are_linear
        (s : SolarSystem) (nows : list R) (now : R) (i : nat) (body : Mesh) :
  isPaused s = false ->
  nth_error (planets s) i = Some body ->
  star_orbiting body ->
  nows <> [] ->
  nth_error (planets (frames nows s)) i
  = nth_error
      (planets (animate now
         (speedSlider_input (INR (List.length nows) * animationSpeed s) s))) i.
Proof.
  intros Hrun Hi Hstar Hne.
  rewrite (frames_star nows s i body), (animate_star now _ i body); auto.
  destruct nows as [|n0 nows]; [contradiction|].
  simpl List.length. simpl animationSpeed.
  now rewrite iter_star_step_linear.
Qed.

Lemma frames_are_linear_witness :
  nth_error (planets (frames [0; 16; 33] earth_loaded)) 0
  = nth_error
      (planets (animate 50
         (speedSlider_input (INR 3 * animationSpeed earth_loaded) earth_loaded))) 0.
Proof.
  apply (frames_are_linear earth_loaded [0; 16; 33] 50 0 earthMesh).
  - reflexivity.
  - reflexivity.
  - exact earthMesh_star_orbiting.
  - discriminate.
Defined.

Lemma on_orbit_star (ps : list Mesh) (p : Mesh) :
  star_orbiting p -> on_orbit ps p -> on_orbit [] p.
Proof.
  intros [Hparent _]; unfold on_orbit; now rewrite Hparent.
Qed.

(** On binary64 numbers the way back rounds: the angle 0.01 advanced by
    [0.01 * 2] and taken back by [0.01 * - 2] ends a little below 0.01, at
    0.009999999999999998. *)
Lemma reverse_playback64 :
  let back := phase_step64 hundredth64 (-2)%float
                (phase_step64 hundredth64 2%float hundredth64) in
  PrimFloat.eqb back hundredth64 = false
  /\ PrimFloat.ltb back hundredth64 = true
  /\ PrimFloat.ltb (PrimFloat.sub hundredth64 back) 0x1p-58%float = true.
Proof. vm_compute. repeat split. Qed.

(** X4.  Over the real numbers, playing backwards undoes playing forwards:
    a frame at animation speed [v] followed by a frame at speed [- v]
    returns a star-orbiting body that was on its orbit to the state it
    had.  Numbers are the reals of the model; on binary64 numbers the body
    comes back up to rounding only ([reverse_playback64]). *)
Theorem reverse_playback_restores
        (s : SolarSystem) (v now1 now2 : R) (i : nat) (body : Mesh) :
  isPaused s = false ->
  nth_error (planets s) i = Some body ->
  star_orbiting body ->
  on_orbit (planets s) body ->
  nth_error
    (planets (animate now2 (speedSlider_input (- v)
                (animate now1 (speedSlider_input v s))))) i
  = Some body.
Proof.
  intros Hrun Hi Hstar Horbit.
  rewrite (animate_star now2 _ i (star_step v body)).
  - simpl. rewrite star_step_add by assumption.
    replace (v + - v) with 0 by lra.
    f_equal. apply (step_zero_on_orbit [] body).
    now apply (on_orbit_star (planets s)).
  - simpl. now rewrite animate_isPaused.
  - simpl. now apply (animate_star now1 (speedSlider_input v s)).
  - now apply star_step_orbiting.
Qed.

Lemma earth_loaded_planets : planets earth_loaded = [earthMesh].
Proof. reflexivity. Qed.

Lemma reverse_playback_restores_witness :
  nth_error
    (planets (animate 33 (speedSlider_input (- 2)
                (animate 16 (speedSlider_input 2 earth_loaded))))) 0
  = Some earthMesh.
Proof.
  apply (reverse_playback_restores earth_loaded 2 16 33 0 earthMesh).
  - reflexivity.
  - reflexivity.
  - exact earthMesh_star_orbiting.
  - rewrite earth_loaded_planets.
    exact (Forall_inv earthMesh_settled).
Defined.

(** ** The moon *)

Lemma find_planet_visits (now v : R) (n : string) (idxs : list nat)
      (ps : list Mesh) (rings : option (list RingObject)) :
  find_index n (fst (visits now v idxs (ps, rings))) = find_index n ps.
Proof.
  apply find_index_identity.
  apply (visits_identity now v idxs (ps, rings)).
Qed.

(** X5.  When Earth comes before the moon in the registry, a running frame
    advances the moon's angle by [orbitSpeed * animationSpeed] and puts the
    moon at Earth's position of that same frame plus the moon's orbit
    offset, so at distance [|distance|] from Earth. *)
Theorem moon_follows_earth
        (s : SolarSystem) (now : R) (m e : nat) (moon : Mesh) :
  isPaused s = false ->
  nth_error (planets s) m = Some moon ->
  parent_is "Earth" (userData moon) = true ->
  find_index "Earth" (planets s) = Some e ->
  (e < m)%nat ->
  exists moon' earth',
    nth_error (planets (animate now s)) m = Some moon'
    /\ nth_error (planets (animate now s)) e = Some earth'
    /\ name (userData earth') = "Earth"
    /\ angle (userData moon') =
       angle (userData moon) + orbitSpeed (userData moon) * animationSpeed s
    /\ position moon' = Vector3.add (position earth') (orbitOffset moon')
    /\ Vector3.distanceTo (position moon') (position earth')
       = Rabs (distance (userData moon)).
Proof.
  intros Hrun Hm Hparent He Hlt.
  set (v := animationSpeed s).
  set (qs := fst (visits now v (seq 0 m) (planets s, saturnRings s))).
  assert (Hlen : (m < List.length (planets s))%nat)
    by (apply nth_error_Some; congruence).
  assert (Hqe : nth_error qs e = nth_error (planets (animate now s)) e).
  { rewrite animate_planets by assumption. apply visits_before; lia. }
  assert (Hfind : find_planet "Earth" qs = nth_error qs e).
  { rewrite find_planet_index. unfold qs. now rewrite find_planet_visits, He. }
  destruct (nth_error qs e) as [earth'|] eqn:Hearth.
  - destruct (orbit_moon qs v moon earth' Hparent Hfind) as (Ha & Hd & Hpos).
    exists (spin v (orbit qs v moon)), earth'.
    split; [rewrite animate_planets by assumption; now apply forEach_nth|].
    split; [now symmetry|].
    split.
    { destruct (find_index_some "Earth" qs e) as (q & Hq & Hn).
      - unfold qs. now rewrite find_planet_visits.
      - congruence. }
    split; [exact Ha|]. split; [exact Hpos|].
    change (position (spin v (orbit qs v moon))) with (position (orbit qs v moon)).
    change (orbitOffset (spin v (orbit qs v moon)))
      with (orbitOffset (orbit qs v moon)) in *.
    rewrite Hpos. unfold Vector3.distanceTo, Vector3.add, orbitOffset; simpl.
    rewrite Hd.
    set (a := angle (userData (orbit qs v moon))).
    set (d := distance (userData moon)).
    pose proof (sin2_cos2 a) as Hsc. unfold Rsqr in Hsc.
    replace ((Vector3.x (position earth') + cos a * d - Vector3.x (position earth'))
             * (Vector3.x (position earth') + cos a * d - Vector3.x (position earth'))
             + (Vector3.y (position earth') + 0 - Vector3.y (position earth'))
               * (Vector3.y (position earth') + 0 - Vector3.y (position earth'))
             + (Vector3.z (position earth') + sin a * d - Vector3.z (position earth'))
               * (Vector3.z (position earth') + sin a * d - Vector3.z (position earth')))
      with ((sin a * sin a + cos a * cos a) * (d * d)) by ring.
    rewrite Hsc, Rmult_1_l. apply sqrt_Rsqr_abs.
  - exfalso. symmetry in Hqe. apply nth_error_None in Hqe.
    rewrite animate_planets, forEach_length in Hqe by assumption. lia.
Qed.

Lemma moon_follows_earth_witness :
  exists moon' earth',
    nth_error (planets (animate 16 earth_then_moon)) 1 = Some moon'
    /\ nth_error (planets (animate 16 earth_then_moon)) 0 = Some earth'
    /\ name (userData earth') = "Earth"
    /\ angle (userData moon') =
       angle (userData (moonMesh 3.0))
       + orbitSpeed (userData (moonMesh 3.0)) * animationSpeed earth_then_moon
    /\ position moon' = Vector3.add (position earth') (orbitOffset moon')
    /\ Vector3.distanceTo (position moon') (position earth')
       = Rabs (distance (userData (moonMesh 3.0))).
Proof.
  apply (moon_follows_earth earth_then_moon 16 1 0 (moonMesh 3.0)).
  - reflexivity.
  - reflexivity.
  - reflexivity.
  - reflexivity.
  - lia.
Defined.

(** X6.  While no body named Earth is registered, a running frame leaves
    the moon's angle and position as they are; the moon only spins. *)
Theorem moon_waits_for_earth
        (s : SolarSystem) (now : R) (m : nat) (moon : Mesh) :
  isPaused s = false ->
  nth_error (planets s) m = Some moon ->
  parent_is "Earth" (userData moon) = true ->
  find_index "Earth" (planets s) = None ->
  nth_error (planets (animate now s)) m
  = Some (set_rotation_y
            (rotation_y moon + rotationSpeed (userData moon) * animationSpeed s)
            moon).
Proof.
  intros Hrun Hm Hparent He.
  rewrite animate_planets by assumption.
  rewrite (forEach_nth _ _ _ _ _ _ Hm). f_equal.
  unfold orbit. rewrite Hparent, find_planet_index, find_planet_visits, He.
  reflexivity.
Qed.

Lemma moon_waits_for_earth_witness :
  nth_error (planets (animate 16 moon_alone)) 0
  = Some (set_rotation_y
            (rotation_y (moonMesh 3.0)
             + rotationSpeed (userData (moonMesh 3.0)) * animationSpeed moon_alone)
            (moonMesh 3.0)).
Proof.
  apply (moon_waits_for_earth moon_alone 16 0 (moonMesh 3.0)); reflexivity.
Defined.

(** ** Pausing *)

Lemma frames_paused (nows : list R) (s : SolarSystem) :
  isPaused s = true ->
  kinematic_state (frames nows s) = kinematic_state s
  /\ animationSpeed (frames nows s) = animationSpeed s
  /\ followTarget (frames nows s) = followTarget s
  /\ effects (frames nows s)
     = effects s ++ repeat RequestAnimationFrame (List.length nows).
Proof.
  revert s; induction nows as [|now nows IH]; intros s Hp.
  - simpl. now rewrite app_nil_r.
  - change (frames (now :: nows) s) with (frames nows (animate now s)).
    rewrite animate_paused by assumption.
    destruct (IH (perform RequestAnimationFrame s) Hp) as (Hk & Hv & Hf & He).
    rewrite Hk, Hv, Hf, He. simpl. now rewrite <- app_assoc.
Qed.

Lemma animate_kinematic_state (now : R) (s1 s2 : SolarSystem) :
  kinematic_state s1 = kinematic_state s2 ->
  animationSpeed s1 = animationSpeed s2 ->
  followTarget s1 = followTarget s2 ->
  isPaused s1 = isPaused s2 ->
  kinematic_state (animate now s1) = kinematic_state (animate now s2).
Proof.
  destruct s1, s2; unfold kinematic_state; simpl. intros Hk Hv Hf Hp.
  injection Hk as Hplanets Hrings Hsun Hglows Hstar Hcam Htarget. subst.
  unfold animate; simpl.
  match goal with |- context [if ?b then _ else _] => destruct b end; simpl.
  - reflexivity.
  - match goal with |- context [planets_forEach ?a ?b ?c ?d] =>
                    destruct (planets_forEach a b c d) end.
    reflexivity.
Qed.

(** X7.  Pausing is transparent: while paused any number of frames moves
    nothing and renders nothing, and after [resume] the next frame moves
    everything exactly as it would have without the pause. *)
Theorem pause_is_transparent (s : SolarSystem) (nows : list R) (now : R) :
  isPaused s = false ->
  kinematic_state (hidden_for nows s) = kinematic_state s
  /\ renders (effects (hidden_for nows s)) = renders (effects s)
  /\ isPaused (hidden_for nows s) = false
  /\ kinematic_state (animate now (hidden_for nows s))
     = kinematic_state (animate now s).
Proof.
  intros Hrun.
  destruct (frames_paused nows (pause s) eq_refl) as (Hk & Hv & Hf & He).
  assert (Hstate : kinematic_state (hidden_for nows s) = kinematic_state s)
    by exact Hk.
  split; [exact Hstate|]. split; [|split; [reflexivity|]].
  - unfold hidden_for, resume; simpl. rewrite He; simpl.
    unfold renders. rewrite filter_app, length_app.
    assert (Hnone : forall n,
               filter (fun e => match e with Render => true | _ => false end)
                      (repeat RequestAnimationFrame n) = [])
      by (induction n; simpl; auto).
    rewrite Hnone. simpl. lia.
  - apply animate_kinematic_state; auto.
Qed.

Lemma pause_is_transparent_witness :
  kinematic_state (hidden_for [0; 16; 33] earth_loaded) = kinematic_state earth_loaded
  /\ renders (effects (hidden_for [0; 16; 33] earth_loaded))
     = renders (effects earth_loaded)
  /\ isPaused (hidden_for [0; 16; 33] earth_loaded) = false
  /\ kinematic_state (animate 50 (hidden_for [0; 16; 33] earth_loaded))
     = kinematic_state (animate 50 earth_loaded).
Proof.
  apply (pause_is_transparent earth_loaded [0; 16; 33] 50). reflexivity.
Defined.

(** ** The registry, the follow list and the scene *)

(** A registration callback of [loadPlanet], field by field. *)
Lemma loadPlanet_register_fields (mat : Material) (n : string) (sz d os rs : R)
      (pd : PlanetFacts) (gr : R) (c : Chance) (s : SolarSystem) :
  let s' := loadPlanet_register mat n sz d os rs pd gr c s in
  orbitPaths s' = orbitPaths s ++ (if showOrbits s then [mkOrbitPath d true] else [])
  /\ scene s' = scene s ++ BodyNode (List.length (planets s))
                :: (if showOrbits s
                    then [OrbitPathNode (List.length (orbitPaths s))] else [])
  /\ showOrbits s' = showOrbits s
  /\ followTarget s' = followTarget s
  /\ planetScale s' = planetScale s
  /\ sun s' = sun s
  /\ sunGlowEffects s' = sunGlowEffects s
  /\ starSphere s' = starSphere s.
Proof.
  unfold loadPlanet_register. cbv zeta.
  destruct (n =? "Saturn")%string; simpl; destruct (showOrbits s) eqn:E; simpl;
    rewrite ?E, <- ?app_assoc, ?app_nil_r; simpl; repeat split.
Qed.

Lemma animate_furniture (now : R) (s : SolarSystem) :
  orbitPaths (animate now s) = orbitPaths s
  /\ scene (animate now s) = scene s
  /\ followPlanet_options (animate now s) = followPlanet_options s
  /\ showOrbits (animate now s) = showOrbits s
  /\ planetScale (animate now s) = planetScale s.
Proof.
  unfold animate; simpl. destruct (isPaused s); simpl.
  - repeat split.
  - destruct (planets_forEach _ _ _ _); repeat split.
Qed.

Lemma animate_length (now : R) (s : SolarSystem) :
  List.length (planets (animate now s)) = List.length (planets s).
Proof. exact (frames_length [now] s). Qed.

Lemma onLoad_options (p : Pending) (c : Chance) (s : SolarSystem) :
  followPlanet_options (onLoad p c s)
  = followPlanet_options s ++ names (born true p c (planetScale s)).
Proof.
  destruct p; simpl; rewrite ?app_nil_r; auto.
  apply loadPlanet_register_options.
Qed.

Lemma onError_options (p : Pending) (c : Chance) (s : SolarSystem) :
  followPlanet_options (onError p c s)
  = followPlanet_options s ++ names (born false p c (planetScale s)).
Proof.
  destruct p; simpl; rewrite ?app_nil_r; auto.
  apply loadPlanet_register_options.
Qed.

Lemma reachable_options (s : SolarSystem) :
  reachable s -> followPlanet_options s = names (planets s).
Proof.
  revert s.
  apply (reachable_invariant
           (fun s => followPlanet_options s = names (planets s))).
  - reflexivity.
  - intros s e _ _ H. destruct e; simpl; auto.
    + destruct (take path (loading s)) as [[p rest]|]; auto.
      rewrite onLoad_options, onLoad_planets, names_app; simpl. now rewrite H.
    + destruct (take path (loading s)) as [[p rest]|]; auto.
      rewrite onError_options, onError_planets, names_app; simpl. now rewrite H.
    + destruct (animate_furniture now s) as (_ & _ & -> & _).
      rewrite H. symmetry. apply names_identity, animate_identity.
    + rewrite H. unfold names. now rewrite map_map.
    + unfold mobileTap. destruct hit as [i|]; auto.
      destruct (nth_error (planets s) i); auto.
Qed.

Lemma find_index_complete (n : string) (ps : list Mesh) :
  In n (names ps) -> exists i, find_index n ps = Some i.
Proof.
  induction ps as [|p ps IH]; simpl; [contradiction|].
  intros [Hn | Hin].
  - apply String.eqb_eq in Hn. rewrite Hn. now exists 0%nat.
  - destruct (name (userData p) =? n)%string; [now exists 0%nat|].
    destruct (IH Hin) as [i ->]. now exists (S i).
Qed.

Lemma find_index_none (n : string) (ps : list Mesh) :
  ~ In n (names ps) -> find_index n ps = None.
Proof.
  induction ps as [|p ps IH]; simpl; auto. intros H.
  destruct (name (userData p) =? n)%string eqn:E.
  - apply String.eqb_eq in E. exfalso; apply H; now left.
  - rewrite IH; auto.
Qed.

(** X8.  The follow list offers the identifiers of the registry, in
    registration order.  Choosing an offered entry sets the follow target to
    a registered body of that name; choosing the empty entry or a name that
    is not registered clears the target. *)
Theorem follow_list_matches_registry (s : SolarSystem) :
  reachable s ->
  followPlanet_options s = names (planets s)
  /\ (forall n, In n (followPlanet_options s) -> n <> "" ->
      exists i body,
        followTarget (followPlanet_change n s) = Some i
        /\ nth_error (planets s) i = Some body
        /\ name (userData body) = n)
  /\ (forall n, ~ In n (followPlanet_options s) ->
      followTarget (followPlanet_change n s) = None)
  /\ followTarget (followPlanet_change "" s) = None.
Proof.
  intros Hs. pose proof (reachable_options s Hs) as Hopt.
  split; [exact Hopt|]. split; [|split; [|reflexivity]].
  - intros n Hin Hne. rewrite Hopt in Hin.
    destruct (find_index_complete n (planets s) Hin) as [i Hi].
    destruct (find_index_some n (planets s) i Hi) as (body & Hb & Hn).
    exists i, body. split; auto.
    unfold followPlanet_change; simpl.
    apply String.eqb_neq in Hne. now rewrite Hne.
  - intros n Hnot. rewrite Hopt in Hnot.
    unfold followPlanet_change; simpl.
    destruct (n =? "")%string; auto. now apply find_index_none.
Qed.

Lemma follow_list_matches_registry_witness :
  followPlanet_options earth_then_moon = ["Earth"; "Moon"]
  /\ followTarget (followPlanet_change "Moon" earth_then_moon) = Some 1%nat
  /\ followTarget (followPlanet_change "Mars" earth_then_moon) = None.
Proof.
  destruct (follow_list_matches_registry earth_then_moon) as (Hopt & _ & Hno & _).
  - apply reachable_run; [apply reachable_init | repeat constructor; simpl; lra].
  - split; [reflexivity|]. split; [reflexivity|].
    apply Hno. rewrite Hopt. simpl. intuition discriminate.
Defined.

Lemma resolved_fields (loaded : bool) (p : Pending) (c : Chance) (s : SolarSystem) :
  let s' := if loaded then onLoad p c s else onError p c s in
  scene s' = scene s ++ born_nodes loaded p (showOrbits s)
                          (List.length (planets s)) (List.length (orbitPaths s))
  /\ orbitPaths s' = orbitPaths s ++ born_paths p (showOrbits s)
  /\ showOrbits s' = showOrbits s
  /\ followTarget s' = followTarget s
  /\ planetScale s' = planetScale s.
Proof.
  cbv zeta.
  assert (Hplanet : forall mat n sz d os rs pd gr,
             let s' := loadPlanet_register mat n sz d os rs pd gr c s in
             scene s' = scene s ++ BodyNode (List.length (planets s))
                           :: (if showOrbits s
                               then [OrbitPathNode (List.length (orbitPaths s))]
                               else [])
             /\ orbitPaths s'
                = orbitPaths s ++ (if showOrbits s then [mkOrbitPath d true] else [])
             /\ showOrbits s' = showOrbits s
             /\ followTarget s' = followTarget s
             /\ planetScale s' = planetScale s).
  { intros mat n sz d os rs pd gr.
    destruct (loadPlanet_register_fields mat n sz d os rs pd gr c s)
      as (H1 & H2 & H3 & H4 & H5 & _).
    cbv zeta. auto. }
  destruct p; try (destruct loaded; simpl; rewrite ?app_nil_r; repeat split; fail);
    destruct loaded; apply Hplanet.
Qed.

Lemma init_furniture (now : R) :
  orbitPaths (init now) = [] /\ showOrbits (init now) = true
  /\ followTarget (init now) = None /\ planetScale (init now) = 3.0
  /\ scene (init now) = scene constructed.
Proof.
  unfold init.
  destruct (animate_furniture now
              (createMoon (loadAllPlanets (createSun (createStarField constructed)))))
    as (-> & -> & _ & -> & ->).
  rewrite animate_followTarget.
  cbn. repeat split.
Qed.




Lemma tracking_earth_reachable : reachable tracking_earth.
Proof.
  apply reachable_run; [apply reachable_init | repeat constructor; simpl; lra].
Qed.



(** ** Orbit paths *)

Lemma reachable_orbit_visibility (s : SolarSystem) :
  reachable s -> Forall (fun o => visible o = showOrbits s) (orbitPaths s).
Proof.
  revert s.
  apply (reachable_invariant
           (fun s => Forall (fun o => visible o = showOrbits s) (orbitPaths s))).
  - intros now. destruct (init_furniture now) as (-> & _). constructor.
  - intros s e _ _ H. destruct e; simpl; auto.
    + destruct (take path (loading s)) as [[p rest]|]; auto.
      destruct (resolved_fields true p c (set_loading rest s))
        as (_ & Hp & Hs & _).
      simpl in Hp, Hs. rewrite Hp, Hs. apply Forall_app; split; auto.
      destruct p; simpl; auto. destruct (showOrbits s) eqn:E; auto.
    + destruct (take path (loading s)) as [[p rest]|]; auto.
      destruct (resolved_fields false p c (set_loading rest s))
        as (_ & Hp & Hs & _).
      simpl in Hp, Hs. rewrite Hp, Hs. apply Forall_app; split; auto.
      destruct p; simpl; auto. destruct (showOrbits s) eqn:E; auto.
    + destruct (animate_furniture now s) as (-> & _ & _ & -> & _). exact H.
    + apply Forall_map. apply Forall_forall. reflexivity.
    + unfold mobileTap. destruct hit as [j|]; auto.
      destruct (nth_error (planets s) j); auto.
Qed.

(** X10.  The orbit paths agree with the checkbox: in every reachable
    state each orbit path is visible exactly when [showOrbits] is set, also
    for planets that arrive after the box was changed. *)
Theorem orbit_paths_follow_checkbox (s : SolarSystem) (o : OrbitPath) :
  reachable s -> In o (orbitPaths s) -> visible o = showOrbits s.
Proof.
  intros Hs Hin. apply reachable_orbit_visibility in Hs.
  rewrite Forall_forall in Hs. now apply Hs.
Qed.

Lemma orbit_paths_follow_checkbox_witness :
  visible (mkOrbitPath 100 true) = showOrbits mars_without_path.
Proof.
  apply (orbit_paths_follow_checkbox mars_without_path (mkOrbitPath 100 true)).
  - apply reachable_run; [apply reachable_init | repeat constructor; simpl; lra].
  - cbn. now left.
Defined.

(** ** The scene graph *)

Lemma resolved_planets (loaded : bool) (p : Pending) (c : Chance) (s : SolarSystem) :
  planets (if loaded then onLoad p c s else onError p c s)
  = planets s ++ born loaded p c (planetScale s).
Proof. destruct loaded; [apply onLoad_planets | apply onError_planets]. Qed.

Lemma resolved_loading (loaded : bool) (p : Pending) (c : Chance) (s : SolarSystem) :
  loading (if loaded then onLoad p c s else onError p c s)
  = loading s ++ match loaded, p with
                 | false, Stars8KLoad => [Stars2KLoad]
                 | _, _ => []
                 end.
Proof.
  destruct loaded.
  - rewrite onLoad_loading. symmetry; apply app_nil_r.
  - rewrite onError_loading. destruct p; reflexivity.
Qed.

(** A texture event is the callback of the first pending request for its
    path, or nothing when no such request is pending. *)
Lemma handle_texture_event (loaded : bool) (path : string) (c : Chance)
      (s : SolarSystem) :
  handle s (texture_event loaded path c)
  = match take path (loading s) with
    | Some (p, rest) =>
        if loaded then onLoad p c (set_loading rest s)
        else onError p c (set_loading rest s)
    | None => s
    end.
Proof.
  destruct loaded; simpl; destruct (take path (loading s)) as [[p rest]|];
    reflexivity.
Qed.

Lemma body_nodes_app (l l' : list SceneNode) :
  body_nodes (l ++ l') = body_nodes l ++ body_nodes l'.
Proof. apply flat_map_app. Qed.

Lemma path_nodes_app (l l' : list SceneNode) :
  path_nodes (l ++ l') = path_nodes l ++ path_nodes l'.
Proof. apply flat_map_app. Qed.

Lemma born_nodes_bodies (loaded : bool) (p : Pending) (c : Chance) (k : R)
      (shown : bool) (i j : nat) :
  body_nodes (born_nodes loaded p shown i j)
  = seq i (List.length (born loaded p c k)).
Proof. destruct p, loaded, shown; reflexivity. Qed.

Lemma born_nodes_paths (loaded : bool) (p : Pending) (shown : bool) (i j : nat) :
  path_nodes (born_nodes loaded p shown i j)
  = seq j (List.length (born_paths p shown)).
Proof. destruct p, loaded, shown; reflexivity. Qed.

Lemma resolved_scene_invariant (loaded : bool) (p : Pending) (c : Chance)
      (s : SolarSystem) :
  body_nodes (scene s) = seq 0 (List.length (planets s)) ->
  path_nodes (scene s) = seq 0 (List.length (orbitPaths s)) ->
  let s' := if loaded then onLoad p c s else onError p c s in
  body_nodes (scene s') = seq 0 (List.length (planets s'))
  /\ path_nodes (scene s') = seq 0 (List.length (orbitPaths s')).
Proof.
  intros Hb Hp. cbv zeta.
  destruct (resolved_fields loaded p c s) as (Hscene & Hpaths & _).
  cbv zeta in Hscene, Hpaths.
  rewrite Hscene, Hpaths, resolved_planets.
  rewrite body_nodes_app, path_nodes_app, !length_app, !seq_app, Hb, Hp.
  rewrite (born_nodes_bodies loaded p c (planetScale s)), born_nodes_paths.
  split; reflexivity.
Qed.

Lemma reachable_scene (s : SolarSystem) :
  reachable s ->
  body_nodes (scene s) = seq 0 (List.length (planets s))
  /\ path_nodes (scene s) = seq 0 (List.length (orbitPaths s)).
Proof.
  revert s.
  apply (reachable_invariant
           (fun s => body_nodes (scene s) = seq 0 (List.length (planets s))
                     /\ path_nodes (scene s) = seq 0 (List.length (orbitPaths s)))).
  - intros now. destruct (init_furniture now) as (-> & _ & _ & _ & ->).
    rewrite init_planets. split; reflexivity.
  - intros s e _ _ [Hb Hp]. destruct e.
    + change (TextureLoaded path c) with (texture_event true path c).
      rewrite handle_texture_event.
      destruct (take path (loading s)) as [[p rest]|]; [|now split].
      apply (resolved_scene_invariant true p c (set_loading rest s)); assumption.
    + change (TextureFailed path c) with (texture_event false path c).
      rewrite handle_texture_event.
      destruct (take path (loading s)) as [[p rest]|]; [|now split].
      apply (resolved_scene_invariant false p c (set_loading rest s)); assumption.
    + change (handle s (AnimationFrame now)) with (animate now s).
      destruct (animate_furniture now s) as (-> & -> & _).
      rewrite animate_length. now split.
    + now split.
    + split; [|exact Hp].
      change (body_nodes (scene s)
              = seq 0 (List.length
                         (map (fun p => set_scale (value / planetScale s * scale p) p)
                              (planets s)))).
      now rewrite length_map.
    + split; [exact Hb|].
      change (path_nodes (scene s)
              = seq 0 (List.length
                         (map (fun o => mkOrbitPath (path_distance o) checked)
                              (orbitPaths s)))).
      now rewrite length_map.
    + now split.
    + change (handle s (MobileTap hit)) with (mobileTap hit s).
      unfold mobileTap. destruct hit as [j|]; [|now split].
      destruct (nth_error (planets s) j); now split.
    + now split.
    + now split.
    + now split.
Qed.

Lemma body_nodes_In (i : nat) (nodes : list SceneNode) :
  In (BodyNode i) nodes <-> In i (body_nodes nodes).
Proof.
  unfold body_nodes. rewrite in_flat_map. split.
  - intros H. exists (BodyNode i). split; [exact H | now left].
  - intros (n & Hn & Hi). destruct n; try contradiction.
    destruct Hi as [<-|[]]. exact Hn.
Qed.

(** X11.  The scene holds every registered body and every orbit path once,
    in the order of registration, and nothing else under their kind: the
    body children of the scene are the indices [0 .. planets.length - 1],
    the orbit-path children the indices [0 .. orbitPaths.length - 1].  So
    no body is in the scene twice, and an index is a body child of the
    scene exactly when it is an index of the registry.  No event removes
    a child. *)
Theorem scene_holds_every_body (s : SolarSystem) :
  reachable s ->
  body_nodes (scene s) = seq 0 (List.length (planets s))
  /\ path_nodes (scene s) = seq 0 (List.length (orbitPaths s))
  /\ NoDup (body_nodes (scene s))
  /\ forall i, In (BodyNode i) (scene s) <-> (i < List.length (planets s))%nat.
Proof.
  intros Hs. destruct (reachable_scene s Hs) as [Hb Hp].
  split; [exact Hb|]. split; [exact Hp|]. split.
  - rewrite Hb. apply seq_NoDup.
  - intros i. rewrite body_nodes_In, Hb, in_seq. lia.
Qed.

Lemma mars_without_path_reachable : reachable mars_without_path.
Proof.
  apply reachable_run; [apply reachable_init | repeat constructor; simpl; lra].
Qed.

Lemma scene_holds_every_body_witness :
  body_nodes (scene mars_without_path)
  = seq 0 (List.length (planets mars_without_path))
  /\ path_nodes (scene mars_without_path)
     = seq 0 (List.length (orbitPaths mars_without_path))
  /\ NoDup (body_nodes (scene mars_without_path))
  /\ forall i, In (BodyNode i) (scene mars_without_path)
               <-> (i < List.length (planets mars_without_path))%nat.
Proof.
  apply (scene_holds_every_body mars_without_path).
  exact mars_without_path_reachable.
Defined.

(** X12.  An orbit path is made at registration or never: a planet whose
    texture request resolves while the orbit checkbox is clear is
    registered without a path, and setting the checkbox afterwards shows
    the paths of the planets that came before it and makes none for it. *)
Theorem orbit_path_is_made_at_registration_only
        (s : SolarSystem) (loaded : bool) (path : string) (c : Chance)
        (n : string) (sz d : R) (tp : string) (os rs : R) (pd : PlanetFacts)
        (gr : R) (rest : list Pending) (checked : bool) :
  showOrbits s = false ->
  take path (loading s) = Some (PlanetLoad n sz d tp os rs pd gr, rest) ->
  let s' := handle s (texture_event loaded path c) in
  List.length (planets s') = S (List.length (planets s))
  /\ orbitPaths s' = orbitPaths s
  /\ orbitPaths (showOrbits_change checked s')
     = map (fun o => mkOrbitPath (path_distance o) checked) (orbitPaths s).
Proof.
  intros Hclear Htake. cbv zeta.
  rewrite handle_texture_event, Htake.
  destruct (resolved_fields loaded (PlanetLoad n sz d tp os rs pd gr) c
                            (set_loading rest s)) as (_ & Hpaths & _).
  cbv zeta in Hpaths.
  change (showOrbits (set_loading rest s)) with (showOrbits s) in Hpaths.
  change (orbitPaths (set_loading rest s)) with (orbitPaths s) in Hpaths.
  rewrite Hclear in Hpaths. simpl born_paths in Hpaths.
  rewrite app_nil_r in Hpaths.
  split; [|split].
  - rewrite resolved_planets, length_app.
    change (planets (set_loading rest s)) with (planets s).
    simpl. lia.
  - exact Hpaths.
  - unfold showOrbits_change.
    change (orbitPaths (set_orbitPaths ?l ?t)) with l.
    now rewrite Hpaths.
Qed.

Lemma showOrbits_change_fields (checked : bool) (s : SolarSystem) :
  showOrbits (showOrbits_change checked s) = checked
  /\ planets (showOrbits_change checked s) = planets s
  /\ orbitPaths (showOrbits_change checked s)
     = map (fun o => mkOrbitPath (path_distance o) checked) (orbitPaths s).
Proof. repeat split. Qed.

Lemma orbits_hidden_fields :
  showOrbits orbits_hidden = false
  /\ planets orbits_hidden = []
  /\ orbitPaths orbits_hidden = [].
Proof.
  unfold orbits_hidden. rewrite (run_snoc [] (ShowOrbitsChange false)), run_nil.
  change (handle (init 0) (ShowOrbitsChange false))
    with (showOrbits_change false (init 0)).
  destruct (showOrbits_change_fields false (init 0)) as (-> & -> & ->).
  destruct (init_furniture 0) as (-> & _).
  rewrite init_planets. repeat split.
Qed.

Lemma orbits_hidden_mars_pending :
  exists rest,
    take "textures/mars.jpg" (loading orbits_hidden) =
    Some (PlanetLoad "Mars" 0.53 150 "textures/mars.jpg" 0.008 0.009
            (mkFacts "227.9 million km" "687 Earth days" "6,792 km" "Terrestrial")
            (0.53 * 3.0), rest).
Proof. eexists. cbn. reflexivity. Qed.

Lemma orbit_path_is_made_at_registration_only_witness :
  List.length
    (planets (handle orbits_hidden (TextureLoaded "textures/mars.jpg" no_chance)))
  = 1%nat
  /\ orbitPaths
       (showOrbits_change true
          (handle orbits_hidden (TextureLoaded "textures/mars.jpg" no_chance)))
     = [].
Proof.
  destruct orbits_hidden_mars_pending as [rest Hpending].
  destruct orbits_hidden_fields as (Hclear & Hplanets & Hpaths).
  destruct (orbit_path_is_made_at_registration_only
              orbits_hidden true "textures/mars.jpg" no_chance
              _ _ _ _ _ _ _ _ rest true Hclear Hpending) as (Hlen & _ & Hshown).
  unfold texture_event in Hlen, Hshown.
  rewrite Hlen, Hshown, Hplanets, Hpaths. split; reflexivity.
Defined.

(** ** The star backdrop *)

Lemma star_requests_app (l l' : list Pending) :
  star_requests (l ++ l') = (star_requests l + star_requests l')%nat.
Proof. unfold star_requests. now rewrite filter_app, length_app. Qed.

Lemma backdrops_app (l l' : list SceneNode) :
  backdrops (l ++ l') = (backdrops l + backdrops l')%nat.
Proof. unfold backdrops. now rewrite filter_app, length_app. Qed.

Lemma star_requests_take (path : string) (l : list Pending) (p : Pending)
      (rest : list Pending) :
  take path l = Some (p, rest) ->
  star_requests l = (star_requests [p] + star_requests rest)%nat.
Proof.
  intros H. apply take_split in H as (l1 & l2 & -> & ->).
  rewrite !star_requests_app. change (p :: l2) with ([p] ++ l2).
  rewrite star_requests_app. lia.
Qed.

(** A resolved request for a star texture is replaced by a backdrop or by
    the next request; any other request changes neither. *)
Lemma resolved_backdrop (loaded : bool) (p : Pending) (c : Chance)
      (s : SolarSystem) :
  let s' := if loaded then onLoad p c s else onError p c s in
  (star_requests (loading s') + backdrops (scene s'))%nat
  = (star_requests [p] + star_requests (loading s) + backdrops (scene s))%nat.
Proof.
  cbv zeta.
  destruct (resolved_fields loaded p c s) as (Hscene & _).
  cbv zeta in Hscene.
  rewrite Hscene, resolved_loading, star_requests_app, backdrops_app.
  unfold star_requests, backdrops.
  destruct p, loaded; simpl; try lia;
    destruct (showOrbits s); simpl; lia.
Qed.

Lemma reachable_backdrop (s : SolarSystem) :
  reachable s -> (star_requests (loading s) + backdrops (scene s) = 1)%nat.
Proof.
  revert s.
  apply (reachable_invariant
           (fun s => (star_requests (loading s) + backdrops (scene s) = 1)%nat)).
  - intros now. destruct (init_furniture now) as (_ & _ & _ & _ & ->).
    unfold init. rewrite animate_loading. reflexivity.
  - intros s e _ _ H. destruct e; try exact H.
    + change (TextureLoaded path c) with (texture_event true path c).
      rewrite handle_texture_event.
      destruct (take path (loading s)) as [[p rest]|] eqn:E; [|exact H].
      rewrite (resolved_backdrop true p c (set_loading rest s)).
      change (loading (set_loading rest s)) with rest.
      change (scene (set_loading rest s)) with (scene s).
      rewrite <- (star_requests_take path _ _ _ E). exact H.
    + change (TextureFailed path c) with (texture_event false path c).
      rewrite handle_texture_event.
      destruct (take path (loading s)) as [[p rest]|] eqn:E; [|exact H].
      rewrite (resolved_backdrop false p c (set_loading rest s)).
      change (loading (set_loading rest s)) with rest.
      change (scene (set_loading rest s)) with (scene s).
      rewrite <- (star_requests_take path _ _ _ E). exact H.
    + change (handle s (AnimationFrame now)) with (animate now s).
      destruct (animate_furniture now s) as (_ & -> & _).
      rewrite animate_loading. exact H.
    + change (handle s (MobileTap hit)) with (mobileTap hit s).
      unfold mobileTap. destruct hit as [j|]; [|exact H].
      destruct (nth_error (planets s) j); exact H.
Qed.

(** X13.  The sky has exactly one backdrop: at every moment either one
    request for a star texture is with the loader and the scene has no
    backdrop, or none is and the scene has one, be it the star sphere or
    the procedural stars.  The fallback chain 8K, 2K, procedural never
    stacks two backdrops and never ends without one. *)
Theorem one_star_backdrop (s : SolarSystem) :
  reachable s ->
  (star_requests (loading s) + backdrops (scene s) = 1)%nat
  /\ (loading s = [] -> backdrops (scene s) = 1%nat).
Proof.
  intros Hs. pose proof (reachable_backdrop s Hs) as H. split; [exact H|].
  intros Hnone. now rewrite Hnone in H.
Qed.

Lemma no_star_texture_reachable : reachable no_star_texture.
Proof.
  apply reachable_run; [apply reachable_init | repeat constructor; simpl; lra].
Qed.

Lemma one_star_backdrop_witness :
  (star_requests (loading no_star_texture)
   + backdrops (scene no_star_texture) = 1)%nat
  /\ (loading no_star_texture = [] -> backdrops (scene no_star_texture) = 1%nat).
Proof.
  apply (one_star_backdrop no_star_texture).
  exact no_star_texture_reachable.
Defined.

(** ** The ring assembly: opacity *)

Lemma ringSegments_range (seg : Segment) :
  In seg ringSegments -> 0 < speed seg /\ 0 <= opacity seg <= 1.
Proof.
  intros H. simpl in H.
  repeat (destruct H as [H|H]; [subst seg; simpl; lra|]). contradiction.
Qed.

Lemma forEach_glow_shapes (i : nat) (segs : list Segment)
      (sh : ObjectType * RingUserData) :
  In sh (map ring_shape (ringSegments_forEach i segs)) ->
  isGlow (snd sh) = true ->
  exists seg, In seg segs /\ sh = ring_shape (addRingSubsurfaceEffect seg).
Proof.
  revert i; induction segs as [|seg segs IH]; intros i Hin Hglow.
  - contradiction.
  - simpl in Hin. destruct Hin as [<-|[<-|Hin]].
    + discriminate.
    + exists seg; split; [now left | reflexivity].
    + destruct (IH (S i) Hin Hglow) as (seg' & Hseg & ->).
      exists seg'; split; [now right | reflexivity].
Qed.

Lemma built_glow_sheet (sh : ObjectType * RingUserData) :
  In sh (map ring_shape (createSaturnRings (fun _ => ([], [])))) ->
  isGlow (snd sh) = true ->
  exists seg, In seg ringSegments /\ sh = ring_shape (addRingSubsurfaceEffect seg).
Proof.
  unfold createSaturnRings. rewrite map_app, in_app_iff. intros [Hin|Hin] Hglow.
  - now apply (forEach_glow_shapes 0 ringSegments).
  - simpl in Hin.
    repeat (destruct Hin as [Hin|Hin]; [subst sh; discriminate|]).
    contradiction.
Qed.

Lemma ring_step_glow (now v : R) (r : RingObject) (seg : Segment) :
  ring_shape r = ring_shape (addRingSubsurfaceEffect seg) ->
  speed seg * 0.7 <> 0 ->
  material_opacity (ring_step now v r) = None.
Proof.
  intros H Hne. destruct r as [ty ry rz op ud pos vel].
  unfold ring_shape in H; simpl in H.
  assert (Hty : ty = MeshType) by exact (f_equal fst H).
  assert (Hud : ud = mkRingUserData (Some (speed seg * 0.7)) None None true false)
    by exact (f_equal snd H).
  subst ty ud. unfold ring_step, truthy; simpl.
  destruct (Req_dec_T (speed seg * 0.7) 0) as [E|_]; [contradiction|].
  simpl. destruct op; reflexivity.
Qed.

Lemma ring_step_segment_opacity (now v : R) (r : RingObject) (seg : Segment)
      (n : nat) :
  ring_shape r = ring_shape (create3DRingSegment seg n) ->
  speed seg <> 0 ->
  material_opacity (ring_step now v r)
  = Some (opacity seg * (sin (now * 0.0005 + INR n) * 0.1 + 0.9)).
Proof.
  intros H Hne. destruct r as [ty ry rz op ud pos vel].
  unfold ring_shape in H; simpl in H.
  assert (Hty : ty = MeshType) by exact (f_equal fst H).
  assert (Hud : ud = mkRingUserData (Some (speed seg)) (Some n) (Some seg)
                                    false false)
    by exact (f_equal snd H).
  subst ty ud. unfold ring_step, truthy; simpl.
  destruct (Req_dec_T (speed seg) 0) as [E|_]; [contradiction|].
  reflexivity.
Qed.

Lemma filter_map_length {A B : Type} (f : A -> B) (g : B -> bool) (l : list A) :
  List.length (filter (fun x => g (f x)) l) = List.length (filter g (map f l)).
Proof.
  induction l as [|x l IH]; simpl; auto.
  destruct (g (f x)); simpl; now rewrite IH.
Qed.

(** In the running program with the ring assembly built, a frame that is
    not paused gives every ring object one step. *)
Lemma reachable_rings_step (s : SolarSystem) (now : R) (rings : list RingObject) :
  reachable s ->
  isPaused s = false ->
  saturnRings s = Some rings ->
  saturnRings (animate now s)
  = Some (map (ring_step now (animationSpeed s)) rings)
  /\ map ring_shape rings = map ring_shape (createSaturnRings (fun _ => ([], []))).
Proof.
  intros Hs Hrun Hrings.
  destruct (reachable_rings_built s Hs rings Hrings) as [Hshape Hin].
  split; [|exact Hshape].
  apply in_map_iff in Hin as (saturn & Hname & Hin).
  apply In_nth_error in Hin as [i Hi].
  rewrite animate_saturnRings by assumption.
  rewrite (forEach_rings _ _ _ _ i saturn), Hrings; auto.
  now apply (reachable_saturn_unique s i saturn).
Qed.

(** X14.  The glow sheets under Saturn's rings lose their opacity: their
    [userData] has no [index], so the pulse of a running frame is not a
    number, and after the frame the opacity of each of the five glow sheets
    is not a number either ([None]). *)
Theorem ring_glow_opacity_is_lost
        (s : SolarSystem) (now : R) (rings : list RingObject) :
  reachable s ->
  isPaused s = false ->
  saturnRings s = Some rings ->
  exists rings',
    saturnRings (animate now s) = Some rings'
    /\ List.length (filter (fun r => isGlow (ring_userData r)) rings') = 5%nat
    /\ forall r, In r rings' -> isGlow (ring_userData r) = true ->
                 material_opacity r = None.
Proof.
  intros Hs Hrun Hrings.
  destruct (reachable_rings_step s now rings Hs Hrun Hrings) as [Hstep Hshape].
  exists (map (ring_step now (animationSpeed s)) rings).
  assert (Hshape' : map ring_shape (map (ring_step now (animationSpeed s)) rings)
                    = map ring_shape (createSaturnRings (fun _ => ([], [])))).
  { rewrite map_map, <- Hshape. apply map_ext. intros r; apply ring_step_shape. }
  split; [exact Hstep|]. split.
  - rewrite (filter_map_length ring_shape (fun sh => isGlow (snd sh))).
    rewrite Hshape'. reflexivity.
  - intros r' Hin Hglow. apply in_map_iff in Hin as (r & <- & Hin).
    assert (Hsh : ring_shape (ring_step now (animationSpeed s) r) = ring_shape r)
      by apply ring_step_shape.
    assert (Hglow0 : isGlow (snd (ring_shape r)) = true)
      by (rewrite <- Hsh; exact Hglow).
    destruct (built_glow_sheet (ring_shape r)) as (seg & Hseg & Hr); auto.
    { rewrite <- Hshape. now apply in_map. }
    apply (ring_step_glow now _ r seg Hr).
    destruct (ringSegments_range seg Hseg) as [Hspeed _]. lra.
Qed.

Lemma saturn_loaded_reachable : reachable saturn_loaded.
Proof.
  apply reachable_run; [apply reachable_init | repeat constructor; simpl; lra].
Qed.

Lemma saturn_loaded_fields :
  isPaused saturn_loaded = false
  /\ saturnRings saturn_loaded = Some (createSaturnRings (fun _ => ([], []))).
Proof. split; reflexivity. Qed.

Lemma ring_glow_opacity_is_lost_witness :
  exists rings',
    saturnRings (animate 16 saturn_loaded) = Some rings'
    /\ List.length (filter (fun r => isGlow (ring_userData r)) rings') = 5%nat
    /\ forall r, In r rings' -> isGlow (ring_userData r) = true ->
                 material_opacity r = None.
Proof.
  destruct saturn_loaded_fields as [Hrun Hrings].
  exact (ring_glow_opacity_is_lost saturn_loaded 16 _
           saturn_loaded_reachable Hrun Hrings).
Defined.

(** X15.  The brightness of a ring segment does not drift: a running frame
    sets the opacity of segment [n] to the segment's own opacity times
    [sin (now * 0.0005 + n) * 0.1 + 0.9], whatever it was before, so it
    stays between eight tenths of the segment's opacity and that opacity. *)
Theorem ring_brightness_stays_in_range
        (s : SolarSystem) (now : R) (n : nat) (seg : Segment)
        (rings : list RingObject) (ring : RingObject) :
  reachable s ->
  isPaused s = false ->
  saturnRings s = Some rings ->
  nth_error ringSegments n = Some seg ->
  nth_error rings (2 * n) = Some ring ->
  exists rings' ring' o,
    saturnRings (animate now s) = Some rings'
    /\ nth_error rings' (2 * n) = Some ring'
    /\ material_opacity ring' = Some o
    /\ o = opacity seg * (sin (now * 0.0005 + INR n) * 0.1 + 0.9)
    /\ 0.8 * opacity seg <= o <= opacity seg.
Proof.
  intros Hs Hrun Hrings Hseg Hring.
  destruct (reachable_rings_step s now rings Hs Hrun Hrings) as [Hstep Hshape].
  pose proof (built_segment rings n seg ring Hshape Hseg Hring) as Hbuilt.
  destruct (ringSegments_range seg (nth_error_In _ _ Hseg)) as [Hspeed Hop].
  exists (map (ring_step now (animationSpeed s)) rings),
         (ring_step now (animationSpeed s) ring),
         (opacity seg * (sin (now * 0.0005 + INR n) * 0.1 + 0.9)).
  split; [exact Hstep|]. split; [now rewrite nth_error_map, Hring|].
  split; [apply ring_step_segment_opacity; [exact Hbuilt | lra]|].
  split; [reflexivity|].
  pose proof (SIN_bound (now * 0.0005 + INR n)) as [Hlo Hhi].
  split; nra.
Qed.

Lemma ring_brightness_stays_in_range_witness :
  exists rings' ring' o,
    saturnRings (animate 16 saturn_loaded) = Some rings'
    /\ nth_error rings' (2 * 2) = Some ring'
    /\ material_opacity ring' = Some o
    /\ o = opacity ringB * (sin (16 * 0.0005 + INR 2) * 0.1 + 0.9)
    /\ 0.8 * opacity ringB <= o <= opacity ringB.
Proof.
  destruct saturn_loaded_fields as [Hrun Hrings].
  apply (ring_brightness_stays_in_range saturn_loaded 16 2 ringB _
           (create3DRingSegment ringB 2) saturn_loaded_reachable Hrun Hrings);
    reflexivity.
Defined.

(** ** The sun's glow *)

Lemma glows_forEach_length (t v : R) (k : nat) (glows : list Glow) :
  List.length (glows_forEach t v k glows) = List.length glows.
Proof.
  revert k; induction glows as [|g glows IH]; intros k; simpl; auto.
Qed.

Lemma glows_forEach_nth (t v : R) (k : nat) (glows : list Glow) (i : nat)
      (g : Glow) :
  nth_error (glows_forEach t v k glows) i = Some g ->
  exists g0, nth_error glows i = Some g0 /\ g = glow_step t v (k + i) g0.
Proof.
  revert k i; induction glows as [|g0 glows IH]; intros k i H.
  - destruct i; discriminate.
  - destruct i as [|i]; simpl in H.
    + injection H as <-. exists g0. split; [reflexivity|].
      now rewrite Nat.add_0_r.
    + destruct (IH (S k) i H) as (g1 & Hg1 & ->).
      exists g1. split; [exact Hg1|]. f_equal. lia.
Qed.

Lemma glow_step_in_range (t v : R) (i : nat) (g : Glow) :
  (i < 4)%nat -> glow_in_range i (glow_step t v i g).
Proof.
  intros Hi. unfold glow_in_range, glow_step.
  pose proof (SIN_bound (t * (0.5 + INR i * 0.2))) as [Hlo Hhi].
  do 4 (destruct i as [|i];
        [eexists _, _; split; [reflexivity|]; split; [reflexivity|]; lra|]).
  lia.
Qed.

Lemma animate_sunGlowEffects (now : R) (s : SolarSystem) :
  sunGlowEffects (animate now s)
  = if isPaused s then sunGlowEffects s
    else match sun s with
         | Some _ => option_map (glows_forEach (now * 0.001) (animationSpeed s) 0)
                                (sunGlowEffects s)
         | None => sunGlowEffects s
         end.
Proof.
  unfold animate; simpl. destruct (isPaused s); simpl; auto.
  destruct (planets_forEach _ _ _ _); reflexivity.
Qed.

Lemma resolved_sunGlowEffects (loaded : bool) (p : Pending) (c : Chance)
      (s : SolarSystem) :
  sunGlowEffects (if loaded then onLoad p c s else onError p c s)
  = match p with
    | SunLoad => Some createSunGlowEffects
    | _ => sunGlowEffects s
    end.
Proof.
  destruct p, loaded; try reflexivity;
    apply loadPlanet_register_fields.
Qed.

Lemma reachable_sun_glow (s : SolarSystem) (glows : list Glow) :
  reachable s ->
  sunGlowEffects s = Some glows ->
  List.length glows = 4%nat
  /\ forall i g, nth_error glows i = Some g -> glow_in_range i g.
Proof.
  intros Hs; revert glows; revert s Hs.
  apply (reachable_invariant
           (fun s => forall glows,
                sunGlowEffects s = Some glows ->
                List.length glows = 4%nat
                /\ forall i g, nth_error glows i = Some g -> glow_in_range i g)).
  - intros now glows. unfold init. rewrite animate_sunGlowEffects.
    intros H; cbn in H. discriminate.
  - assert (Hresolved : forall (loaded : bool) (p : Pending) (c : Chance)
                               (s : SolarSystem) (glows : list Glow),
               (forall glows0, sunGlowEffects s = Some glows0 ->
                  List.length glows0 = 4%nat
                  /\ forall i g, nth_error glows0 i = Some g -> glow_in_range i g) ->
               sunGlowEffects (if loaded then onLoad p c s else onError p c s)
               = Some glows ->
               List.length glows = 4%nat
               /\ forall i g, nth_error glows i = Some g -> glow_in_range i g).
    { intros loaded p c s glows H. rewrite resolved_sunGlowEffects.
      destruct p; try apply H.
      intros [= <-]. split; [reflexivity|].
      intros i g Hg.
      do 4 (destruct i as [|i];
            [injection Hg as <-; eexists _, _;
             split; [reflexivity|]; split; [reflexivity|]; lra|]).
      destruct i; discriminate. }
    intros s e _ _ H glows. destruct e; try apply H.
    + change (TextureLoaded path c) with (texture_event true path c).
      rewrite handle_texture_event.
      destruct (take path (loading s)) as [[p rest]|]; [|apply H].
      apply (Hresolved true p c (set_loading rest s)). exact H.
    + change (TextureFailed path c) with (texture_event false path c).
      rewrite handle_texture_event.
      destruct (take path (loading s)) as [[p rest]|]; [|apply H].
      apply (Hresolved false p c (set_loading rest s)). exact H.
    + change (handle s (AnimationFrame now)) with (animate now s).
      rewrite animate_sunGlowEffects.
      destruct (isPaused s); [apply H|].
      destruct (sun s); [|apply H].
      destruct (sunGlowEffects s) as [glows0|]; [|discriminate].
      destruct (H glows0 eq_refl) as [Hlen _].
      intros [= <-]. rewrite glows_forEach_length. split; [exact Hlen|].
      intros i g Hg.
      assert (Hi : (i < 4)%nat).
      { rewrite <- Hlen, <- (glows_forEach_length (now * 0.001) (animationSpeed s) 0).
        apply nth_error_Some. congruence. }
      apply glows_forEach_nth in Hg as (g0 & _ & ->).
      now apply glow_step_in_range.
    + change (handle s (MobileTap hit)) with (mobileTap hit s).
      unfold mobileTap. destruct hit as [j|]; [|apply H].
      destruct (nth_error (planets s) j); apply H.
Qed.

(** X16.  Once the sun exists it has its four glow layers, and the opacity
    of layer [i] is a number between eight tenths of its base opacity
    ([0.4], [0.25], [0.15], [0.05]) and that base opacity: the pulse is
    computed from the base opacity in every frame, so it cannot drift. *)
Theorem sun_glow_stays_in_range
        (s : SolarSystem) (glows : list Glow) (i : nat) (g : Glow) :
  reachable s ->
  sunGlowEffects s = Some glows ->
  nth_error glows i = Some g ->
  List.length glows = 4%nat /\ glow_in_range i g.
Proof.
  intros Hs Hglows Hg.
  destruct (reachable_sun_glow s glows Hs Hglows) as [Hlen Hrange].
  split; [exact Hlen | now apply Hrange].
Qed.

Lemma sun_loaded_reachable : reachable sun_loaded.
Proof.
  apply reachable_run; [apply reachable_init | repeat constructor; simpl; lra].
Qed.

Lemma sun_loaded_glows : sunGlowEffects sun_loaded = Some createSunGlowEffects.
Proof. reflexivity. Qed.

Lemma sun_glow_stays_in_range_witness :
  List.length createSunGlowEffects = 4%nat
  /\ glow_in_range 1 (mkGlow (Some 0.25) 0 0).
Proof.
  apply (sun_glow_stays_in_range sun_loaded createSunGlowEffects 1
           (mkGlow (Some 0.25) 0 0) sun_loaded_reachable sun_loaded_glows).
  reflexivity.
Defined.

(** ** The registry and the catalogue *)

Lemma appearance_step (ps : list Mesh) (v : R) (p : Mesh) :
  appearance (spin v (orbit ps v p)) = appearance p.
Proof.
  unfold appearance. rewrite identity_spin, identity_orbit.
  unfold orbit.
  destruct (parent_is "Earth" (userData p)).
  - destruct (find_planet "Earth" ps); reflexivity.
  - destruct (negb (name (userData p) =? "Moon")%string); reflexivity.
Qed.

Lemma visit_appearance (now v : R) (st : list Mesh * option (list RingObject))
      (i : nat) :
  map appearance (fst (visit now v st i)) = map appearance (fst st).
Proof.
  destruct st as [ps rings]; simpl.
  destruct (nth_error ps i) as [p|] eqn:E; simpl; auto.
  rewrite map_store, appearance_step.
  apply store_id. now rewrite nth_error_map, E.
Qed.

Lemma visits_appearance (now v : R) (idxs : list nat)
      (st : list Mesh * option (list RingObject)) :
  map appearance (fst (visits now v idxs st)) = map appearance (fst st).
Proof.
  revert st; induction idxs as [|i idxs IH]; intros st; auto.
  rewrite visits_cons, IH; apply visit_appearance.
Qed.

Lemma animate_appearance (now : R) (s : SolarSystem) :
  map appearance (planets (animate now s)) = map appearance (planets s).
Proof.
  destruct (isPaused s) eqn:E.
  - now rewrite animate_paused.
  - rewrite animate_planets by assumption.
    apply (visits_appearance now (animationSpeed s)
             (seq 0 (List.length (planets s))) (planets s, saturnRings s)).
Qed.

Lemma init_loading (now : R) :
  loading (init now)
  = Stars8KLoad :: SunLoad :: map pending_entry planetData ++ [MoonLoad].
Proof. unfold init. rewrite animate_loading. reflexivity. Qed.

Lemma born_catalogued (loaded : bool) (p : Pending) (c : Chance) (k : R) :
  pending_catalogued p ->
  Forall catalogue_appearance (map appearance (born loaded p c k)).
Proof.
  intros Hp. destruct p; simpl; try constructor.
  - destruct Hp as (cfg & Hcfg & Heq).
    injection Heq as -> -> -> -> -> -> -> ->.
    left. exists cfg, loaded. split; [exact Hcfg|].
    destruct loaded; reflexivity.
  - constructor.
  - destruct loaded; simpl; constructor; [|constructor].
    right. now exists k.
Qed.

Lemma take_Forall (P : Pending -> Prop) (path : string) (l : list Pending)
      (p : Pending) (rest : list Pending) :
  take path l = Some (p, rest) -> Forall P l -> P p /\ Forall P rest.
Proof.
  intros H Hl. apply take_split in H as (l1 & l2 & -> & ->).
  apply Forall_app in Hl as [H1 H2]. inversion H2; subst.
  split; [assumption | now apply Forall_app].
Qed.

Lemma resolved_catalogued (loaded : bool) (p : Pending) (c : Chance)
      (s : SolarSystem) :
  pending_catalogued p ->
  Forall pending_catalogued (loading s) ->
  Forall catalogue_appearance (map appearance (planets s)) ->
  let s' := if loaded then onLoad p c s else onError p c s in
  Forall pending_catalogued (loading s')
  /\ Forall catalogue_appearance (map appearance (planets s')).
Proof.
  intros Hp Hl Hb. cbv zeta. rewrite resolved_loading, resolved_planets, map_app.
  split; apply Forall_app; split; auto.
  - destruct loaded, p; constructor; [exact I | constructor].
  - now apply born_catalogued.
Qed.

Lemma reachable_catalogued (s : SolarSystem) :
  reachable s ->
  Forall pending_catalogued (loading s)
  /\ Forall catalogue_appearance (map appearance (planets s)).
Proof.
  revert s.
  apply (reachable_invariant
           (fun s => Forall pending_catalogued (loading s)
                     /\ Forall catalogue_appearance (map appearance (planets s)))).
  - intros now. rewrite init_loading, init_planets. split; [|constructor].
    do 2 (constructor; [exact I|]). apply Forall_app; split.
    + apply Forall_forall. intros p Hin.
      apply in_map_iff in Hin as (cfg & <- & Hcfg). now exists cfg.
    + constructor; [exact I | constructor].
  - intros s e _ _ [Hl Hb]. destruct e; try (split; [exact Hl | exact Hb]).
    + change (TextureLoaded path c) with (texture_event true path c).
      rewrite handle_texture_event.
      destruct (take path (loading s)) as [[p rest]|] eqn:E; [|now split].
      destruct (take_Forall _ _ _ _ _ E Hl) as [Hp Hrest].
      now apply (resolved_catalogued true p c (set_loading rest s)).
    + change (TextureFailed path c) with (texture_event false path c).
      rewrite handle_texture_event.
      destruct (take path (loading s)) as [[p rest]|] eqn:E; [|now split].
      destruct (take_Forall _ _ _ _ _ E Hl) as [Hp Hrest].
      now apply (resolved_catalogued false p c (set_loading rest s)).
    + change (handle s (AnimationFrame now)) with (animate now s).
      rewrite animate_loading, animate_appearance. now split.
    + split; [exact Hl|].
      change (planets (handle s (ScaleInput value)))
        with (map (fun p => set_scale (value / planetScale s * scale p) p)
                  (planets s)).
      rewrite map_map. exact Hb.
    + change (handle s (MobileTap hit)) with (mobileTap hit s).
      unfold mobileTap. destruct hit as [j|]; [|now split].
      destruct (nth_error (planets s) j); now split.
Qed.

Lemma planetData_texts (cfg : PlanetConfig) :
  In cfg planetData ->
  cfg_name cfg <> "Moon"
  /\ fallbackColor (cfg_name cfg) <> 0x888888%Z
  /\ orUnknown (Some (realDistance (cfg_data cfg))) = realDistance (cfg_data cfg)
  /\ orUnknown (Some (period (cfg_data cfg))) = period (cfg_data cfg)
  /\ orUnknown (Some (diameter (cfg_data cfg))) = diameter (cfg_data cfg)
  /\ orUnknown (Some (type (cfg_data cfg))) = type (cfg_data cfg).
Proof.
  intros H. simpl in H.
  repeat (destruct H as [H|H];
          [subst cfg; repeat split; try reflexivity; discriminate|]).
  contradiction.
Qed.

(** X17.  The registry holds catalogue entries only.  Every registered
    body is the moon, or one of the eight planets of [planetData] with that
    entry's name, distance, speeds and facts, and with the geometry that
    [loadPlanet] built at start-up: its radius is [size * 3], the initial
    [planetScale], whatever the scale slider said when the texture
    arrived.  Its material is the texture of the entry or the entry's
    fallback colour, which is never the default grey [0x888888]. *)
Theorem registry_is_the_catalogue (s : SolarSystem) (body : Mesh) :
  reachable s ->
  In body (planets s) ->
  catalogued body
  /\ (name (userData body) <> "Moon" ->
      exists cfg,
        In cfg planetData
        /\ name (userData body) = cfg_name cfg
        /\ radius body = cfg_size cfg * 3.0
        /\ (material body = TextureMap (cfg_texturePath cfg)
            \/ material body = FlatColor (fallbackColor (cfg_name cfg))))
  /\ material body <> FlatColor 0x888888%Z.
Proof.
  intros Hs Hin.
  destruct (reachable_catalogued s Hs) as [_ Hb].
  rewrite Forall_map, Forall_forall in Hb. specialize (Hb body Hin).
  split; [exact Hb|].
  destruct Hb as [(cfg & loaded & Hcfg & Heq) | (k & Heq)].
  - unfold appearance, catalogue_entry in Heq.
    assert (Hr : radius body = cfg_size cfg * 3.0)
      by exact (f_equal (fun a => fst (fst a)) Heq).
    assert (Hm : material body
                 = if loaded then TextureMap (cfg_texturePath cfg)
                   else FlatColor (fallbackColor (cfg_name cfg)))
      by exact (f_equal (fun a => snd (fst a)) Heq).
    assert (Hn : name (userData body) = cfg_name cfg)
      by exact (f_equal (fun a => name (snd a)) Heq).
    destruct (planetData_texts cfg Hcfg) as (_ & Hgrey & _).
    split.
    + intros _. exists cfg. repeat split; auto.
      destruct loaded; auto.
    + rewrite Hm. destruct loaded; [discriminate|].
      intros [= H]. now apply Hgrey.
  - assert (Hm : material body = TextureMap "textures/moon.jpg")
      by exact (f_equal (fun a => snd (fst a)) Heq).
    assert (Hn : name (userData body) = "Moon")
      by exact (f_equal (fun a => name (snd a)) Heq).
    split; [now intros H|]. rewrite Hm. discriminate.
Qed.

Lemma registry_is_the_catalogue_witness :
  catalogued earthMesh
  /\ (exists cfg,
        In cfg planetData
        /\ name (userData earthMesh) = cfg_name cfg
        /\ radius earthMesh = cfg_size cfg * 3.0
        /\ (material earthMesh = TextureMap (cfg_texturePath cfg)
            \/ material earthMesh = FlatColor (fallbackColor (cfg_name cfg))))
  /\ material earthMesh <> FlatColor 0x888888%Z.
Proof.
  assert (Hin : In earthMesh (planets earth_loaded))
    by (rewrite earth_loaded_planets; now left).
  destruct (registry_is_the_catalogue earth_loaded earthMesh
              earth_loaded_reachable Hin) as (H1 & H2 & H3).
  split; [exact H1|]. split; [|exact H3].
  apply H2. discriminate.
Defined.

Lemma take_In (path : string) (l : list Pending) (p : Pending)
      (rest : list Pending) (q : Pending) :
  take path l = Some (p, rest) -> In q l -> q = p \/ In q rest.
Proof.
  intros H Hin. apply take_split in H as (l1 & l2 & -> & ->).
  apply in_app_or in Hin as [Hin | [Heq | Hin]].
  - right. apply in_or_app. now left.
  - left. now symmetry.
  - right. apply in_or_app. now right.
Qed.

Lemma names_appearance (ps qs : list Mesh) :
  map appearance ps = map appearance qs -> names ps = names qs.
Proof.
  intros H. apply names_identity.
  change identity with (fun p => snd (appearance p)).
  rewrite <- !(map_map appearance snd). now rewrite H.
Qed.

Lemma resolved_known (loaded : bool) (p : Pending) (c : Chance) (s : SolarSystem)
      (cfg : PlanetConfig) :
  In (cfg_name cfg) (names (planets s))
  \/ pending_entry cfg = p \/ In (pending_entry cfg) (loading s) ->
  let s' := if loaded then onLoad p c s else onError p c s in
  In (cfg_name cfg) (names (planets s')) \/ In (pending_entry cfg) (loading s').
Proof.
  cbv zeta. rewrite resolved_planets, resolved_loading, names_app, names_born.
  intros [H | [H | H]].
  - left. apply in_or_app. now left.
  - left. apply in_or_app. right. subst p. now left.
  - right. apply in_or_app. now left.
Qed.

Lemma reachable_known (s : SolarSystem) (cfg : PlanetConfig) :
  reachable s ->
  In cfg planetData ->
  In (cfg_name cfg) (names (planets s)) \/ In (pending_entry cfg) (loading s).
Proof.
  intros Hs Hcfg; revert s Hs.
  apply (reachable_invariant
           (fun s => In (cfg_name cfg) (names (planets s))
                     \/ In (pending_entry cfg) (loading s))).
  - intros now. right. rewrite init_loading. do 2 right.
    apply in_or_app. left. now apply in_map.
  - intros s e _ _ H. destruct e; try exact H.
    + change (TextureLoaded path c) with (texture_event true path c).
      rewrite handle_texture_event.
      destruct (take path (loading s)) as [[p rest]|] eqn:E; [|exact H].
      apply (resolved_known true p c (set_loading rest s)).
      destruct H as [H|H]; [now left | right].
      destruct (take_In _ _ _ _ _ E H); auto.
    + change (TextureFailed path c) with (texture_event false path c).
      rewrite handle_texture_event.
      destruct (take path (loading s)) as [[p rest]|] eqn:E; [|exact H].
      apply (resolved_known false p c (set_loading rest s)).
      destruct H as [H|H]; [now left | right].
      destruct (take_In _ _ _ _ _ E H); auto.
    + change (handle s (AnimationFrame now)) with (animate now s).
      rewrite animate_loading.
      now rewrite (names_identity _ _ (animate_identity now s)).
    + destruct H as [H|H]; [left | now right].
      change (planets (handle s (ScaleInput value)))
        with (map (fun p => set_scale (value / planetScale s * scale p) p)
                  (planets s)).
      unfold names in *. now rewrite map_map.
    + change (handle s (MobileTap hit)) with (mobileTap hit s).
      unfold mobileTap. destruct hit as [j|]; [|exact H].
      destruct (nth_error (planets s) j); exact H.
Qed.

(** X18.  No planet is lost.  Each of the eight planets of [planetData] is
    in the registry or its texture request is still with the loader; once
    no request is pending, all eight are registered and offered in the
    follow list, whether their textures loaded or failed. *)
Theorem no_planet_is_lost (s : SolarSystem) (cfg : PlanetConfig) :
  reachable s ->
  In cfg planetData ->
  (In (cfg_name cfg) (names (planets s)) \/ In (pending_entry cfg) (loading s))
  /\ (loading s = [] ->
      In (cfg_name cfg) (names (planets s))
      /\ In (cfg_name cfg) (followPlanet_options s)).
Proof.
  intros Hs Hcfg. pose proof (reachable_known s cfg Hs Hcfg) as H.
  split; [exact H|]. intros Hnone. rewrite Hnone in H.
  destruct H as [H|[]]. split; [exact H|].
  now rewrite (reachable_options s Hs).
Qed.

Lemma all_resolved_reachable : reachable all_resolved.
Proof.
  apply reachable_run; [apply reachable_init | repeat constructor; simpl; lra].
Qed.

Lemma all_resolved_loading : loading all_resolved = [].
Proof. vm_compute. reflexivity. Qed.

Lemma no_planet_is_lost_witness :
  In "Venus" (names (planets all_resolved))
  /\ In "Venus" (followPlanet_options all_resolved).
Proof.
  apply (no_planet_is_lost all_resolved
           (mkConfig "Venus" 0.95 70 "textures/venus.jpg" 0.015 (-0.002)
              (mkFacts "108.2 million km" "225 Earth days" "12,104 km"
                       "Terrestrial"))).
  - exact all_resolved_reachable.
  - simpl. tauto.
  - exact all_resolved_loading.
Defined.

(** X19.  The information panel.  For the moon [showPlanetInfo] writes
    the name and four times [Unknown], its [userData] having none of the
    four facts; for a planet it writes the four facts of its entry of
    [planetData], never [Unknown]. *)
Theorem info_panel_texts (s : SolarSystem) (body : Mesh) :
  reachable s ->
  In body (planets s) ->
  (name (userData body) = "Moon" ->
   showPlanetInfo body
   = mkInfoPanel "Moon" "Unknown" "Unknown" "Unknown" "Unknown")
  /\ (name (userData body) <> "Moon" ->
      exists cfg,
        In cfg planetData
        /\ showPlanetInfo body
           = mkInfoPanel (cfg_name cfg) (realDistance (cfg_data cfg))
                         (period (cfg_data cfg)) (diameter (cfg_data cfg))
                         (type (cfg_data cfg))).
Proof.
  intros Hs Hin.
  destruct (reachable_catalogued s Hs) as [_ Hb].
  rewrite Forall_map, Forall_forall in Hb. specialize (Hb body Hin).
  destruct Hb as [(cfg & loaded & Hcfg & Heq) | (k & Heq)].
  - assert (Hn : name (userData body) = cfg_name cfg)
      by exact (f_equal (fun a => name (snd a)) Heq).
    assert (Hf : facts (userData body) = Some (cfg_data cfg))
      by exact (f_equal (fun a => facts (snd a)) Heq).
    destruct (planetData_texts cfg Hcfg) as (Hmoon & _ & H1 & H2 & H3 & H4).
    split; [intros H; exfalso; apply Hmoon; congruence|].
    intros _. exists cfg. split; [exact Hcfg|].
    unfold showPlanetInfo. cbv zeta. rewrite Hn, Hf. simpl option_map.
    now rewrite H1, H2, H3, H4.
  - assert (Hn : name (userData body) = "Moon")
      by exact (f_equal (fun a => name (snd a)) Heq).
    assert (Hf : facts (userData body) = None)
      by exact (f_equal (fun a => facts (snd a)) Heq).
    split; [|intros H; now elim H].
    intros _. unfold showPlanetInfo. cbv zeta. rewrite Hn, Hf. reflexivity.
Qed.

Lemma moon_alone_reachable : reachable moon_alone.
Proof.
  apply reachable_run; [apply reachable_init | repeat constructor; simpl; lra].
Qed.

Lemma moon_alone_planets : planets moon_alone = [moonMesh 3.0].
Proof. reflexivity. Qed.

Lemma info_panel_texts_witness :
  showPlanetInfo (moonMesh 3.0)
  = mkInfoPanel "Moon" "Unknown" "Unknown" "Unknown" "Unknown".
Proof.
  assert (Hin : In (moonMesh 3.0) (planets moon_alone))
    by (rewrite moon_alone_planets; now left).
  destruct (info_panel_texts moon_alone (moonMesh 3.0) moon_alone_reachable Hin)
    as [Hmoon _].
  apply Hmoon. reflexivity.
Defined.

(** ** The scale slider *)

Lemma set_scale_eta (p : Mesh) : set_scale (scale p) p = p.
Proof. now destruct p. Qed.

(** X20.  Only the last position of the scale slider counts: two scale
    inputs in a row leave every body with the scale that the second input
    alone would have given it, and moving the slider away and back to
    where it was restores every body.  The first input must not be 0, nor
    [planetScale] before it. *)
Theorem last_scale_input_counts (s : SolarSystem) (a b : R) :
  planetScale s <> 0 ->
  a <> 0 ->
  planets (scaleSlider_input b (scaleSlider_input a s))
  = planets (scaleSlider_input b s)
  /\ planetScale (scaleSlider_input b (scaleSlider_input a s)) = b
  /\ planets (scaleSlider_input (planetScale s) (scaleSlider_input a s))
     = planets s.
Proof.
  intros Hk Ha.
  assert (Hcompose : forall c,
             planets (scaleSlider_input c (scaleSlider_input a s))
             = planets (scaleSlider_input c s)).
  { intros c. unfold scaleSlider_input; simpl. rewrite map_map.
    apply map_ext. intros p. unfold set_scale; simpl. f_equal. now field. }
  split; [apply Hcompose|]. split; [reflexivity|].
  rewrite Hcompose. unfold scaleSlider_input; simpl.
  rewrite <- (map_id (planets s)) at 2. apply map_ext. intros p.
  transitivity (set_scale (scale p) p); [|apply set_scale_eta].
  unfold set_scale. f_equal. now field.
Qed.

Lemma earth_loaded_planetScale : planetScale earth_loaded = 3.0.
Proof. reflexivity. Qed.

Lemma last_scale_input_counts_witness :
  planets (scaleSlider_input 5 (scaleSlider_input 2 earth_loaded))
  = planets (scaleSlider_input 5 earth_loaded)
  /\ planetScale (scaleSlider_input 5 (scaleSlider_input 2 earth_loaded)) = 5
  /\ planets (scaleSlider_input (planetScale earth_loaded)
                                (scaleSlider_input 2 earth_loaded))
     = planets earth_loaded.
Proof.
  apply (last_scale_input_counts earth_loaded 2 5).
  - rewrite earth_loaded_planetScale. lra.
  - lra.
Defined.

Lemma proportions_step (ps : list Mesh) (v : R) (p : Mesh) :
  proportions (spin v (orbit ps v p)) = proportions p.
Proof.
  unfold proportions. rewrite appearance_step. f_equal.
  unfold orbit.
  destruct (parent_is "Earth" (userData p)).
  - destruct (find_planet "Earth" ps); reflexivity.
  - destruct (negb (name (userData p) =? "Moon")%string); reflexivity.
Qed.

Lemma visits_proportions (now v : R) (idxs : list nat)
      (st : list Mesh * option (list RingObject)) :
  map proportions (fst (visits now v idxs st)) = map proportions (fst st).
Proof.
  revert st; induction idxs as [|i idxs IH]; intros st; auto.
  rewrite visits_cons, IH. destruct st as [ps rings]; simpl.
  destruct (nth_error ps i) as [p|] eqn:E; simpl; auto.
  rewrite map_store, proportions_step.
  apply store_id. now rewrite nth_error_map, E.
Qed.

Lemma animate_proportions (now : R) (s : SolarSystem) :
  map proportions (planets (animate now s)) = map proportions (planets s).
Proof.
  destruct (isPaused s) eqn:E.
  - now rewrite animate_paused.
  - rewrite animate_planets by assumption.
    apply (visits_proportions now (animationSpeed s)
             (seq 0 (List.length (planets s))) (planets s, saturnRings s)).
Qed.

Lemma resolved_planetScale (loaded : bool) (p : Pending) (c : Chance)
      (s : SolarSystem) :
  planetScale (if loaded then onLoad p c s else onError p c s) = planetScale s.
Proof. apply (resolved_fields loaded p c s). Qed.

Lemma born_in_proportion (loaded : bool) (p : Pending) (c : Chance) (k : R) :
  pending_catalogued p ->
  Forall (moon_in_proportion k) (map proportions (born loaded p c k)).
Proof.
  intros Hp. destruct p; simpl; try constructor.
  - destruct Hp as (cfg & Hcfg & Heq).
    injection Heq as -> -> -> -> -> -> -> ->.
    intros Hmoon. simpl in Hmoon.
    now destruct (planetData_texts cfg Hcfg) as (Hne & _).
  - constructor.
  - destruct loaded; simpl; constructor; [|constructor].
    intros _. simpl. lra.
Qed.

Lemma run_moon_in_proportion (now : R) (events : list Event) :
  Forall possible events ->
  scale_inputs_nonzero events ->
  planetScale (run events (init now)) <> 0
  /\ Forall (moon_in_proportion (planetScale (run events (init now))))
            (map proportions (planets (run events (init now)))).
Proof.
  induction events as [|e events IH] using rev_ind; intros Hok Hnz.
  - rewrite run_nil, init_planets.
    destruct (init_furniture now) as (_ & _ & _ & -> & _).
    split; [lra | constructor].
  - apply Forall_app in Hok as [Hok He], Hnz as [Hnz Hez].
    destruct (IH Hok Hnz) as [Hk Hb]. clear IH.
    assert (Hs : reachable (run events (init now)))
      by (apply reachable_run; [apply reachable_init | exact Hok]).
    destruct (reachable_catalogued _ Hs) as [Hl _].
    rewrite run_snoc. set (s := run events (init now)) in *.
    inversion Hez as [|? ? Hv _]; subst. clear Hez He.
    destruct e; try (split; [exact Hk | exact Hb]).
    + change (TextureLoaded path c) with (texture_event true path c).
      rewrite handle_texture_event.
      destruct (take path (loading s)) as [[p rest]|] eqn:E; [|now split].
      destruct (take_Forall _ _ _ _ _ E Hl) as [Hp _].
      pose proof (resolved_planetScale true p c (set_loading rest s)) as Hscale.
      pose proof (resolved_planets true p c (set_loading rest s)) as Hplanets.
      change (planetScale (onLoad p c (set_loading rest s)) = planetScale s)
        in Hscale.
      change (planets (onLoad p c (set_loading rest s))
              = planets s ++ born true p c (planetScale s)) in Hplanets.
      rewrite Hscale, Hplanets, map_app.
      split; [exact Hk|]. apply Forall_app; split; [exact Hb|].
      now apply born_in_proportion.
    + change (TextureFailed path c) with (texture_event false path c).
      rewrite handle_texture_event.
      destruct (take path (loading s)) as [[p rest]|] eqn:E; [|now split].
      destruct (take_Forall _ _ _ _ _ E Hl) as [Hp _].
      pose proof (resolved_planetScale false p c (set_loading rest s)) as Hscale.
      pose proof (resolved_planets false p c (set_loading rest s)) as Hplanets.
      change (planetScale (onError p c (set_loading rest s)) = planetScale s)
        in Hscale.
      change (planets (onError p c (set_loading rest s))
              = planets s ++ born false p c (planetScale s)) in Hplanets.
      rewrite Hscale, Hplanets, map_app.
      split; [exact Hk|]. apply Forall_app; split; [exact Hb|].
      now apply born_in_proportion.
    + change (handle s (AnimationFrame now0)) with (animate now0 s).
      rewrite animate_proportions.
      destruct (animate_furniture now0 s) as (_ & _ & _ & _ & ->).
      now split.
    + change (planetScale (handle s (ScaleInput value))) with value.
      change (planets (handle s (ScaleInput value)))
        with (map (fun p => set_scale (value / planetScale s * scale p) p)
                  (planets s)).
      split; [exact Hv|].
      rewrite map_map. rewrite Forall_map in Hb. rewrite Forall_map.
      eapply Forall_impl; [|exact Hb].
      intros p Hp Hmoon. specialize (Hp Hmoon).
      unfold proportions in *; simpl in *.
      transitivity (radius p * scale p * (value / planetScale s)); [ring|].
      rewrite Hp. now field.
    + change (handle s (MobileTap hit)) with (mobileTap hit s).
      unfold mobileTap. destruct hit as [j|]; [|now split].
      destruct (nth_error (planets s) j); now split.
Qed.

(** X21.  The moon stays in proportion to the scale slider.  Its geometry
    is built when its texture arrives, with the [planetScale] of that
    moment, and every later scale input multiplies its scale, so the
    radius at which it is drawn is always [0.27] times the current
    [planetScale], as long as no scale input is 0. *)
Theorem moon_keeps_proportion (now : R) (events : list Event) (body : Mesh) :
  Forall possible events ->
  scale_inputs_nonzero events ->
  In body (planets (run events (init now))) ->
  name (userData body) = "Moon" ->
  radius body * scale body = 0.27 * planetScale (run events (init now)).
Proof.
  intros Hok Hnz Hin Hmoon.
  destruct (run_moon_in_proportion now events Hok Hnz) as [_ Hb].
  rewrite Forall_map, Forall_forall in Hb.
  exact (Hb body Hin Hmoon).
Qed.

Lemma rescaled_moon_planets :
  planets rescaled_moon = [set_scale (5 / 2 * 1) (moonMesh 2)].
Proof. reflexivity. Qed.

Lemma moon_keeps_proportion_witness :
  radius (set_scale (5 / 2 * 1) (moonMesh 2))
  * scale (set_scale (5 / 2 * 1) (moonMesh 2))
  = 0.27 * planetScale rescaled_moon.
Proof.
  apply (moon_keeps_proportion 0
           [ScaleInput 2; TextureLoaded "textures/moon.jpg" no_chance;
            ScaleInput 5]).
  - repeat constructor; simpl; lra.
  - repeat constructor; lra.
  - fold rescaled_moon. rewrite rescaled_moon_planets. now left.
  - reflexivity.
Defined.

(** ** Touch gestures *)





Lemma spread_positive (a b : Touch) :
  clientX a <> clientX b \/ clientY a <> clientY b -> 0 < spread (a, b).
Proof.
  intros H. unfold spread, touchDistance; simpl. apply sqrt_lt_R0.
  pose proof (Rle_0_sqr (clientX a - clientX b)) as Hx.
  pose proof (Rle_0_sqr (clientY a - clientY b)) as Hy.
  destruct H as [H|H].
  - assert (H0 : 0 < Rsqr (clientX a - clientX b)) by (apply Rsqr_pos_lt; lra).
    unfold Rsqr in *. lra.
  - assert (H0 : 0 < Rsqr (clientY a - clientY b)) by (apply Rsqr_pos_lt; lra).
    unfold Rsqr in *. lra.
Qed.



(** ** The spaceships *)

Lemma navLights_forEach_range (time : R) (index : nat) (lights : list Part) :
  Forall (fun light => 0.1 <= part_opacity light <= 0.9)
         (navLights_forEach time index lights).
Proof.
  revert index; induction lights as [|light lights IH]; intros index; simpl;
    constructor; auto.
  simpl. pose proof (SIN_bound (time * (0.5 + INR index * 0.3))). lra.
Qed.

Lemma update_spaceship_on_course (v now : R) (spaceship : Spaceship) :
  on_course (update_spaceship v now spaceship).
Proof.
  unfold on_course, update_spaceship; cbv zeta; simpl.
  set (a := ship_angle spaceship + ship_orbitSpeed spaceship * v).
  split; [|split; [|split]].
  - pose proof (sin2_cos2 a) as H. unfold Rsqr in H. nra.
  - pose proof (SIN_bound (a * 3)). pose proof (COS_bound (a * 1.5)). lra.
  - apply navLights_forEach_range.
  - apply Forall_map, Forall_forall. intros glow _. simpl.
    pose proof (SIN_bound (now * 0.003 * 4)). split; [lra|].
    eexists. split; [reflexivity | lra].
Qed.

(** X23.  After [update] every spaceship is on its course, whatever the
    animation speed and the clock: it lies on the cylinder of its orbit
    radius ([x * x + z * z = orbitRadius * orbitRadius]) within 11 of the
    orbital plane, its navigation lights have an opacity between 0.1 and
    0.9, its engine glows an opacity between 0.2 and 0.6 and a scale
    between 0.88 and 1.04.  No spaceship is added or dropped, and the
    speed is stored. *)
Theorem spaceships_stay_on_course
        (system : SpaceshipSystem) (v now : R) (spaceship : Spaceship) :
  In spaceship (spaceships (update v now system)) ->
  on_course spaceship
  /\ List.length (spaceships (update v now system))
     = List.length (spaceships system)
  /\ spaceship_animationSpeed (update v now system) = v.
Proof.
  intros Hin. unfold update in *; simpl in *.
  rewrite length_map. split; [|now split].
  apply in_map_iff in Hin as (ship0 & <- & _).
  apply update_spaceship_on_course.
Qed.

Lemma spaceships_stay_on_course_witness :
  on_course
    (update_spaceship 2 16
       (createSpaceshipModel (mkSpaceshipConfig "Explorer-1" 80 0.015 4.0 0x4a9eff 0)))
  /\ List.length
       (spaceships
          (update 2 16
             (mkSpaceshipSystem (map createSpaceshipModel spaceshipConfigs) 1.0)))
     = List.length
         (spaceships
            (mkSpaceshipSystem (map createSpaceshipModel spaceshipConfigs) 1.0))
  /\ spaceship_animationSpeed
       (update 2 16
          (mkSpaceshipSystem (map createSpaceshipModel spaceshipConfigs) 1.0))
     = 2.
Proof.
  apply (spaceships_stay_on_course
           (mkSpaceshipSystem (map createSpaceshipModel spaceshipConfigs) 1.0) 2 16).
  left. reflexivity.
Defined.
